(** * shed.simple: translation nodes between document streams and raw payloads

    A shallow embedding of [src/shed/simple.py]: the extraction node
    [SimpleFromEventStream], the reconstruction node [SimpleToEventStream],
    the graph walk [walk_to_translation] and the alignment node
    [AlignEventStreams], followed by the properties of the specification
    they were checked against.

    Conventions of the embedding.
    - Python objects that flow through the nodes are values of [value]:
      [None], integers, strings, tuples, lists and dictionaries with string
      keys. Document bodies are such dictionaries ([gmap string value]).
      Floating point numbers and arrays are payloads the nodes only pass
      along; they are not modelled.
    - A method of a node is a computation in the monad [M]: it threads the
      attributes of [self], appends to a trace of the outward calls the
      method makes, in program order, and either returns or raises.
    - Other nodes are reached through references into a [heap]; an outward
      call ([self.emit], [s.emit_start], [s.emit_stop]) is recorded in the
      trace and not run in place. *)

From stdpp Require Import gmap strings list fin_maps fin_sets.
From Stdlib Require Import ZArith Lia.

Set Warnings "-register-all,-clear-no-such-hyp".
Set Default Proof Using "Type".

Open Scope string_scope.
Open Scope list_scope.
Open Scope nat_scope.

(** ** Python values *)

Inductive value :=
  | VNone
  | VInt (z : Z)
  | VStr (s : string)
  | VTuple (items : list value)
  | VList (items : list value)
  | VDict (d : gmap string value).

Abbreviation dict := (gmap string value).

(** A reference to a node object. *)
Abbreviation ref := nat.

(** The exceptions the code can raise. *)
Inductive exn :=
  | KeyError (k : string)
  | TypeError
  | IndexError
  | AttributeError (name : string)
  | RuntimeError (msg : string).

Inductive result (A : Type) :=
  | Ok (a : A)
  | Raise (e : exn).
Arguments Ok {A} a.
Arguments Raise {A} e.

(** [a == b] on Python values. *)
Fixpoint py_eq (a b : value) {struct a} : bool :=
  match a, b with
  | VNone, VNone => true
  | VInt x, VInt y => bool_decide (x = y)
  | VStr x, VStr y => bool_decide (x = y)
  | VTuple la, VTuple lb | VList la, VList lb =>
      (fix all2 (la lb : list value) : bool :=
         match la, lb with
         | [], [] => true
         | x :: la', y :: lb' => py_eq x y && all2 la' lb'
         | _, _ => false
         end) la lb
  | VDict da, VDict db =>
      bool_decide (dom da = dom db)
      && map_fold (λ k v acc,
                   acc && match db !! k with
                          | Some w => py_eq v w
                          | None => false
                          end) true da
  | _, _ => false
  end.

(** [v in l] for a Python list or tuple [l]. *)
Definition py_in (v : value) (l : list value) : bool := existsb (py_eq v) l.

(** [s1 in s2] for two Python strings. *)
Definition str_contains (s1 s2 : string) : bool :=
  match String.index 0 s1 s2 with Some _ => true | None => false end.

(** [inner[k]] for a string key [k]. *)
Definition py_getitem (inner : value) (k : string) : result value :=
  match inner with
  | VDict d => match d !! k with Some v => Ok v | None => Raise (KeyError k) end
  | _ => Raise TypeError
  end.

(** [k in inner] for a string key [k]. *)
Definition py_contains (k : string) (inner : value) : result bool :=
  match inner with
  | VDict d => Ok (bool_decide (is_Some (d !! k)))
  | VTuple l | VList l => Ok (py_in (VStr k) l)
  | VStr s => Ok (str_contains k s)
  | VNone | VInt _ => Raise TypeError
  end.

(** [doc.get(k, default)]. *)
Definition dict_get (doc : dict) (k : string) (default : value) : value :=
  match doc !! k with Some v => v | None => default end.

(** [doc[k]]. *)
Definition dict_getitem (doc : dict) (k : string) : result value :=
  py_getitem (VDict doc) k.

(** A document as it travels on a stream: the tuple [(name, doc)]. *)
Definition document (name : string) (doc : dict) : value :=
  VTuple [VStr name; VDict doc].

Definition ALL : string := "--ALL THE DOCS--".

(** ** Outward calls and the method monad *)

(** What a method does to other nodes. *)
Inductive effect :=
  | Emit (v : value)                      (* self.emit(v) *)
  | CallEmitStart (s : ref) (x : value)   (* s.emit_start(x) *)
  | CallEmitStop (s : ref) (x : value).   (* s.emit_stop(x) *)

(** The side-channel calls, as opposed to the emissions. *)
Definition is_notification (e : effect) : bool :=
  match e with Emit _ => false | _ => true end.

Section monad.
Context {S : Type}.

Definition M (A : Type) : Type :=
  S → list effect → S * list effect * result A.

Definition ret {A} (a : A) : M A := λ s tr, (s, tr, Ok a).

Definition bind {A B} (m : M A) (k : A → M B) : M B := λ s tr,
  match m s tr with
  | (s', tr', Ok a) => k a s' tr'
  | (s', tr', Raise e) => (s', tr', Raise e)
  end.

Definition raise {A} (e : exn) : M A := λ s tr, (s, tr, Raise e).

Definition lift {A} (r : result A) : M A := λ s tr, (s, tr, r).

Definition get : M S := λ s tr, (s, tr, Ok s).

Definition modify (f : S → S) : M unit := λ s tr, (f s, tr, Ok tt).

Definition tell (e : effect) : M unit := λ s tr, (s, tr ++ [e], Ok tt).

Definition when (b : bool) (m : M unit) : M unit :=
  if b then m else ret tt.

(** [[f(a) for a in l]], for its effects. *)
Fixpoint for_each {A} (l : list A) (f : A → M unit) : M unit :=
  match l with
  | [] => ret tt
  | a :: l' => bind (f a) (λ _, for_each l' f)
  end.

(** Run a method on [self] from an empty trace. *)
Definition run {A} (m : M A) (self : S) : S * list effect * result A :=
  m self [].
End monad.
Arguments M : clear implicits.

Declare Scope method_scope.
Delimit Scope method_scope with method.
Notation "x <- m ;; k" := (bind m (λ x, k))
  (at level 100, m at next level, k at level 200, right associativity,
   only parsing) : method_scope.
Notation "m ;; k" := (bind m (λ _, k))
  (at level 100, k at level 200, right associativity,
   only parsing) : method_scope.
Open Scope method_scope.

(** ** The extraction node *)

(** One component of [data_address]: a key, or a tuple of keys read at once. *)
Inductive address_item :=
  | AKey (k : string)
  | ATuple (ks : list string).

(** The outcome of walking [data_address] into a document. *)
Inductive resolution :=
  | Resolved (inner : value)
  | Dropped
  | Failed (e : exn).

Module SimpleFromEventStream.

Record t := {
  principle : bool;
  doc_type : string;
  data_address : list address_item;
  event_stream_name : string;
  uid : string;
  descriptor_uids : list value;
  subs : list ref;
  start_uid : value;
}.

Definition set_start_uid (v : value) (self : t) : t :=
  {| principle := principle self; doc_type := doc_type self;
     data_address := data_address self;
     event_stream_name := event_stream_name self; uid := uid self;
     descriptor_uids := descriptor_uids self; subs := subs self;
     start_uid := v |}.

Definition set_descriptor_uids (l : list value) (self : t) : t :=
  {| principle := principle self; doc_type := doc_type self;
     data_address := data_address self;
     event_stream_name := event_stream_name self; uid := uid self;
     descriptor_uids := l; subs := subs self;
     start_uid := start_uid self |}.

Definition set_subs (l : list ref) (self : t) : t :=
  {| principle := principle self; doc_type := doc_type self;
     data_address := data_address self;
     event_stream_name := event_stream_name self; uid := uid self;
     descriptor_uids := descriptor_uids self; subs := l;
     start_uid := start_uid self |}.

(** [__init__]: the attributes of a fresh node; [uid] stands for the
    generated [str(uuid.uuid4())]. *)
Definition init (doc_type : string) (data_address : list address_item)
    (event_stream_name : string) (principle : bool) (uid : string) : t :=
  {| principle := principle; doc_type := doc_type;
     data_address := data_address;
     event_stream_name := event_stream_name; uid := uid;
     descriptor_uids := []; subs := []; start_uid := VNone |}.

(** [tuple(inner[daa] for daa in da)]. *)
Fixpoint getitems (inner : value) (da : list string) : result (list value) :=
  match da with
  | [] => Ok []
  | daa :: da' =>
      match py_getitem inner daa with
      | Raise e => Raise e
      | Ok v =>
          match getitems inner da' with
          | Raise e => Raise e
          | Ok vs => Ok (v :: vs)
          end
      end
  end.

(** The loop [for da in self.data_address] of [update]. *)
Fixpoint resolve (address : list address_item) (inner : value) : resolution :=
  match address with
  | [] => Resolved inner
  | ATuple da :: rest =>
      match getitems inner da with
      | Raise e => Failed e
      | Ok vs => resolve rest (VTuple vs)
      end
  | AKey da :: rest =>
      match py_contains da inner with
      | Raise e => Failed e
      | Ok false => Dropped
      | Ok true =>
          match py_getitem inner da with
          | Raise e => Failed e
          | Ok v => resolve rest v
          end
      end
  end.

(** The filter on a descriptor that decides whether its uid is tracked
    (lines 153 to 156). *)
Definition tracks (self : t) (doc : dict) : bool :=
  bool_decide (event_stream_name self = ALL)
  || py_eq (VStr (event_stream_name self)) (dict_get doc "name" (VStr "primary")).

(** The condition that guards the emission (lines 164 to 173); the
    lookup [doc["descriptor"]] may raise. *)
Definition selects (self : t) (name : string) (doc : dict) : result bool :=
  if bool_decide (name = doc_type self) then
    if bool_decide (name = "descriptor")
       && py_eq (VStr (event_stream_name self)) (dict_get doc "name" (VStr ALL))
    then Ok true
    else if bool_decide (name = "event") then
      match dict_getitem doc "descriptor" with
      | Raise e => Raise e
      | Ok d =>
          Ok (py_in d (descriptor_uids self)
              || bool_decide (name = "start") || bool_decide (name = "stop"))
      end
    else Ok (bool_decide (name = "start") || bool_decide (name = "stop"))
  else Ok false.

(** Lines 149 to 162 of [update]: the session bookkeeping and the
    side-channel calls to the dependents. *)
Definition track (x : string * dict) : M t unit :=
  let '(name, doc) := x in
  when (bool_decide (name = "start"))
    (u <- lift (dict_getitem doc "uid") ;;
     modify (set_start_uid u) ;;
     self <- get ;;
     for_each (subs self) (λ s, tell (CallEmitStart s (document name doc)))) ;;
  self <- get ;;
  when (bool_decide (name = "descriptor") && tracks self doc)
    (u <- lift (dict_getitem doc "uid") ;;
     modify (λ self, set_descriptor_uids (descriptor_uids self ++ [u]) self)) ;;
  when (bool_decide (name = "stop"))
    (modify (set_descriptor_uids []) ;;
     self <- get ;;
     for_each (subs self) (λ s, tell (CallEmitStop s (document name doc)))).

(** Lines 163 to 186 of [update]: the node's own emission. *)
Definition forward (x : string * dict) : M t unit :=
  let '(name, doc) := x in
  self <- get ;;
  selected <- lift (selects self name doc) ;;
  if selected : bool then
    match resolve (data_address self) (VDict doc) with
    | Resolved inner => tell (Emit inner)
    | Dropped => ret tt
    | Failed e => raise e
    end
  else ret tt.

Definition update (x : string * dict) : M t unit :=
  track x ;; forward x.

(** The side-channel calls a document triggers, one per dependent. *)
Definition notifications (self : t) (name : string) (doc : dict) : list effect :=
  if bool_decide (name = "start") then
    map (λ s, CallEmitStart s (document name doc)) (subs self)
  else if bool_decide (name = "stop") then
    map (λ s, CallEmitStop s (document name doc)) (subs self)
  else [].

(** [track] reads [doc["uid"]] for a start and for a tracked descriptor. *)
Definition needs_uid (self : t) (name : string) (doc : dict) : bool :=
  bool_decide (name = "start")
  || (bool_decide (name = "descriptor") && tracks self doc).

(** The attributes [track] leaves behind when it returns. *)
Definition tracked (self : t) (name : string) (doc : dict) : t :=
  let u := dict_get doc "uid" VNone in
  if bool_decide (name = "start") then set_start_uid u self
  else if bool_decide (name = "descriptor") && tracks self doc
       then set_descriptor_uids (descriptor_uids self ++ [u]) self
  else if bool_decide (name = "stop") then set_descriptor_uids [] self
  else self.

End SimpleFromEventStream.

(** ** The dependency graph of a reconstruction node *)

(** The key of a node in the dependency graph: its [uid] attribute when it
    has one, its hash otherwise ([_hash_or_uid]). *)
Inductive ident :=
  | IdUid (u : string)
  | IdHash (h : Z).

#[global] Instance ident_eq_dec : EqDecision ident.
Proof. solve_decision. Defined.

#[global] Instance ident_countable : Countable ident.
Proof.
  refine (inj_countable'
            (λ i, match i with IdUid u => inl u | IdHash h => inr h end)
            (λ s, match s with inl u => IdUid u | inr h => IdHash h end) _).
  by intros [].
Defined.

(** The part of a networkx [DiGraph] that the code uses: every node with
    its [stream] attribute, when it was given one, and the edges.
    [graph.node.items()] lists the nodes in the order they were added; the
    model keeps them as a finite map and makes no claim on that order. *)
Record DiGraph := {
    nodes : gmap ident (option ref);
    edges : gset (ident * ident);
}.

Module nx.

Definition empty : DiGraph := {| nodes := ∅; edges := ∅ |}.

(** [graph.add_node(n, stream=s)]. *)
Definition add_node (n : ident) (s : ref) (g : DiGraph) : DiGraph :=
  {| nodes := <[n := Some s]> (nodes g); edges := edges g |}.

(** [graph.add_edge(u, v)]: end points that are not yet nodes are added
    without attributes. *)
Definition add_edge (u v : ident) (g : DiGraph) : DiGraph :=
  let touch n (m : gmap ident (option ref)) :=
    match m !! n with Some _ => m | None => <[n := None]> m end in
  {| nodes := touch v (touch u (nodes g)); edges := {[ (u, v) ]} ∪ edges g |}.

(** [graph.has_edge(u, v)]. *)
Definition has_edge (u v : ident) (g : DiGraph) : bool :=
  bool_decide ((u, v) ∈ edges g).

(** [n in graph]. *)
Definition has_node (n : ident) (g : DiGraph) : bool :=
  bool_decide (is_Some (nodes g !! n)).

End nx.

(** Every node of the graph carries its [stream] attribute. *)
Definition all_streams (graph : DiGraph) : Prop :=
  map_Forall (λ _ a, is_Some a) (nodes graph).

(** ** The document generator *)

(** Modelled from the spec: the schema and document generator
    [shed.doc_gen.CreateDocs], a base class of [SimpleToEventStream], is not
    part of the sources. Section 6 of the specification gives its interface:
    from the configured data keys and a payload it produces a start body, a
    descriptor body, an event body and a stop body. The generator keeps state
    of its own (identifiers, counters), of type [G]; [cd_start_uid] reads the
    [start_uid] attribute that a boundary node exposes (section 4.3). *)
Class CreateDocs (G : Type) := {
    cd_start_uid : G → value;
    cd_start_doc : G → value → dict * G;
    cd_descriptor : G → value → dict * G;
    cd_event : G → value → dict * G;
    cd_stop : G → value → dict * G;
}.

(** ** The reconstruction node: attributes *)

Module ToES.

Record t (G : Type) := {
  state : string;
  subs : list ref;
  uid : string;
  start_document : option (string * dict);
  graph : DiGraph;
  translation_nodes : gmap ident ref;
  principle_nodes : list ref;
  docs : G;        (* the attributes inherited from [CreateDocs] *)
}.
Arguments state {G} _.
Arguments subs {G} _.
Arguments uid {G} _.
Arguments start_document {G} _.
Arguments graph {G} _.
Arguments translation_nodes {G} _.
Arguments principle_nodes {G} _.
Arguments docs {G} _.

Section setters.
Context {G : Type}.

Definition set_state (v : string) (self : t G) : t G :=
  {| state := v; subs := subs self; uid := uid self;
     start_document := start_document self; graph := graph self;
     translation_nodes := translation_nodes self;
     principle_nodes := principle_nodes self; docs := docs self |}.

Definition set_subs (v : list ref) (self : t G) : t G :=
  {| state := state self; subs := v; uid := uid self;
     start_document := start_document self; graph := graph self;
     translation_nodes := translation_nodes self;
     principle_nodes := principle_nodes self; docs := docs self |}.

Definition set_start_document (v : option (string * dict)) (self : t G) : t G :=
  {| state := state self; subs := subs self; uid := uid self;
     start_document := v; graph := graph self;
     translation_nodes := translation_nodes self;
     principle_nodes := principle_nodes self; docs := docs self |}.

Definition set_docs (v : G) (self : t G) : t G :=
  {| state := state self; subs := subs self; uid := uid self;
     start_document := start_document self; graph := graph self;
     translation_nodes := translation_nodes self;
     principle_nodes := principle_nodes self; docs := v |}.

(** The attributes the constructor computes from the walk. *)
Definition set_walk (g : DiGraph) (tn : gmap ident ref) (pn : list ref)
    (self : t G) : t G :=
  {| state := state self; subs := subs self; uid := uid self;
     start_document := start_document self; graph := g;
     translation_nodes := tn; principle_nodes := pn; docs := docs self |}.
End setters.

End ToES.

(** ** The object graph *)

(** What a node of the dataflow graph is an instance of. [Plain] stands for
    every node of the substrate that is neither of the two translation
    classes. *)
Inductive instance (G : Type) :=
  | Plain
  | From (f : SimpleFromEventStream.t)
  | To (t : ToES.t G).
Arguments Plain {G}.
Arguments From {G} f.
Arguments To {G} t.

Record stream_node (G : Type) := {
    upstreams : list (option ref);     (* [None] is an absent upstream *)
    downstreams : list ref;
    hash : Z;
    inst : instance G;
}.
Arguments upstreams {G} _.
Arguments downstreams {G} _.
Arguments hash {G} _.
Arguments inst {G} _.

Abbreviation heap G := (gmap ref (stream_node G)).

Section attributes.
Context {G : Type} `{!CreateDocs G}.

(** [_hash_or_uid(node)]. *)
Definition _hash_or_uid (node : stream_node G) : ident :=
  match inst node with
  | From f => IdUid (SimpleFromEventStream.uid f)
  | To t => IdUid (ToES.uid t)
  | Plain => IdHash (hash node)
  end.

(** [isinstance(node, SimpleFromEventStream)]. *)
Definition is_from (node : stream_node G) : bool :=
  match inst node with From _ => true | _ => false end.

(** [isinstance(node, SimpleToEventStream)]. *)
Definition is_to (node : stream_node G) : bool :=
  match inst node with To _ => true | _ => false end.

(** [getattr(node, "principle", False)]. *)
Definition get_principle (node : stream_node G) : bool :=
  match inst node with
  | From f => SimpleFromEventStream.principle f
  | _ => false
  end.

(** [node.start_uid], for a node of a translation class. *)
Definition get_start_uid (node : stream_node G) : value :=
  match inst node with
  | From f => SimpleFromEventStream.start_uid f
  | To t => cd_start_uid (ToES.docs t)
  | Plain => VNone
  end.

(** [node.uid], for a node of a translation class. *)
Definition get_uid (node : stream_node G) : option string :=
  match inst node with
  | From f => Some (SimpleFromEventStream.uid f)
  | To t => Some (ToES.uid t)
  | Plain => None
  end.

(** [node.subs], for a node of a translation class. *)
Definition get_subs (node : stream_node G) : list ref :=
  match inst node with
  | From f => SimpleFromEventStream.subs f
  | To t => ToES.subs t
  | Plain => []
  end.

(** [node.subs.append(s)]. *)
Definition append_sub (s : ref) (node : stream_node G) : stream_node G :=
  {| upstreams := upstreams node; downstreams := downstreams node;
     hash := hash node;
     inst := match inst node with
             | From f => From (SimpleFromEventStream.set_subs
                                 (SimpleFromEventStream.subs f ++ [s]) f)
             | To t => To (ToES.set_subs (ToES.subs t ++ [s]) t)
             | Plain => Plain
             end |}.
End attributes.

(** [{k: v for k, v in items}]: a later item overrides an earlier one. *)
Definition dict_of_items (items : list (string * value)) : dict :=
  fold_left (λ m kv, <[kv.1 := kv.2]> m) items ∅.

(** [v is not None]. *)
Definition is_not_None (v : value) : bool :=
  match v with VNone => false | _ => true end.

(** ** The graph walk *)

(** [h !!! r] reads the object behind a reference. Every reference of a
    Python object graph leads to an object; a reference outside [h] reads as
    a node without neighbours. *)
#[global] Instance stream_node_inhabited {G} : Inhabited (stream_node G) :=
  populate {| upstreams := []; downstreams := []; hash := 0; inst := Plain |}.

(** A loop that threads the graph and stops when a step gives no result. *)
Fixpoint fold_option {A B} (f : B → A → option B) (l : list A) (b : B) : option B :=
  match l with
  | [] => Some b
  | a :: l' => match f b a with Some b' => fold_option f l' b' | None => None end
  end.

Section walk.
Context {G : Type}.
Variable h : heap G.

(** The loop over [node.downstreams] (lines 54 to 62): the first
    downstream reconstruction node that is not yet in the graph. *)
Definition find_downstream (g : DiGraph) (ds : list ref) : option ref :=
  List.find (λ d, is_to (h !!! d) && negb (nx.has_node (_hash_or_uid (h !!! d)) g)) ds.

(** [walk_to_translation] with a bound on the depth of the recursion;
    [None] when the bound is reached. *)
Fixpoint walk (fuel : nat) (node : option ref) (graph : DiGraph)
    (prior_node : option ref) : option DiGraph :=
  match fuel, node with
  | 0, _ => None
  | S _, None => Some graph
  | S fuel, Some node =>
      let n := h !!! node in
      let t := _hash_or_uid n in
      let graph := nx.add_node t node graph in
      let ascend graph :=
        fold_option
          (λ graph node2,
             match node2 with
             | None => Some graph
             | Some _ => walk fuel node2 graph (Some node)
             end)
          (upstreams n) graph in
      match prior_node with
      | Some prior_node =>
          let tt := _hash_or_uid (h !!! prior_node) in
          if nx.has_edge t tt graph then Some graph
          else
            let graph := nx.add_edge t tt graph in
            if is_from n then Some graph
            else
              match find_downstream graph (downstreams n) with
              | Some downstream =>
                  let ttt := _hash_or_uid (h !!! downstream) in
                  Some (nx.add_edge t ttt (nx.add_node ttt downstream graph))
              | None => ascend graph
              end
      | None => ascend graph
      end
  end.

(** The identities of all objects of the graph. *)
Definition identities : gset ident :=
  {[ _hash_or_uid (inhabitant : stream_node G) ]}
  ∪ map_to_set (λ _ n, _hash_or_uid n) h.

(** The edges the walk has not drawn yet: each call that recurses draws
    one of them. *)
Definition missing_edges (graph : DiGraph) : gset (ident * ident) :=
  cprod identities identities ∖ edges graph.

(** A depth that the recursion cannot reach. *)
Definition walk_depth (graph : DiGraph) : nat :=
  S (S (size (missing_edges graph))).

Definition walk_to_translation (node : option ref) (graph : DiGraph)
    (prior_node : option ref) : option DiGraph :=
  walk (walk_depth graph) node graph prior_node.
End walk.

(** ** The reconstruction node: methods *)

Module SimpleToEventStream.
Import ToES.

(** *** Construction *)

Section construction.
Context {G : Type}.

(** [isinstance(n, (SimpleFromEventStream, SimpleToEventStream))]. *)
Definition is_translation (n : stream_node G) : bool := is_from n || is_to n.

(** Lines 255 to 262: the boundary nodes of the graph. Reading
    [n["stream"]] raises on a node without that attribute. *)
Definition select_translation_nodes (self : ref) (h : heap G) (g : DiGraph)
    : result (gmap ident ref) :=
  if bool_decide (map_Forall (λ _ a, is_Some a) (nodes g)) then
    Ok (omap (λ a : option ref,
                match a with
                | Some r =>
                    if is_translation (h !!! r) && negb (bool_decide (r = self))
                    then Some r else None
                | None => None
                end) (nodes g))
  else Raise (KeyError "stream").

(** Lines 263 to 268. *)
Definition select_principle_nodes (h : heap G) (tn : gmap ident ref) : list ref :=
  List.filter (λ r, get_principle (h !!! r) || is_to (h !!! r))
              (map_to_list tn).*2.

(** The assignments to [self.graph], [self.translation_nodes] and
    [self.principle_nodes]. *)
Definition set_attributes (g : DiGraph) (tn : gmap ident ref) (pn : list ref)
    (n : stream_node G) : stream_node G :=
  {| upstreams := upstreams n; downstreams := downstreams n; hash := hash n;
     inst := match inst n with
             | To t => To (ToES.set_walk g tn pn t)
             | i => i
             end |}.

(** Lines 250 to 272 of [SimpleToEventStream.__init__], on the object
    graph in which the new node [self] is already linked to its upstream
    with its first attributes set (lines 235 to 248). [None] when the walk
    gives no graph. *)
Definition init (self : ref) (h : heap G) : option (result (heap G)) :=
  match walk_to_translation h (Some self) nx.empty None with
  | None => None
  | Some graph =>
      Some
        match select_translation_nodes self h graph with
        | Raise e => Raise e
        | Ok translation_nodes =>
            let principle_nodes := select_principle_nodes h translation_nodes in
            match principle_nodes with
            | [] => Raise (RuntimeError "No Principle Nodes Detected")
            | _ =>
                let h := alter (set_attributes graph translation_nodes
                                  principle_nodes) self h in
                Ok (fold_left (λ h p, alter (append_sub self) p h)
                              principle_nodes h)
            end
        end
  end.
End construction.

(** *** Methods *)

Section methods.
Context {G : Type} `{!CreateDocs G}.
(** The object graph as it is when the method runs; [start_doc] reads
    the boundary nodes from it. The node itself is never one of its own
    [translation_nodes] (line 261). *)
Variable h : heap G.

(** A call of one method of the generator on the inherited attributes. *)
Definition generate (f : G → value → dict * G) (x : value) : M (t G) dict :=
  self <- get ;;
  let '(body, g) := f (docs self) x in
  modify (set_docs g) ;;
  ret body.

(** The boundary nodes that have a [start_uid], as the comprehensions of
    lines 305 to 314 see them. *)
Definition started_nodes (self : t G) : list (stream_node G) :=
  List.filter (λ v, is_not_None (get_start_uid v))
              (map (λ kr : ident * ref, h !!! kr.2)
                   (map_to_list (translation_nodes self))).

Definition parent_uids (self : t G) : list value :=
  map get_start_uid (started_nodes self).

Definition parent_node_map (self : t G) : dict :=
  dict_of_items
    (omap (λ v, match get_uid v with
                | Some u => Some (u, get_start_uid v)
                | None => None
                end)
          (started_nodes self)).

Definition start_doc (x : value) : M (t G) dict :=
  new_start_doc <- generate cd_start_doc x ;;
  self <- get ;;
  let new_start_doc :=
    <["parent_node_map" := VDict (parent_node_map self)]>
      (<["parent_uids" := VList (parent_uids self)]> new_start_doc) in
  modify (set_start_document (Some ("start", new_start_doc))) ;;
  ret new_start_doc.

(** Modelled from the spec: [create_doc] belongs to the generator class,
    which is not part of the sources. It builds the body of the named
    document with the method of that name, [start_doc] for a start (the
    override above), and returns the pair of the name and the body. *)
Definition create_doc (name : string) (x : value) : M (t G) value :=
  if bool_decide (name = "start") then
    body <- start_doc x ;; ret (document name body)
  else if bool_decide (name = "descriptor") then
    body <- generate cd_descriptor x ;; ret (document name body)
  else if bool_decide (name = "event") then
    body <- generate cd_event x ;; ret (document name body)
  else if bool_decide (name = "stop") then
    body <- generate cd_stop x ;; ret (document name body)
  else raise (AttributeError name).

Definition emit_stop (x : value) : M (t G) unit :=
  stop <- create_doc "stop" x ;;
  tell (Emit stop) ;;
  self <- get ;;
  for_each (subs self) (λ s, tell (CallEmitStop s x)) ;;
  modify (set_state "stopped").

Definition emit_start (x : value) : M (t G) unit :=
  self <- get ;;
  (* Emergency stop *)
  when (negb (bool_decide (state self = "stopped"))) (emit_stop x) ;;
  start <- create_doc "start" x ;;
  tell (Emit start) ;;
  self <- get ;;
  for_each (subs self) (λ s, tell (CallEmitStart s x)) ;;
  modify (set_state "started") ;;
  modify (set_start_document None).

Definition update (x : value) : M (t G) unit :=
  self <- get ;;
  (* If we have a start document ready to go, release it. *)
  when (bool_decide (state self = "started"))
    (d <- create_doc "descriptor" x ;;
     tell (Emit d) ;;
     modify (set_state "described")) ;;
  e <- create_doc "event" x ;;
  tell (Emit e).

(** *** What the methods compute *)

Definition stop_body (self : t G) (x : value) : dict :=
  (cd_stop (docs self) x).1.

Definition after_stop (self : t G) (x : value) : t G :=
  set_state "stopped" (set_docs (cd_stop (docs self) x).2 self).

Definition start_body (self : t G) (x : value) : dict :=
  let self1 := set_docs (cd_start_doc (docs self) x).2 self in
  <["parent_node_map" := VDict (parent_node_map self1)]>
    (<["parent_uids" := VList (parent_uids self1)]>
       (cd_start_doc (docs self) x).1).

Definition after_start (self : t G) (x : value) : t G :=
  set_start_document None
    (set_state "started"
       (set_start_document (Some ("start", start_body self x))
          (set_docs (cd_start_doc (docs self) x).2 self))).

Definition descriptor_body (self : t G) (x : value) : dict :=
  (cd_descriptor (docs self) x).1.

Definition after_descriptor (self : t G) (x : value) : t G :=
  set_state "described" (set_docs (cd_descriptor (docs self) x).2 self).

Definition event_body (self : t G) (x : value) : dict :=
  (cd_event (docs self) x).1.

Definition after_event (self : t G) (x : value) : t G :=
  set_docs (cd_event (docs self) x).2 self.

(** The calls [emit_stop] and [emit_start] make to the dependents. *)
Definition stop_calls (self : t G) (x : value) : list effect :=
  map (λ s, CallEmitStop s x) (subs self).

Definition start_calls (self : t G) (x : value) : list effect :=
  map (λ s, CallEmitStart s x) (subs self).
End methods.

(** *** Driving a node *)

(** One call on a node, with the object graph at the time of the call. *)
Inductive call (G : Type) :=
| DoEmitStart (h : heap G) (x : value)
| DoEmitStop (h : heap G) (x : value)
| DoUpdate (h : heap G) (x : value).
Arguments DoEmitStart {G} h x.
Arguments DoEmitStop {G} h x.
Arguments DoUpdate {G} h x.

Definition do_call {G} `{!CreateDocs G} (c : call G) : M (t G) unit :=
  match c with
  | DoEmitStart h x => emit_start h x
  | DoEmitStop h x => emit_stop h x
  | DoUpdate h x => update h x
  end.

Definition do_calls {G} `{!CreateDocs G} (cs : list (call G)) : M (t G) unit :=
  for_each cs do_call.

End SimpleToEventStream.

(** [r] is a node of a translation class with [s] among its dependents. *)
Definition registered {G : Type} (s r : ref) (h : heap G) : Prop :=
  ∃ n, h !! r = Some n
       ∧ SimpleToEventStream.is_translation n = true ∧ s ∈ get_subs n.

(** Every node of the graph is keyed by the identity of its stream. *)
Definition keyed_by_identity {G : Type} (h : heap G) (graph : DiGraph) : Prop :=
  ∀ k r, nodes graph !! k = Some (Some r) → k = _hash_or_uid (h !!! r).

(** ** The pipeline of the class documentation *)

(** The example of the docstrings: a raw stream [s] (reference 0), a
    principal extraction node on it (reference 1) and a reconstruction node
    directly downstream of the extraction node (reference 2), whose
    emissions are collected. A document fed to [s] reaches [update] of the
    extraction node; each outward call of that method is run on the
    reconstruction node in the order of the trace: a side-channel call when it
    is addressed to the node, an emission as the arrival of a payload. *)
Module Pipeline.
Section pipeline.
Context {G : Type} `{!CreateDocs G}.

Record t := {
  extraction : SimpleFromEventStream.t;
  reconstruction : ToES.t G;
}.

Definition objects (p : t) : heap G :=
  {[ 0 := {| upstreams := []; downstreams := [1]; hash := 0; inst := Plain |};
     1 := {| upstreams := [Some 0]; downstreams := [2]; hash := 1;
             inst := From (extraction p) |};
     2 := {| upstreams := [Some 1]; downstreams := []; hash := 2;
             inst := To (reconstruction p) |} ]}.

Definition deliver (h : heap G) (e : effect) : M (ToES.t G) unit :=
  match e with
  | Emit v => SimpleToEventStream.update h v
  | CallEmitStart s x =>
      if bool_decide (s = 2) then SimpleToEventStream.emit_start h x else ret tt
  | CallEmitStop s x =>
      if bool_decide (s = 2) then SimpleToEventStream.emit_stop h x else ret tt
  end.

(** [s.emit((name, doc))]: the new pipeline, what the reconstruction node
    emitted, and the exception that reaches the caller, if any. *)
Definition feed (x : string * dict) (p : t) : t * list effect * result unit :=
  let '(f, calls, r) := run (SimpleFromEventStream.update x) (extraction p) in
  let h := objects {| extraction := f; reconstruction := reconstruction p |} in
  let '(t', out, r') := run (for_each calls (deliver h)) (reconstruction p) in
  ({| extraction := f; reconstruction := t' |}, out,
   match r' with Ok _ => r | Raise e => Raise e end).

(** [for x in xs: s.emit(x)]: stops at the first exception. *)
Fixpoint feed_all (xs : list (string * dict)) (p : t)
    : t * list effect * result unit :=
  match xs with
  | [] => (p, [], Ok tt)
  | x :: xs' =>
      match feed x p with
      | (p', out, Ok _) =>
          let '(p'', out', r) := feed_all xs' p' in (p'', out ++ out', r)
      | (p', out, Raise e) => (p', out, Raise e)
      end
  end.

(** The object graph before the reconstruction node is constructed. *)
Definition fresh_objects (doc_type : string) (data_address : list address_item)
    (g : G) : heap G :=
  objects
    {| extraction :=
         SimpleFromEventStream.init doc_type data_address ALL true "from-1";
       reconstruction :=
         {| ToES.state := "stopped"; ToES.subs := []; ToES.uid := "to-2";
            ToES.start_document := None; ToES.graph := nx.empty;
            ToES.translation_nodes := ∅; ToES.principle_nodes := [];
            ToES.docs := g |} |}.

(** The pipeline once the reconstruction node is constructed: the result
    of [__init__] on the fresh object graph. *)
Definition initial (doc_type : string) (data_address : list address_item)
    (g : G) : t :=
  let walked :=
    {| nodes := {[ IdUid "to-2" := Some 2; IdUid "from-1" := Some 1 ]};
       edges := {[ (IdUid "from-1", IdUid "to-2") ]} |} in
  {| extraction :=
       SimpleFromEventStream.set_subs [2]
         (SimpleFromEventStream.init doc_type data_address ALL true "from-1");
     reconstruction :=
       {| ToES.state := "stopped"; ToES.subs := []; ToES.uid := "to-2";
          ToES.start_document := None; ToES.graph := walked;
          ToES.translation_nodes := {[ IdUid "from-1" := 1 ]};
          ToES.principle_nodes := [1];
          ToES.docs := g |} |}.
End pipeline.
Arguments t G : clear implicits.
End Pipeline.

(** ** The alignment node *)

(** Modelled from the spec: the deep-merge collaborator
    ([regolith.chained_db.ChainDB] with [_convert_to_dict]) is not part of
    the sources. Sections 4.4 and 6 of the specification describe it: from an
    ordered list of bodies it produces one mapping in which a later body
    overrides an earlier one on a key collision; nested mappings merge
    recursively and any other value is replaced outright. *)
Fixpoint merge_value (a b : value) {struct a} : value :=
  match a, b with
  | VDict da, VDict db =>
      VDict (merge (λ oa ob,
                      match oa, ob with
                      | Some x, Some y => Some (merge_value x y)
                      | Some x, None => Some x
                      | None, _ => ob
                      end) da db)
  | _, _ => b
  end.

(** The merge of two bodies. *)
Definition deep_merge (da db : dict) : dict :=
  merge (λ oa ob,
           match oa, ob with
           | Some x, Some y => Some (merge_value x y)
           | Some x, None => Some x
           | None, _ => ob
           end) da db.

(** [_convert_to_dict] of the [ChainDB] of the bodies [docs]. *)
Definition ChainDB (docs : list value) : value :=
  fold_left merge_value docs (VDict ∅).

(** The left-to-right merge of a list of bodies. *)
Definition merge_all (docs : list dict) : dict :=
  fold_left deep_merge docs ∅.

(** [l[::2]]. *)
Fixpoint every_other {A} (l : list A) : list A :=
  match l with
  | [] => []
  | [a] => [a]
  | a :: _ :: l' => a :: every_other l'
  end.

Module AlignEventStreams.

(** [_emit], on the tuple [x] that the zip substrate has popped from the
    buffers, one element per upstream in the order of declaration;
    [super()._emit] hands the combined document to the downstream
    nodes. *)
Definition _emit {S : Type} (x : list (list value)) : M S unit :=
  (* flatten out the nested setup *)
  let x := concat x in
  let names := every_other x in
  let docs := every_other (tail x) in
  match names with
  | [] => raise IndexError
  | name :: _ => tell (Emit (VTuple [name; ChainDB docs]))
  end.

(** An argument of the constructor: a stream object or a literal value
    ([isinstance(upstream, Stream)]). *)
Inductive upstream :=
| UStream (r : ref)
| ULiteral (v : value).

(** The attributes the class adds to the zip node. [self.buffers] and
    [self.literals] are bound by [update] to the entry of one document type
    in [true_buffers] and [true_literals]; the record keeps the name of that
    type, [None] while they are as the constructor of the zip node left
    them. *)
Record t := {
  true_buffers : gmap string (gmap ref (list value));
  true_literals : gmap string (list (nat * value));
  buffers : option string;
  literals : option string;
}.

Definition doc_names : list string := ["start"; "descriptor"; "event"; "stop"].

(** [{upstream: deque() for upstream in upstreams
      if isinstance(upstream, Stream)}]. *)
Definition fresh_buffers (upstreams : list upstream) : gmap ref (list value) :=
  fold_left (λ m u, match u with
                    | UStream r => <[r := []]> m
                    | ULiteral _ => m
                    end) upstreams ∅.

(** [[(i, val) for i, val in enumerate(upstreams)
      if not isinstance(val, Stream)]]. *)
Definition fresh_literals (upstreams : list upstream) : list (nat * value) :=
  omap (λ iu : nat * upstream,
          match iu.2 with
          | ULiteral v => Some (iu.1, v)
          | UStream _ => None
          end) (imap pair upstreams).

(** Lines 329 to 345 of [__init__]. *)
Definition init (upstreams : list upstream) : t :=
  {| true_buffers :=
       fold_left (λ m k, <[k := fresh_buffers upstreams]> m) doc_names ∅;
     true_literals :=
       fold_left (λ m k, <[k := fresh_literals upstreams]> m) doc_names ∅;
     buffers := None; literals := None |}.

(** Lines 355 to 357 of [update]: the buffers and the literals of the
    document type are put in place before the zip node sees the document. *)
Definition select (x : string * dict) : M t unit :=
  let '(name, doc) := x in
  self <- get ;;
  match true_buffers self !! name with
  | None => raise (KeyError name)
  | Some _ =>
      modify (λ self, {| true_buffers := true_buffers self;
                         true_literals := true_literals self;
                         buffers := Some name;
                         literals := literals self |}) ;;
      self <- get ;;
      match true_literals self !! name with
      | None => raise (KeyError name)
      | Some _ =>
          modify (λ self, {| true_buffers := true_buffers self;
                             true_literals := true_literals self;
                             buffers := buffers self;
                             literals := Some name |})
      end
  end.

End AlignEventStreams.

(** ** Emitted document streams *)

(** The name of a document [(name, doc)]. *)
Definition document_name (v : value) : option string :=
  match v with
  | VTuple [VStr name; VDict _] => Some name
  | _ => None
  end.

(** The names of the documents a trace emits, in order. *)
Definition emitted_names (tr : list effect) : list string :=
  omap (λ e, match e with Emit v => document_name v | _ => None end) tr.

(** A session of an emitted stream is what follows a start up to the next
    start or stop: the documents in between, and the document that ends
    them, when there is one. *)
Definition is_boundary (name : string) : bool :=
  bool_decide (name = "start") || bool_decide (name = "stop").

Fixpoint session_of (names : list string) : list string * option string :=
  match names with
  | [] => ([], None)
  | n :: names' =>
      if is_boundary n then ([], Some n)
      else let '(inside, closing) := session_of names' in (n :: inside, closing)
  end.

Fixpoint sessions (names : list string) : list (list string * option string) :=
  match names with
  | [] => []
  | n :: names' =>
      if bool_decide (n = "start") then session_of names' :: sessions names'
      else sessions names'
  end.

(** The number of documents called [name] in a list of names. *)
Definition count_name (name : string) (names : list string) : nat :=
  length (filter (λ n, n = name) names).

(** Session well-formedness as the specification words it: every session
    holds exactly one descriptor. *)
Definition one_descriptor_per_session (names : list string) : Prop :=
  Forall (λ s : list string * option string, count_name "descriptor" s.1 = 1)
         (sessions names).

(** Session well-formedness as the node keeps it: a session is empty, or is
    one descriptor followed by at least one event; and a session that is
    ended is ended by a stop, never by another start. *)
Definition lazily_described (s : list string * option string) : Prop :=
  (s.1 = [] ∨ ∃ k, s.1 = "descriptor" :: replicate (S k) "event")
  ∧ (s.2 = None ∨ s.2 = Some "stop").

Definition sessions_well_formed (names : list string) : Prop :=
  Forall lazily_described (sessions names).

(** What the names emitted from the state [st] on look like: the sessions
    they open are well formed, and so is the end of the session that is
    open in [st]. *)
Definition continues (st : string) (names : list string) : Prop :=
  sessions_well_formed names
  ∧ (st = "started" → lazily_described (session_of names))
  ∧ (st ≠ "started" → st ≠ "stopped" →
     ∃ k closing, session_of names = (replicate k "event", closing)
                  ∧ (closing = None ∨ closing = Some "stop")).

(** A method advances a reconstruction node when it returns, extends the
    trace, and what it emits keeps the sessions well formed. *)
Definition advances {G : Type} (m : M (ToES.t G) unit) : Prop :=
  ∀ self, ∃ self' out,
    (∀ tr, m self tr = (self', tr ++ out, Ok tt))
    ∧ (∀ names, continues (ToES.state self') names →
                continues (ToES.state self) (emitted_names out ++ names)).

(** ** Further notions for the properties *)

(** The size of a value, for inductions on values. *)
Fixpoint value_size (v : value) : nat :=
  match v with
  | VTuple l | VList l => S (list_sum (map value_size l))
  | VDict d => S (map_fold (λ _ w acc, value_size w + acc) 0 d)
  | _ => 1
  end.

(** The value at a path of keys through nested dictionaries. *)
Fixpoint lookup_path (ks : list string) (v : value) : option value :=
  match ks with
  | [] => Some v
  | k :: ks' =>
      match v with
      | VDict d =>
          match d !! k with
          | Some w => lookup_path ks' w
          | None => None
          end
      | _ => None
      end
  end.


(** *** The reconstruction node as a machine on names *)

(** The names one call makes the node emit in the state [st], and the
    state it leaves, after the transitions the class documents. *)
Definition call_names {G : Type} (st : string) (c : SimpleToEventStream.call G)
    : list string :=
  match c with
  | SimpleToEventStream.DoEmitStart _ _ =>
      if bool_decide (st = "stopped") then ["start"] else ["stop"; "start"]
  | SimpleToEventStream.DoEmitStop _ _ => ["stop"]
  | SimpleToEventStream.DoUpdate _ _ =>
      if bool_decide (st = "started") then ["descriptor"; "event"] else ["event"]
  end.

Definition next_state {G : Type} (st : string) (c : SimpleToEventStream.call G)
    : string :=
  match c with
  | SimpleToEventStream.DoEmitStart _ _ => "started"
  | SimpleToEventStream.DoEmitStop _ _ => "stopped"
  | SimpleToEventStream.DoUpdate _ _ =>
      if bool_decide (st = "started") then "described" else st
  end.

Fixpoint machine_names {G : Type} (st : string)
    (cs : list (SimpleToEventStream.call G)) : list string :=
  match cs with
  | [] => []
  | c :: cs' => call_names st c ++ machine_names (next_state st c) cs'
  end.

Fixpoint machine_state {G : Type} (st : string)
    (cs : list (SimpleToEventStream.call G)) : string :=
  match cs with
  | [] => st
  | c :: cs' => machine_state (next_state st c) cs'
  end.

Definition is_emit_start {G : Type} (c : SimpleToEventStream.call G) : bool :=
  match c with SimpleToEventStream.DoEmitStart _ _ => true | _ => false end.

Definition is_emit_stop {G : Type} (c : SimpleToEventStream.call G) : bool :=
  match c with SimpleToEventStream.DoEmitStop _ _ => true | _ => false end.

Definition is_update {G : Type} (c : SimpleToEventStream.call G) : bool :=
  match c with SimpleToEventStream.DoUpdate _ _ => true | _ => false end.

(** The attributes that the methods never assign. *)
Definition same_wiring {G : Type} (self self' : ToES.t G) : Prop :=
  ToES.uid self' = ToES.uid self ∧ ToES.subs self' = ToES.subs self
  ∧ ToES.graph self' = ToES.graph self
  ∧ ToES.translation_nodes self' = ToES.translation_nodes self
  ∧ ToES.principle_nodes self' = ToES.principle_nodes self.

(** *** The shape of the walked graph *)

(** [u] and [v] are the identities of two objects joined by a dataflow
    link, [u] upstream of [v]. *)
Definition linked {G : Type} (h : heap G) (u v : ident) : Prop :=
  ∃ a b, u = _hash_or_uid (h !!! a) ∧ v = _hash_or_uid (h !!! b)
         ∧ (Some a ∈ upstreams (h !!! b) ∨ b ∈ downstreams (h !!! a)).

(** [graph'] has every node and every edge of [graph]. *)
Definition extends (graph graph' : DiGraph) : Prop :=
  edges graph ⊆ edges graph'
  ∧ ∀ k, is_Some (nodes graph !! k) → is_Some (nodes graph' !! k).

(** No other object of the heap has the identity of [r]. *)
Definition unique_identity {G : Type} (h : heap G) (r : ref) : Prop :=
  map_Forall (λ r' n', _hash_or_uid n' = _hash_or_uid (h !!! r) → r' = r) h.

(** ** Sample inputs *)

Module Samples.

Definition named_descriptor : dict :=
  {[ "uid" := VStr "d1"; "name" := VStr "primary" ]}.

Definition descriptor_node : SimpleFromEventStream.t :=
  SimpleFromEventStream.init "descriptor" [] ALL false "node-1".

(** An event whose descriptor is active, with field [a] and no field [b]. *)
Definition event_a : dict :=
  {[ "descriptor" := VStr "d1"; "a" := VInt 1 ]}.

Definition pair_node : SimpleFromEventStream.t :=
  SimpleFromEventStream.set_descriptor_uids [VStr "d1"]
    (SimpleFromEventStream.init "event" [ATuple ["a"; "b"]] ALL false "node-2").

Definition doc_u : dict := {[ "uid" := VStr "u" ]}.

(** A principal node for start documents with two dependents. *)
Definition start_node : SimpleFromEventStream.t :=
  SimpleFromEventStream.set_subs [5; 6]
    (SimpleFromEventStream.init "start" [AKey "uid"] ALL true "node-3").

(** A generator that numbers the sessions. *)
#[global] Instance counting_docs : CreateDocs nat := {|
  cd_start_uid n := match n with 0 => VNone | _ => VInt (Z.of_nat n) end;
  cd_start_doc n x := ({[ "uid" := VInt (Z.of_nat (S n)) ]}, S n);
  cd_descriptor n x := ({[ "run_start" := VInt (Z.of_nat n) ]}, n);
  cd_event n x := ({[ "data" := x ]}, n);
  cd_stop n x := ({[ "exit_status" := VStr "success" ]}, n);
|}.

Definition doc_v : dict := {[ "uid" := VStr "v" ]}.

(** The pipeline of the docstrings, on event payloads [data.img]. *)
Definition image_pipeline : Pipeline.t nat :=
  Pipeline.initial "event" [AKey "data"; AKey "img"] 0.

(** Two boundary nodes: the first has begun a session, the second has not. *)
Definition boundary_objects : heap nat :=
  {[ 1 := {| upstreams := []; downstreams := []; hash := 1;
             inst := From (SimpleFromEventStream.set_start_uid (VStr "s1")
                             (SimpleFromEventStream.init "event" [] ALL true "a")) |};
     3 := {| upstreams := []; downstreams := []; hash := 3;
             inst := From (SimpleFromEventStream.init "event" [] ALL false "b") |} ]}.

Definition two_parents : ToES.t nat :=
  {| ToES.state := "stopped"; ToES.subs := []; ToES.uid := "to-4";
     ToES.start_document := None; ToES.graph := nx.empty;
     ToES.translation_nodes := {[ IdUid "a" := 1; IdUid "b" := 3 ]};
     ToES.principle_nodes := [1]; ToES.docs := 0 |}.

(** The two bodies of the merge override law. *)
Definition body_a : dict := {[ "x" := VInt 1; "y" := VInt 2 ]}.
Definition body_b : dict := {[ "y" := VInt 3; "z" := VInt 4 ]}.

(** An object graph with a cycle: a principal extraction node (0) feeds
    node 1, nodes 1 and 2 feed each other, and the reconstruction node (3)
    is downstream of node 2. *)
Definition cyclic_objects : heap nat :=
  {[ 0 := {| upstreams := []; downstreams := [1]; hash := 10;
             inst := From (SimpleFromEventStream.init "event" [] ALL true "from-0") |};
     1 := {| upstreams := [Some 0; Some 2]; downstreams := [2]; hash := 11;
             inst := Plain |};
     2 := {| upstreams := [Some 1]; downstreams := [3; 1]; hash := 12;
             inst := Plain |};
     3 := {| upstreams := [Some 2]; downstreams := []; hash := 13;
             inst := To {| ToES.state := "stopped"; ToES.subs := [];
                           ToES.uid := "to-3"; ToES.start_document := None;
                           ToES.graph := nx.empty;
                           ToES.translation_nodes := ∅;
                           ToES.principle_nodes := []; ToES.docs := 0 |} |} ]}.

(** The same graph without a principal node. *)
Definition unprincipled_objects : heap nat :=
  <[ 0 := {| upstreams := []; downstreams := [1]; hash := 10;
             inst := From (SimpleFromEventStream.init "event" [] ALL false "from-0") |} ]>
    cyclic_objects.

(** A node for the payload [data.img] of events, with descriptor [d1] active. *)
Definition image_node : SimpleFromEventStream.t :=
  SimpleFromEventStream.set_descriptor_uids [VStr "d1"]
    (SimpleFromEventStream.init "event" [AKey "data"; AKey "img"] ALL true "node-4").

(** The same node before any descriptor, and one that follows the stream
    named [primary] only. *)
Definition fresh_image_node : SimpleFromEventStream.t :=
  SimpleFromEventStream.init "event" [AKey "data"; AKey "img"] ALL true "node-4".

Definition primary_node : SimpleFromEventStream.t :=
  SimpleFromEventStream.init "event" [AKey "data"; AKey "img"] "primary" true "node-5".

Definition image_event : dict :=
  {[ "descriptor" := VStr "d1"; "data" := VDict {[ "img" := VInt 7 ]} ]}.

Definition descriptor_d1 : dict := {[ "uid" := VStr "d1" ]}.

Definition baseline_descriptor : dict :=
  {[ "uid" := VStr "d1"; "name" := VStr "baseline" ]}.

(** A node whose address runs below the integer at [data.img]. *)
Definition deep_node : SimpleFromEventStream.t :=
  SimpleFromEventStream.set_descriptor_uids [VStr "d1"]
    (SimpleFromEventStream.init "event" [AKey "data"; AKey "img"; AKey "x"]
       ALL true "node-6").

(** One run of the docstrings: two events of the descriptor [d1]. *)
Definition image_run : list (string * dict) :=
  [("start", doc_u); ("descriptor", descriptor_d1);
   ("event", {[ "descriptor" := VStr "d1";
                "data" := VDict {[ "img" := VInt 1 ]} ]});
   ("event", {[ "descriptor" := VStr "d1";
                "data" := VDict {[ "img" := VInt 2 ]} ]});
   ("stop", doc_v)].

(** A reconstruction node that was given no upstream. *)
Definition lonely_objects : heap nat :=
  {[ 0 := {| upstreams := [None]; downstreams := []; hash := 0;
             inst := To {| ToES.state := "stopped"; ToES.subs := [];
                           ToES.uid := "to-0"; ToES.start_document := None;
                           ToES.graph := nx.empty;
                           ToES.translation_nodes := ∅;
                           ToES.principle_nodes := []; ToES.docs := 0 |} |} ]}.

End Samples.

(** * Properties *)

(** ** The method monad *)

Lemma for_each_tell {S A} (f : A → effect) (l : list A) (s : S) tr :
  for_each l (λ a, tell (f a)) s tr = (s, tr ++ map f l, Ok tt).
Proof.
  revert tr. induction l as [|a l IH]; intros tr; simpl.
  - by rewrite app_nil_r.
  - unfold bind, tell at 1. rewrite IH. by rewrite <- app_assoc.
Qed.

(** ** Python values *)

Example py_eq_nested :
  py_eq (VDict {[ "a" := VInt 1; "b" := VDict {[ "c" := VList [VStr "x"] ]} ]})
        (VDict {[ "b" := VDict {[ "c" := VList [VStr "x"] ]}; "a" := VInt 1 ]})
  = true
  ∧ py_eq (VTuple [VInt 1]) (VList [VInt 1]) = false
  ∧ py_eq (VDict {[ "a" := VInt 1 ]}) (VDict {[ "a" := VInt 2 ]}) = false.
Proof. by vm_compute. Qed.

Example py_contains_samples :
  py_contains "a" (VDict {[ "a" := VNone ]}) = Ok true
  ∧ py_contains "b" (VDict {[ "a" := VNone ]}) = Ok false
  ∧ py_contains "a" (VTuple [VInt 1; VStr "a"]) = Ok true
  ∧ py_contains "bc" (VStr "abcd") = Ok true
  ∧ py_contains "a" (VInt 3) = Raise TypeError.
Proof. by vm_compute. Qed.

(** ** The extraction node *)

Section extraction.
Import SimpleFromEventStream.

Lemma getitems_missing (d : dict) (da : list string) :
  (∃ k, k ∈ da ∧ d !! k = None) →
  ∃ k0, k0 ∈ da ∧ d !! k0 = None ∧ getitems (VDict d) da = Raise (KeyError k0).
Proof.
  induction da as [|daa da IH]; intros (k & Hk & Hnone).
  - by apply elem_of_nil in Hk.
  - simpl. destruct (d !! daa) as [v|] eqn:Hdaa.
    + destruct IH as (k0 & Hin & Hk0 & Hget).
      { exists k. split; [|done].
        apply elem_of_cons in Hk as [->|Hk]; [congruence|done]. }
      exists k0. rewrite Hget. split; [by right|done].
    + exists daa. split; [by left|done].
Qed.

Lemma track_returns self name doc tr :
  (needs_uid self name doc = true → is_Some (doc !! "uid")) →
  track (name, doc) self tr
  = (tracked self name doc, tr ++ notifications self name doc, Ok tt).
Proof.
  intros Huid. unfold track, tracked, notifications, needs_uid in *.
  unfold bind, when, lift, modify, get, ret, dict_getitem, py_getitem, dict_get.
  destruct (bool_decide (name = "start")) eqn:Hs.
  - apply bool_decide_eq_true in Hs as ->.
    destruct Huid as [u Hu]; [done|]. rewrite Hu. simpl.
    by rewrite for_each_tell.
  - simpl in *. destruct (bool_decide (name = "descriptor")) eqn:Hd; simpl in *.
    + apply bool_decide_eq_true in Hd as ->. simpl.
      destruct (tracks self doc) eqn:Ht; simpl.
      * destruct Huid as [u Hu]; [done|]. rewrite Hu. by rewrite app_nil_r.
      * by rewrite app_nil_r.
    + destruct (bool_decide (name = "stop")) eqn:Hp; simpl.
      * by rewrite for_each_tell.
      * by rewrite app_nil_r.
Qed.

Lemma track_raises self name doc tr :
  needs_uid self name doc = true → doc !! "uid" = None →
  track (name, doc) self tr = (self, tr, Raise (KeyError "uid")).
Proof.
  intros Hneed Hnone. unfold track, needs_uid in *.
  unfold bind, when, lift, modify, get, ret, dict_getitem, py_getitem.
  destruct (bool_decide (name = "start")) eqn:Hs.
  - by rewrite Hnone.
  - simpl in *. rewrite Hneed. simpl. by rewrite Hnone.
Qed.

Lemma forward_run self name doc tr :
  forward (name, doc) self tr =
  match selects self name doc with
  | Raise e => (self, tr, Raise e)
  | Ok false => (self, tr, Ok tt)
  | Ok true =>
      match resolve (data_address self) (VDict doc) with
      | Resolved inner => (self, tr ++ [Emit inner], Ok tt)
      | Dropped => (self, tr, Ok tt)
      | Failed e => (self, tr, Raise e)
      end
  end.
Proof.
  unfold forward, bind, get, lift.
  destruct (selects self name doc) as [[]|]; [|done..].
  by destruct (resolve _ _).
Qed.

Lemma tracked_data_address self name doc :
  data_address (tracked self name doc) = data_address self.
Proof. unfold tracked. by repeat case_match. Qed.

Lemma tracked_subs self name doc :
  subs (tracked self name doc) = subs self.
Proof. unfold tracked. by repeat case_match. Qed.

Lemma tracked_selects self name doc :
  selects (tracked self name doc) name doc = selects self name doc.
Proof.
  unfold tracked, selects.
  destruct (bool_decide (name = "start")) eqn:Hs; [done|].
  destruct (bool_decide (name = "descriptor")) eqn:Hd; simpl.
  - apply bool_decide_eq_true in Hd as ->. simpl.
    by destruct (tracks self doc).
  - destruct (bool_decide (name = "stop")) eqn:Hp; [|done].
    apply bool_decide_eq_true in Hp as ->. done.
Qed.

(** [update], case by case. *)
Lemma update_run self name doc :
  run (update (name, doc)) self =
  if needs_uid self name doc && bool_decide (doc !! "uid" = None) then
    (self, [], Raise (KeyError "uid"))
  else
    let self' := tracked self name doc in
    let notes := notifications self name doc in
    match selects self name doc with
    | Raise e => (self', notes, Raise e)
    | Ok false => (self', notes, Ok tt)
    | Ok true =>
        match resolve (data_address self) (VDict doc) with
        | Resolved inner => (self', notes ++ [Emit inner], Ok tt)
        | Dropped => (self', notes, Ok tt)
        | Failed e => (self', notes, Raise e)
        end
    end.
Proof.
  unfold run, update. unfold bind at 1.
  destruct (needs_uid self name doc) eqn:Hneed; cbn [andb].
  - destruct (bool_decide (doc !! "uid" = None)) eqn:Hu.
    + apply bool_decide_eq_true in Hu. by rewrite track_raises.
    + apply bool_decide_eq_false in Hu. rewrite track_returns.
      2:{ intros _. by destruct (doc !! "uid"); [eexists|]. }
      rewrite forward_run, tracked_selects, tracked_data_address. cbn zeta.
      destruct (selects self name doc) as [[]|]; [|done..].
      by destruct (resolve _ _).
  - rewrite track_returns by (by rewrite Hneed).
    rewrite forward_run, tracked_selects, tracked_data_address. cbn zeta.
    destruct (selects self name doc) as [[]|]; [|done..].
    by destruct (resolve _ _).
Qed.

Lemma resolve_missing_key (d : dict) k rest :
  d !! k = None → resolve (AKey k :: rest) (VDict d) = Dropped.
Proof.
  intros Hk. simpl. rewrite Hk.
  rewrite bool_decide_eq_false_2; [done|]. by intros [? ?].
Qed.

Lemma resolve_present_key (d : dict) k v rest :
  d !! k = Some v → resolve (AKey k :: rest) (VDict d) = resolve rest v.
Proof.
  intros Hk. simpl. rewrite Hk.
  rewrite bool_decide_eq_true_2; [done|]. by eexists.
Qed.

(** On the path of plain keys a missing key is a silent drop, at any
    depth of nested dictionaries. *)
Lemma update_drops_missing_key self name doc :
  (needs_uid self name doc = true → is_Some (doc !! "uid")) →
  selects self name doc = Ok true →
  resolve (data_address self) (VDict doc) = Dropped →
  run (update (name, doc)) self
  = (tracked self name doc, notifications self name doc, Ok tt).
Proof.
  intros Huid Hsel Hres. rewrite update_run, Hsel, Hres.
  destruct (needs_uid self name doc); [|done].
  destruct Huid as [u Hu]; [done|]. rewrite Hu. done.
Qed.

Lemma update_emits_resolved self name doc inner :
  (needs_uid self name doc = true → is_Some (doc !! "uid")) →
  selects self name doc = Ok true →
  resolve (data_address self) (VDict doc) = Resolved inner →
  run (update (name, doc)) self
  = (tracked self name doc, notifications self name doc ++ [Emit inner], Ok tt).
Proof.
  intros Huid Hsel Hres. rewrite update_run, Hsel, Hres.
  destruct (needs_uid self name doc); [|done].
  destruct Huid as [u Hu]; [done|]. rewrite Hu. done.
Qed.

Lemma resolve_app before rest inner :
  resolve (before ++ rest) inner
  = match resolve before inner with
    | Resolved v => resolve rest v
    | other => other
    end.
Proof.
  revert inner. induction before as [|[k|ks] before IH]; intros inner; [done|..].
  - cbn. destruct (py_contains k inner) as [[]|]; [|done..].
    destruct (py_getitem inner k); [apply IH|done].
  - cbn. destruct (getitems inner ks); [apply IH|done].
Qed.

(** With the wildcard, a descriptor without a name is forwarded. *)
Lemma wildcard_emits_nameless_descriptor self doc u :
  doc_type self = "descriptor" → event_stream_name self = ALL →
  data_address self = [] →
  doc !! "name" = None → doc !! "uid" = Some u →
  run (update ("descriptor", doc)) self
  = (set_descriptor_uids (descriptor_uids self ++ [u]) self,
     [Emit (VDict doc)], Ok tt).
Proof.
  intros Hty Hall Haddr Hname Hu. rewrite update_run.
  unfold needs_uid, tracks, tracked, selects, notifications, tracks, dict_get.
  rewrite Hty, Hall, Haddr, Hname, Hu. cbn.
  by rewrite (bool_decide_eq_true_2 (ALL = ALL)).
Qed.

Lemma notifications_are_calls self name doc :
  Forall (λ e, is_notification e = true) (notifications self name doc).
Proof.
  unfold notifications. repeat case_bool_decide; try done.
  all: by apply Forall_map, Forall_true.
Qed.
End extraction.

(** ** Claims on the extraction node *)

(** C3. The claim: a node for ['descriptor'] documents with the wildcard
    stream name forwards every descriptor, whatever its declared name. The
    code compares the wildcard itself with the declared name on the emission
    path (line 167), so a descriptor that declares a name is tracked by the
    bookkeeping path (line 154, which does test for the wildcard) and yet
    nothing is emitted for it. *)
Theorem C3_wildcard_skips_named_descriptor
    (self : SimpleFromEventStream.t) (doc : dict) (n : string) (u : value) :
  SimpleFromEventStream.doc_type self = "descriptor" →
  SimpleFromEventStream.event_stream_name self = ALL →
  doc !! "name" = Some (VStr n) → n ≠ ALL →
  doc !! "uid" = Some u →
  run (SimpleFromEventStream.update ("descriptor", doc)) self
  = (SimpleFromEventStream.set_descriptor_uids
       (SimpleFromEventStream.descriptor_uids self ++ [u]) self,
     [], Ok tt).
Proof.
  intros Hty Hall Hname Hn Hu. rewrite update_run.
  unfold SimpleFromEventStream.needs_uid, SimpleFromEventStream.tracks,
    SimpleFromEventStream.tracked, SimpleFromEventStream.selects,
    SimpleFromEventStream.notifications, SimpleFromEventStream.tracks, dict_get.
  rewrite Hty, Hall, Hname, Hu. cbn.
  rewrite (bool_decide_eq_false_2 (ALL = n)) by done. done.
Qed.

Lemma C3_wildcard_skips_named_descriptor_witness :
  run (SimpleFromEventStream.update ("descriptor", Samples.named_descriptor))
      Samples.descriptor_node
  = (SimpleFromEventStream.set_descriptor_uids [VStr "d1"]
       Samples.descriptor_node, [], Ok tt).
Proof.
  apply (C3_wildcard_skips_named_descriptor
           Samples.descriptor_node Samples.named_descriptor
           "primary" (VStr "d1")); [reflexivity..| |reflexivity].
  vm_compute. discriminate.
Defined.

(** C4. The claim: a key of the address that is missing from the document,
    also a key inside a tuple component, makes the node emit nothing and
    raise no error. On the path of plain keys the code tests [da in inner]
    before it reads (line 182, see [update_drops_missing_key]); on a tuple
    component it reads [inner[daa]] unguarded (line 180), so the first
    missing key of the tuple raises [KeyError] out of [update], wherever the
    tuple stands in the address. *)
Theorem C4_missing_tuple_key_raises
    (self : SimpleFromEventStream.t) (name : string) (doc d : dict)
    (before : list address_item) (da : list string) (rest : list address_item) :
  (SimpleFromEventStream.needs_uid self name doc = true → is_Some (doc !! "uid")) →
  SimpleFromEventStream.selects self name doc = Ok true →
  SimpleFromEventStream.data_address self = before ++ ATuple da :: rest →
  SimpleFromEventStream.resolve before (VDict doc) = Resolved (VDict d) →
  (∃ k, k ∈ da ∧ d !! k = None) →
  ∃ k0, k0 ∈ da ∧ d !! k0 = None ∧
    run (SimpleFromEventStream.update (name, doc)) self
    = (SimpleFromEventStream.tracked self name doc,
       SimpleFromEventStream.notifications self name doc,
       Raise (KeyError k0)).
Proof.
  intros Huid Hsel Haddr Hbefore Hmiss.
  destruct (getitems_missing d da Hmiss) as (k0 & Hin & Hnone & Hget).
  exists k0. split; [done|]. split; [done|].
  rewrite update_run, Hsel, Haddr, resolve_app, Hbefore. cbn [SimpleFromEventStream.resolve].
  rewrite Hget.
  destruct (SimpleFromEventStream.needs_uid self name doc); [|done].
  destruct Huid as [u Hu]; [done|]. by rewrite Hu.
Qed.

Lemma C4_missing_tuple_key_raises_witness :
  ∃ k0, k0 ∈ ["a"; "b"] ∧ Samples.event_a !! k0 = None ∧
    run (SimpleFromEventStream.update ("event", Samples.event_a)) Samples.pair_node
    = (SimpleFromEventStream.tracked Samples.pair_node "event" Samples.event_a,
       SimpleFromEventStream.notifications Samples.pair_node "event" Samples.event_a,
       Raise (KeyError k0)).
Proof.
  apply (C4_missing_tuple_key_raises Samples.pair_node "event" Samples.event_a
           Samples.event_a [] ["a"; "b"] []).
  - intros H. vm_compute in H. discriminate.
  - vm_compute. reflexivity.
  - reflexivity.
  - reflexivity.
  - exists "b". split; [|vm_compute; reflexivity].
    apply elem_of_cons. right. apply elem_of_cons. by left.
Defined.

(** The failing call itself: the key [b] of the tuple is missing. *)
Example missing_tuple_key :
  run (SimpleFromEventStream.update ("event", Samples.event_a)) Samples.pair_node
  = (Samples.pair_node, [], Raise (KeyError "b")).
Proof. vm_compute. reflexivity. Qed.

(** C9. Within one call of [update] on an extraction node, every call to a
    dependent ([emit_start] on a start document, [emit_stop] on a stop
    document) comes before the node's own emission of the value resolved
    from the same document: the trace of the call is the notifications, one
    per dependent, followed by at most one emission. *)
Theorem C9_notifications_precede_emission
    (self self' : SimpleFromEventStream.t) (name : string) (doc : dict)
    (tr : list effect) (r : result unit) :
  run (SimpleFromEventStream.update (name, doc)) self = (self', tr, r) →
  (∀ i j e v,
     tr !! i = Some e → is_notification e = true →
     tr !! j = Some (Emit v) → i < j)
  ∧ ((SimpleFromEventStream.needs_uid self name doc = true →
      is_Some (doc !! "uid")) →
     ∃ own, tr = SimpleFromEventStream.notifications self name doc ++ own
            ∧ (own = [] ∨
               ∃ inner, own = [Emit inner]
                        ∧ SimpleFromEventStream.resolve
                            (SimpleFromEventStream.data_address self)
                            (VDict doc) = Resolved inner)).
Proof.
  intros Hrun.
  assert (∃ notes own,
     tr = notes ++ own
     ∧ Forall (λ e, is_notification e = true) notes
     ∧ ((SimpleFromEventStream.needs_uid self name doc = true →
         is_Some (doc !! "uid")) →
        notes = SimpleFromEventStream.notifications self name doc)
     ∧ (own = [] ∨
        ∃ inner, own = [Emit inner]
                 ∧ SimpleFromEventStream.resolve
                     (SimpleFromEventStream.data_address self) (VDict doc)
                   = Resolved inner)) as (notes & own & -> & Hnotes & Heq & Hown).
  { rewrite update_run in Hrun.
    destruct (SimpleFromEventStream.needs_uid self name doc) eqn:Hneed;
      [destruct (bool_decide (doc !! "uid" = None)) eqn:Hu|]; cbn [andb] in Hrun.
    { injection Hrun as <- <- <-. exists [], []. repeat split; auto.
      intros [u Hsome]; [done|]. apply bool_decide_eq_true in Hu. congruence. }
    all: cbn zeta in Hrun.
    all: pose proof (notifications_are_calls self name doc) as Hcalls.
    all: destruct (SimpleFromEventStream.selects self name doc) as [[]|];
      [destruct (SimpleFromEventStream.resolve _ _) as [inner| |] eqn:Hres|..];
      injection Hrun as <- <- <-.
    all: try (eexists _, [Emit inner]; repeat split; eauto; fail).
    all: eexists _, []; rewrite app_nil_r; repeat split; eauto. }
  split.
  - intros i j e v Hi He Hj.
    destruct (decide (j < length notes)) as [Hlt|Hge].
    + rewrite lookup_app_l in Hj by done.
      eapply Forall_lookup_1 in Hnotes; [|done]. done.
    + destruct (decide (i < length notes)) as [?|Hige]; [lia|].
      rewrite lookup_app_r in Hi by lia.
      destruct Hown as [->|(inner & -> & _)].
      * by rewrite lookup_nil in Hi.
      * apply lookup_lt_Some in Hi as Hlen. simpl in Hlen.
        replace (i - length notes) with 0 in Hi by lia.
        simpl in Hi. injection Hi as <-. done.
  - intros Hr. exists own. by rewrite <- Heq.
Qed.

Lemma C9_notifications_precede_emission_witness :
  let x := document "start" Samples.doc_u in
  let tr := [CallEmitStart 5 x; CallEmitStart 6 x; Emit (VStr "u")] in
  run (SimpleFromEventStream.update ("start", Samples.doc_u))
      Samples.start_node
  = (SimpleFromEventStream.set_start_uid (VStr "u") Samples.start_node,
     tr, Ok tt)
  ∧ ∀ i j e v,
      tr !! i = Some e → is_notification e = true →
      tr !! j = Some (Emit v) → i < j.
Proof.
  intros x tr.
  assert (run (SimpleFromEventStream.update ("start", Samples.doc_u))
              Samples.start_node
          = (SimpleFromEventStream.set_start_uid (VStr "u") Samples.start_node,
             tr, Ok tt)) as Hrun by (vm_compute; reflexivity).
  split; [exact Hrun|].
  exact (proj1 (C9_notifications_precede_emission _ _ _ _ _ _ Hrun)).
Defined.

(** ** The reconstruction node *)

Section reconstruction.
Import ToES SimpleToEventStream.
Context {G : Type} `{!CreateDocs G}.
Implicit Types (h : heap G) (self : t G) (x : value) (tr : list effect).

Lemma generate_run (f : G → value → dict * G) x self tr :
  generate f x self tr = (set_docs (f (docs self) x).2 self, tr, Ok (f (docs self) x).1).
Proof. unfold generate, bind, get, modify, ret. by destruct (f _ _). Qed.

Lemma create_stop_run h x self tr :
  create_doc h "stop" x self tr
  = (set_docs (cd_stop (docs self) x).2 self, tr,
     Ok (document "stop" (stop_body self x))).
Proof.
  unfold create_doc. repeat (case_bool_decide; try done).
  unfold bind. by rewrite generate_run.
Qed.

Lemma create_descriptor_run h x self tr :
  create_doc h "descriptor" x self tr
  = (set_docs (cd_descriptor (docs self) x).2 self, tr,
     Ok (document "descriptor" (descriptor_body self x))).
Proof.
  unfold create_doc. repeat (case_bool_decide; try done).
  unfold bind. by rewrite generate_run.
Qed.

Lemma create_event_run h x self tr :
  create_doc h "event" x self tr
  = (after_event self x, tr, Ok (document "event" (event_body self x))).
Proof.
  unfold create_doc. repeat (case_bool_decide; try done).
  unfold bind. by rewrite generate_run.
Qed.

Lemma create_start_run h x self tr :
  create_doc h "start" x self tr
  = (set_start_document (Some ("start", start_body h self x))
       (set_docs (cd_start_doc (docs self) x).2 self), tr,
     Ok (document "start" (start_body h self x))).
Proof.
  unfold create_doc. repeat (case_bool_decide; try done).
  unfold bind, start_doc, bind. by rewrite generate_run.
Qed.

Lemma emit_stop_run h x self tr :
  emit_stop h x self tr
  = (after_stop self x,
     tr ++ Emit (document "stop" (stop_body self x)) :: stop_calls self x,
     Ok tt).
Proof.
  unfold emit_stop, bind. rewrite create_stop_run.
  unfold tell at 1, get. rewrite for_each_tell.
  unfold modify, after_stop, stop_calls. cbn. by rewrite <- app_assoc.
Qed.

Lemma emit_start_stopped h x self tr :
  state self = "stopped" →
  emit_start h x self tr
  = (after_start h self x,
     tr ++ Emit (document "start" (start_body h self x)) :: start_calls self x,
     Ok tt).
Proof.
  intros Hst. unfold emit_start, bind, get. rewrite Hst.
  rewrite bool_decide_eq_true_2 by done. cbn [negb when]. unfold ret.
  rewrite create_start_run. unfold tell at 1. rewrite for_each_tell.
  unfold modify, after_start, start_calls. cbn. by rewrite <- app_assoc.
Qed.

Lemma emit_start_repairs h x self tr :
  state self ≠ "stopped" →
  emit_start h x self tr
  = (after_start h (after_stop self x) x,
     tr ++ Emit (document "stop" (stop_body self x)) :: stop_calls self x
        ++ Emit (document "start" (start_body h (after_stop self x) x))
           :: start_calls self x,
     Ok tt).
Proof.
  intros Hst. unfold emit_start, bind, get.
  rewrite bool_decide_eq_false_2 by done. cbn [negb when].
  rewrite emit_stop_run, create_start_run.
  unfold tell at 1. rewrite for_each_tell.
  unfold modify, after_start, start_calls. cbn.
  by rewrite <- !app_assoc.
Qed.

Lemma update_started h x self tr :
  state self = "started" →
  update h x self tr
  = (after_event (after_descriptor self x) x,
     tr ++ [Emit (document "descriptor" (descriptor_body self x));
            Emit (document "event" (event_body (after_descriptor self x) x))],
     Ok tt).
Proof.
  intros Hst. unfold update, bind, get. rewrite Hst. cbn [bool_decide when].
  rewrite bool_decide_eq_true_2 by done. cbn [when]. unfold bind.
  rewrite create_descriptor_run. unfold tell at 1, modify.
  rewrite create_event_run. unfold tell, after_descriptor.
  by rewrite <- app_assoc.
Qed.

Lemma update_not_started h x self tr :
  state self ≠ "started" →
  update h x self tr
  = (after_event self x,
     tr ++ [Emit (document "event" (event_body self x))], Ok tt).
Proof.
  intros Hst. unfold update, bind, get.
  rewrite bool_decide_eq_false_2 by done. cbn [when]. unfold ret.
  rewrite create_event_run. by unfold tell.
Qed.
End reconstruction.

(** ** Emitted names *)

Lemma emitted_names_app tr1 tr2 :
  emitted_names (tr1 ++ tr2) = emitted_names tr1 ++ emitted_names tr2.
Proof. unfold emitted_names. apply omap_app. Qed.

Lemma emitted_names_emit name body tr :
  emitted_names (Emit (document name body) :: tr) = name :: emitted_names tr.
Proof. done. Qed.

Lemma emitted_names_calls tr :
  Forall (λ e, is_notification e = true) tr → emitted_names tr = [].
Proof.
  induction 1 as [|e tr He _ IH]; [done|].
  destruct e; [done|..]; exact IH.
Qed.

Section reconstruction_names.
Import ToES SimpleToEventStream.
Context {G : Type} `{!CreateDocs G}.
Implicit Types (h : heap G) (self : t G) (x : value).

Lemma emitted_names_stop_calls self x : emitted_names (stop_calls self x) = [].
Proof. apply emitted_names_calls. by apply Forall_map, Forall_true. Qed.

Lemma emitted_names_start_calls self x : emitted_names (start_calls self x) = [].
Proof. apply emitted_names_calls. by apply Forall_map, Forall_true. Qed.
End reconstruction_names.

(** The pipeline of the documentation is what the constructor builds. *)
Example pipeline_constructed :
  SimpleToEventStream.init 2
    (Pipeline.fresh_objects "event" [AKey "data"; AKey "img"] 0)
  = Some (Ok (Pipeline.objects Samples.image_pipeline)).
Proof. vm_compute. reflexivity. Qed.

(** ** Claims on the reconstruction node *)

(** C10. A payload that arrives while the node is ['stopped'] still makes
    it emit an event document: no descriptor is emitted and the state stays
    ['stopped'], so the event is outside any start/stop envelope. *)
Theorem C10_payload_while_stopped {G : Type} `{!CreateDocs G}
    (h : heap G) (self : ToES.t G) (x : value) :
  ToES.state self = "stopped" →
  run (SimpleToEventStream.update h x) self
  = (SimpleToEventStream.after_event self x,
     [Emit (document "event" (SimpleToEventStream.event_body self x))], Ok tt)
  ∧ ToES.state (SimpleToEventStream.after_event self x) = "stopped"
  ∧ emitted_names
      [Emit (document "event" (SimpleToEventStream.event_body self x))]
    = ["event"].
Proof.
  intros Hst. split; [|by split].
  unfold run. rewrite update_not_started; [done|]. by rewrite Hst.
Qed.

Lemma C10_payload_while_stopped_witness :
  let self := Pipeline.reconstruction Samples.image_pipeline in
  run (SimpleToEventStream.update ∅ (VInt 7)) self
  = (SimpleToEventStream.after_event self (VInt 7),
     [Emit (document "event" {[ "data" := VInt 7 ]})], Ok tt)
  ∧ ToES.state (SimpleToEventStream.after_event self (VInt 7)) = "stopped"
  ∧ emitted_names [Emit (document "event" {[ "data" := VInt 7 ]})] = ["event"].
Proof.
  exact (C10_payload_while_stopped ∅
           (Pipeline.reconstruction Samples.image_pipeline) (VInt 7) eq_refl).
Defined.

Section pipeline_facts.
Import Pipeline.
Context {G : Type} `{!CreateDocs G}.

Lemma emit_start_names (h : heap G) (self : ToES.t G) x :
  ∃ self' tr,
    SimpleToEventStream.emit_start h x self [] = (self', tr, Ok tt)
    ∧ ToES.state self' = "started"
    ∧ emitted_names tr
      = (if bool_decide (ToES.state self = "stopped") then [] else ["stop"])
        ++ ["start"].
Proof.
  case_bool_decide as Hst.
  - eexists _, _. rewrite emit_start_stopped by done.
    split; [done|]. split; [done|].
    cbn [app]. by rewrite emitted_names_emit, emitted_names_start_calls.
  - eexists _, _. rewrite emit_start_repairs by done.
    split; [done|]. split; [done|].
    cbn [app]. rewrite emitted_names_emit, emitted_names_app.
    by rewrite emitted_names_stop_calls, emitted_names_emit,
      emitted_names_start_calls.
Qed.

(** Feeding a start document to the pipeline. *)
Lemma feed_start (p : Pipeline.t G) (doc : dict) :
  SimpleFromEventStream.subs (extraction p) = [2] →
  is_Some (doc !! "uid") →
  ∃ p' out r inside,
    feed ("start", doc) p = (p', out, r)
    ∧ emitted_names out
      = (if bool_decide (ToES.state (reconstruction p) = "stopped")
         then [] else ["stop"]) ++ "start" :: inside
    ∧ (inside = [] ∨ inside = ["descriptor"; "event"])
    ∧ ToES.state (reconstruction p') ≠ "stopped"
    ∧ SimpleFromEventStream.subs (extraction p') = [2].
Proof.
  intros Hsubs [u Hu]. unfold feed. rewrite update_run.
  unfold SimpleFromEventStream.needs_uid.
  rewrite (bool_decide_eq_true_2 ("start" = "start")) by done.
  rewrite (bool_decide_eq_false_2 (doc !! "uid" = None)) by congruence.
  cbn [orb andb]. cbn zeta.
  assert (SimpleFromEventStream.notifications (extraction p) "start" doc
          = [CallEmitStart 2 (document "start" doc)]) as ->.
  { unfold SimpleFromEventStream.notifications.
    rewrite bool_decide_eq_true_2 by done. by rewrite Hsubs. }
  set (f := SimpleFromEventStream.tracked (extraction p) "start" doc).
  assert (SimpleFromEventStream.subs f = [2]) as Hf
    by (unfold f; by rewrite tracked_subs).
  set (h := objects {| extraction := f; reconstruction := reconstruction p |}).
  destruct (emit_start_names h (reconstruction p) (document "start" doc))
    as (t1 & tr1 & Hrun1 & Hst1 & Hnames1).
  assert (∃ t' out,
      run (for_each [CallEmitStart 2 (document "start" doc)] (deliver h))
          (reconstruction p) = (t', out, Ok tt)
      ∧ emitted_names out
        = (if bool_decide (ToES.state (reconstruction p) = "stopped")
           then [] else ["stop"]) ++ ["start"]
      ∧ ToES.state t' ≠ "stopped") as (t' & out & Hplain & Hn & Hs).
  { exists t1, tr1. unfold run. cbn [for_each deliver].
    rewrite bool_decide_eq_true_2 by done. unfold bind. rewrite Hrun1.
    split; [done|]. split; [done|]. by rewrite Hst1. }
  assert (∀ inner,
    ∃ t' out,
      run (for_each ([CallEmitStart 2 (document "start" doc)] ++ [Emit inner])
             (deliver h)) (reconstruction p) = (t', out, Ok tt)
      ∧ emitted_names out
        = (if bool_decide (ToES.state (reconstruction p) = "stopped")
           then [] else ["stop"]) ++ "start" :: ["descriptor"; "event"]
      ∧ ToES.state t' ≠ "stopped") as Hpayload.
  { intros inner. unfold run. cbn [app for_each deliver].
    rewrite bool_decide_eq_true_2 by done. unfold bind at 1. rewrite Hrun1.
    unfold bind. rewrite update_started by done.
    eexists _, _. split; [done|]. split; [|done].
    rewrite emitted_names_app, Hnames1, <- app_assoc. done. }
  destruct (SimpleFromEventStream.selects (extraction p) "start" doc)
    as [[]|e];
    [destruct (SimpleFromEventStream.resolve _ _) as [inner| |e]|..];
    cbv beta iota zeta; fold f; fold h.
  1: destruct (Hpayload inner) as (t2 & out2 & -> & Hn2 & Hs2);
     eexists _, _, _, _; repeat split; eauto.
  all: rewrite Hplain; eexists _, _, _, []; repeat split; eauto.
Qed.
End pipeline_facts.

(** C2. [emit_start] on a node whose state is not ['stopped'] first emits
    a synthesized stop document (and passes the stop on to the dependents),
    only then the new start document, and raises no error. Hence two start
    documents fed one after the other to the principal source of a pipeline
    put a stop between the two starts that the reconstruction node emits. *)
Theorem C2_start_without_stop_is_repaired {G : Type} `{!CreateDocs G} :
  (∀ (h : heap G) (self : ToES.t G) (x : value),
     ToES.state self ≠ "stopped" →
     let stopped := SimpleToEventStream.after_stop self x in
     let tr :=
       Emit (document "stop" (SimpleToEventStream.stop_body self x))
       :: SimpleToEventStream.stop_calls self x
       ++ Emit (document "start" (SimpleToEventStream.start_body h stopped x))
          :: SimpleToEventStream.start_calls self x in
     run (SimpleToEventStream.emit_start h x) self
     = (SimpleToEventStream.after_start h stopped x, tr, Ok tt)
     ∧ emitted_names tr = ["stop"; "start"])
  ∧ (∀ (p : Pipeline.t G) (doc1 doc2 : dict),
       SimpleFromEventStream.subs (Pipeline.extraction p) = [2] →
       is_Some (doc1 !! "uid") → is_Some (doc2 !! "uid") →
       ∃ before inside1 inside2,
         let '(p1, out1, _) := Pipeline.feed ("start", doc1) p in
         let '(_, out2, _) := Pipeline.feed ("start", doc2) p1 in
         emitted_names (out1 ++ out2)
         = before ++ "start" :: inside1 ++ "stop" :: "start" :: inside2
         ∧ Forall (λ n, is_boundary n = false) inside1
         ∧ Forall (λ n, is_boundary n = false) inside2).
Proof.
  split.
  - intros h self x Hst stopped tr. split.
    + unfold run. by rewrite emit_start_repairs.
    + unfold tr. rewrite emitted_names_emit, emitted_names_app.
      by rewrite emitted_names_stop_calls, emitted_names_emit,
        emitted_names_start_calls.
  - intros p doc1 doc2 Hsubs Hu1 Hu2.
    destruct (feed_start p doc1 Hsubs Hu1)
      as (p1 & out1 & r1 & inside1 & -> & Hn1 & Hin1 & Hst1 & Hsubs1).
    destruct (feed_start p1 doc2 Hsubs1 Hu2)
      as (p2 & out2 & r2 & inside2 & -> & Hn2 & Hin2 & _ & _).
    rewrite bool_decide_eq_false_2 in Hn2 by done.
    eexists _, inside1, inside2. split; [|split].
    + rewrite emitted_names_app, Hn1, Hn2. cbn [app].
      rewrite <- app_assoc. done.
    + destruct Hin1 as [->| ->]; repeat constructor.
    + destruct Hin2 as [->| ->]; repeat constructor.
Qed.

Lemma C2_start_without_stop_is_repaired_witness :
  (let self := ToES.set_state "started"
                 (Pipeline.reconstruction Samples.image_pipeline) in
   emitted_names
     (run (SimpleToEventStream.emit_start ∅ (VInt 0)) self).1.2
   = ["stop"; "start"])
  ∧ ∃ before inside1 inside2,
      let '(p1, out1, _) :=
        Pipeline.feed ("start", Samples.doc_u) Samples.image_pipeline in
      let '(_, out2, _) := Pipeline.feed ("start", Samples.doc_v) p1 in
      emitted_names (out1 ++ out2)
      = before ++ "start" :: inside1 ++ "stop" :: "start" :: inside2
      ∧ Forall (λ n, is_boundary n = false) inside1
      ∧ Forall (λ n, is_boundary n = false) inside2.
Proof.
  split.
  - intros self.
    destruct (proj1 C2_start_without_stop_is_repaired ∅ self (VInt 0))
      as [-> Hnames]; [vm_compute; discriminate|].
    exact Hnames.
  - apply (proj2 C2_start_without_stop_is_repaired Samples.image_pipeline
             Samples.doc_u Samples.doc_v).
    + reflexivity.
    + by eexists.
    + by eexists.
Defined.

(** ** Sessions of an emitted stream *)

Lemma count_name_replicate_other name other k :
  other ≠ name → count_name name (replicate k other) = 0.
Proof.
  intros Hne. unfold count_name. induction k as [|k IH]; [done|].
  cbn [replicate]. rewrite filter_cons_False by done. exact IH.
Qed.

Lemma count_name_replicate name k : count_name name (replicate k name) = k.
Proof.
  unfold count_name. induction k as [|k IH]; [done|].
  cbn [replicate]. rewrite filter_cons_True by done. cbn. by rewrite IH.
Qed.

(** In a well-formed session the descriptor count is at most one, and it is
    one exactly when the session holds an event. *)
Lemma lazily_described_counts s :
    lazily_described s →
  (count_name "descriptor" s.1 ≤ 1)%nat
    ∧ (count_name "descriptor" s.1 = 1 ↔ (0 < count_name "event" s.1)%nat)
    ∧ (∀ i, s.1 !! i = Some "descriptor" → i = 0).
Proof.
  intros [[->|(k & ->)] _].
  - split; [cbn; lia|]. split; [cbn; lia|]. intros i. by rewrite lookup_nil.
  - assert (count_name "descriptor" ("descriptor" :: replicate (S k) "event") = 1)
      as Hd.
    { unfold count_name. rewrite filter_cons_True by done. cbn [length].
      fold (count_name "descriptor" (replicate (S k) "event")).
      by rewrite count_name_replicate_other. }
    assert (count_name "event" ("descriptor" :: replicate (S k) "event") = S k)
      as He.
    { unfold count_name. rewrite filter_cons_False by done.
      fold (count_name "event" (replicate (S k) "event")).
      by rewrite count_name_replicate. }
    cbn [fst]. rewrite Hd, He. split; [lia|]. split; [split; lia|].
    intros [|i]; [done|]. cbn [lookup list_lookup]. intros Hi.
    apply lookup_replicate in Hi as [? _]. done.
Qed.

Section sessions_of_calls.
Import ToES SimpleToEventStream.
Context {G : Type} `{!CreateDocs G}.
Implicit Types (h : heap G) (self : t G) (x : value) (cs : list (call G)).

Lemma continues_nil st : continues st [].
Proof.
  split; [constructor|]. split.
  - intros _. split; [by left|by left].
  - intros _ _. exists 0, None. split; [done|by left].
Qed.

Lemma continues_stop st names :
  continues "stopped" names → continues st ("stop" :: names).
Proof.
  intros (Hwf & _ & _). split; [exact Hwf|]. split.
  - intros _. split; [by left|by right].
  - intros _ _. exists 0, (Some "stop"). split; [done|by right].
Qed.

Lemma continues_start names :
  continues "started" names → continues "stopped" ("start" :: names).
Proof.
  intros (Hwf & Hs & _). split; [|split; [done|done]].
  unfold sessions_well_formed. cbn [sessions].
  rewrite bool_decide_eq_true_2 by done. constructor; [by apply Hs|done].
Qed.

Lemma continues_first_payload names :
  continues "described" names →
  continues "started" ("descriptor" :: "event" :: names).
Proof.
  intros (Hwf & _ & Hd). split; [exact Hwf|]. split; [|done].
  intros _. destruct Hd as (k & closing & Heq & Hc); [done..|].
  unfold lazily_described. cbn. rewrite Heq. cbn.
  split; [right; by exists k|done].
Qed.

Lemma continues_payload st names :
  st ≠ "started" → continues st names → continues st ("event" :: names).
Proof.
  intros Hst (Hwf & _ & Hd). split; [exact Hwf|]. split; [done|].
  intros _ Hns. destruct (Hd Hst Hns) as (k & closing & Heq & Hc).
  exists (S k), closing. cbn. rewrite Heq. done.
Qed.

Lemma advances_ret : advances (ret tt : M (t G) unit).
Proof.
  intros self. exists self, []. split; [|done].
  intros tr. unfold ret. by rewrite app_nil_r.
Qed.

Lemma advances_bind (m k : M (t G) unit) :
  advances m → advances k → advances (m ;; k).
Proof.
  intros Hm Hk self.
  destruct (Hm self) as (self1 & out1 & Hrun1 & Hc1).
  destruct (Hk self1) as (self2 & out2 & Hrun2 & Hc2).
  exists self2, (out1 ++ out2). split.
  - intros tr. unfold bind. rewrite Hrun1, Hrun2. by rewrite app_assoc.
  - intros names Hc. rewrite emitted_names_app, <- app_assoc. auto.
Qed.

Lemma advances_for_each {A} (f : A → M (t G) unit) (l : list A) :
  (∀ a, advances (f a)) → advances (for_each l f).
Proof.
  intros Hf. induction l as [|a l IH]; cbn [for_each].
  - apply advances_ret.
  - by apply advances_bind.
Qed.

Lemma advances_emit_stop h x : advances (emit_stop h x).
Proof.
  intros self. eexists _, _. split.
  - intros tr. apply emit_stop_run.
  - intros names Hc. cbn [app].
    rewrite emitted_names_emit, emitted_names_stop_calls. cbn [app].
    by apply continues_stop.
Qed.

Lemma advances_emit_start h x : advances (emit_start h x).
Proof.
  intros self. destruct (decide (state self = "stopped")) as [Hst|Hst].
  - eexists _, _. split.
    + intros tr. by apply emit_start_stopped.
    + intros names Hc. cbn [app].
      rewrite emitted_names_emit, emitted_names_start_calls. cbn [app].
      rewrite Hst. by apply continues_start.
  - eexists _, _. split.
    + intros tr. by apply emit_start_repairs.
    + intros names Hc. cbn [app].
      rewrite emitted_names_emit, !emitted_names_app,
        emitted_names_stop_calls. cbn [app].
      rewrite emitted_names_emit, emitted_names_start_calls. cbn [app].
      apply continues_stop. by apply continues_start.
Qed.

Lemma advances_update h x : advances (update h x).
Proof.
  intros self. destruct (decide (state self = "started")) as [Hst|Hst].
  - eexists _, _. split.
    + intros tr. by apply update_started.
    + intros names Hc. cbn [app]. rewrite !emitted_names_emit. cbn [app].
      rewrite Hst. by apply continues_first_payload.
  - eexists _, _. split.
    + intros tr. by apply update_not_started.
    + intros names Hc. cbn [app]. rewrite emitted_names_emit. cbn [app].
      by apply continues_payload.
Qed.

Lemma advances_do_calls cs : advances (do_calls cs).
Proof.
  apply advances_for_each. intros [h x|h x|h x]; cbn [do_call].
  - apply advances_emit_start.
  - apply advances_emit_stop.
  - apply advances_update.
Qed.

Lemma advances_deliver h (effs : list effect) :
  advances (for_each effs (Pipeline.deliver h)).
Proof.
  apply advances_for_each. intros [v|s x|s x]; cbn [Pipeline.deliver].
  - apply advances_update.
  - case_bool_decide; [apply advances_emit_start|apply advances_ret].
  - case_bool_decide; [apply advances_emit_stop|apply advances_ret].
Qed.

(** Whatever is fed to the pipeline, the reconstruction node emits well
    formed sessions from its state on. *)
Lemma feed_all_continues (xs : list (string * dict)) (p : Pipeline.t G) :
  continues (state (Pipeline.reconstruction p))
            (emitted_names (Pipeline.feed_all xs p).1.2).
Proof.
  revert p. induction xs as [|x xs IH]; intros p; cbn [Pipeline.feed_all].
  { apply continues_nil. }
  unfold Pipeline.feed.
  destruct (run (SimpleFromEventStream.update x) (Pipeline.extraction p))
    as [[f calls] r].
  set (h := Pipeline.objects _).
  destruct (advances_deliver h calls (Pipeline.reconstruction p))
    as (t1 & out1 & Hrun & Hc).
  unfold run. rewrite Hrun. cbn [app].
  destruct r as [[]|e]; cbn [fst snd].
  - specialize (IH {| Pipeline.extraction := f; Pipeline.reconstruction := t1 |}).
    destruct (Pipeline.feed_all xs _) as [[p'' out'] r']. cbn [fst snd] in *.
    rewrite emitted_names_app. by apply Hc.
  - rewrite <- (app_nil_r (emitted_names out1)).
    apply Hc, continues_nil.
Qed.
End sessions_of_calls.

(** C1, as the specification states it, fails on a session without
    payloads: the pipeline of the documentation, fed a start and then a
    stop, emits a start and a stop and no descriptor in between. *)
Lemma C1_empty_session_has_no_descriptor :
  emitted_names
    (Pipeline.feed_all [("start", Samples.doc_u); ("stop", Samples.doc_v)]
                       Samples.image_pipeline).1.2
  = ["start"; "stop"]
  ∧ ¬ one_descriptor_per_session
        (emitted_names
           (Pipeline.feed_all [("start", Samples.doc_u); ("stop", Samples.doc_v)]
                              Samples.image_pipeline).1.2).
Proof.
  assert (emitted_names
            (Pipeline.feed_all
               [("start", Samples.doc_u); ("stop", Samples.doc_v)]
               Samples.image_pipeline).1.2
          = ["start"; "stop"]) as -> by (vm_compute; reflexivity).
  split; [done|]. intros Hall.
  apply Forall_cons_1 in Hall as [Hone _]. vm_compute in Hone. discriminate.
Qed.

(** C1, amended. Whatever calls reach a reconstruction node, and whatever
    documents are fed to the principal source of a pipeline, every session of
    the stream the node emits (what follows an emitted start, up to the next
    start or stop) is empty or is one descriptor followed by at least one
    event. So a session holds at most one descriptor, it holds one exactly
    when it holds an event, the descriptor comes before every event, and a
    session that is ended is ended by a stop and never by another start. A
    session without payloads holds no descriptor. *)
Theorem C1_sessions_are_lazily_described {G : Type} `{!CreateDocs G}
    (self : ToES.t G) (cs : list (SimpleToEventStream.call G))
    (p : Pipeline.t G) (xs : list (string * dict)) :
  let well_formed names :=
    Forall (λ s : list string * option string,
              lazily_described s
              ∧ (count_name "descriptor" s.1 ≤ 1)%nat
              ∧ (count_name "descriptor" s.1 = 1
                 ↔ (0 < count_name "event" s.1)%nat)
              ∧ (∀ i, s.1 !! i = Some "descriptor" → i = 0))
           (sessions names) in
  (∃ self' tr,
     run (SimpleToEventStream.do_calls cs) self = (self', tr, Ok tt)
     ∧ well_formed (emitted_names tr))
  ∧ well_formed (emitted_names (Pipeline.feed_all xs p).1.2).
Proof.
  intros well_formed.
  assert (∀ names, sessions_well_formed names → well_formed names) as Hwf.
  { intros names Hnames. unfold sessions_well_formed, well_formed in *.
    eapply Forall_impl; [exact Hnames|]. intros s Hs. split; [done|].
    by apply lazily_described_counts. }
  split.
  - destruct (advances_do_calls cs self) as (self' & out & Hrun & Hc).
    exists self', out. split; [apply (Hrun [])|].
    apply Hwf. specialize (Hc [] (continues_nil _)).
    rewrite app_nil_r in Hc. apply Hc.
  - apply Hwf, (feed_all_continues xs p).
Qed.

(** ** Provenance of a start document *)

Lemma is_not_None_spec v : is_not_None v = true ↔ v ≠ VNone.
Proof. destruct v; cbn; split; congruence. Qed.

Lemma elem_of_List_filter {A} (P : A → bool) (l : list A) x :
  x ∈ List.filter P l ↔ x ∈ l ∧ P x = true.
Proof. rewrite !list_elem_of_In. apply filter_In. Qed.

Lemma dict_of_items_lookup (items : list (string * value)) (m : dict) k :
  NoDup items.*1 →
  fold_left (λ m kv, <[kv.1 := kv.2]> m) items m !! k
  = match list_to_map (M := dict) items !! k with
    | Some v => Some v
    | None => m !! k
    end.
Proof.
  revert m. induction items as [|[k0 v0] items IH]; intros m Hnd.
  { cbn. by rewrite lookup_empty. }
  apply NoDup_cons in Hnd as [Hk0 Hnd]. cbn [fold_left fst snd].
  rewrite IH by done. cbn [list_to_map foldr].
  destruct (decide (k = k0)) as [->|Hne].
  - rewrite (not_elem_of_list_to_map_1 (M := gmap string)) by done.
    by rewrite !lookup_insert_eq.
  - by rewrite !lookup_insert_ne.
Qed.

Section provenance.
Import ToES SimpleToEventStream.
Context {G : Type} `{!CreateDocs G}.
Implicit Types (h : heap G) (self : t G) (x : value).

Lemma elem_of_started_nodes h self v :
  v ∈ started_nodes h self
  ↔ ∃ k r, translation_nodes self !! k = Some r ∧ v = h !!! r
           ∧ get_start_uid v ≠ VNone.
Proof.
  unfold started_nodes. rewrite elem_of_List_filter, list_elem_of_fmap.
  rewrite is_not_None_spec. split.
  - intros [([k r] & -> & Hin) Hv]. apply elem_of_map_to_list in Hin.
    by exists k, r.
  - intros (k & r & Hkr & -> & Hv). split; [|done].
    exists (k, r). split; [done|]. by apply elem_of_map_to_list.
Qed.

Lemma elem_of_parent_uids h self u :
  u ∈ parent_uids h self
  ↔ ∃ k r, translation_nodes self !! k = Some r
           ∧ get_start_uid (h !!! r) = u ∧ u ≠ VNone.
Proof.
  unfold parent_uids. rewrite list_elem_of_fmap. split.
  - intros (v & -> & Hv). apply elem_of_started_nodes in Hv
      as (k & r & Hkr & -> & Hne). by exists k, r.
  - intros (k & r & Hkr & <- & Hne). exists (h !!! r). split; [done|].
    apply elem_of_started_nodes. by exists k, r.
Qed.

Lemma length_parent_uids h self :
  length (parent_uids h self)
  = length (List.filter (λ kr : ident * ref,
                           is_not_None (get_start_uid (h !!! kr.2)))
                        (map_to_list (translation_nodes self))).
Proof.
  unfold parent_uids, started_nodes. rewrite length_map.
  induction (map_to_list (translation_nodes self)) as [|kr l IH]; [done|].
  cbn. destruct (is_not_None _); cbn; by rewrite IH.
Qed.

(** The items of the comprehension that builds [parent_node_map]. *)
Lemma parent_node_map_items h (l : list (ident * ref)) :
  (∀ k r, (k, r) ∈ l → ∃ u, get_uid (h !!! r) = Some u ∧ k = IdUid u) →
  NoDup l.*1 →
  let items :=
    omap (λ v : stream_node G,
            match get_uid v with
            | Some u => Some (u, get_start_uid v)
            | None => None
            end)
         (List.filter (λ v, is_not_None (get_start_uid v))
                      (map (λ kr : ident * ref, h !!! kr.2) l)) in
  NoDup items.*1
  ∧ ∀ u s, (u, s) ∈ items
           ↔ ∃ r, (IdUid u, r) ∈ l ∧ get_start_uid (h !!! r) = s ∧ s ≠ VNone.
Proof.
  intros Hkeys Hnd. induction l as [|[k r] l IH]; cbn zeta.
  { split; [constructor|]. intros u s. split.
    - intros Hin. by apply elem_of_nil in Hin.
    - intros (r & Hin & _). by apply elem_of_nil in Hin. }
  apply NoDup_cons in Hnd as [Hk Hnd].
  destruct IH as [IHnd IHin]; [|done|].
  { intros k' r' Hin. apply Hkeys. by right. }
  destruct (Hkeys k r) as (u0 & Hu0 & ->); [by left|].
  cbn [map List.filter snd].
  destruct (is_not_None (get_start_uid (h !!! r))) eqn:Hst.
  - cbn [omap list_omap]. rewrite Hu0. cbn [fmap list_fmap fst]. split.
    + apply NoDup_cons. split; [|exact IHnd].
      intros Hin. apply list_elem_of_fmap in Hin as ([u s] & Heq & Hin).
      cbn in Heq. subst u. apply IHin in Hin as (r' & Hin & _).
      apply Hk. apply list_elem_of_fmap. by exists (IdUid u0, r').
    + intros u s. rewrite elem_of_cons, IHin. split.
      * intros [Heq|(r' & Hin & Hs)].
        -- injection Heq as -> ->. exists r. split; [by left|].
           split; [done|]. by apply is_not_None_spec.
        -- exists r'. split; [by right|done].
      * intros (r' & Hin & Hs & Hne). apply elem_of_cons in Hin as [Heq|Hin].
        -- injection Heq as -> ->. left. by rewrite Hs.
        -- right. by exists r'.
  - split; [exact IHnd|]. intros u s. rewrite IHin. split.
    + intros (r' & Hin & Hs). exists r'. split; [by right|done].
    + intros (r' & Hin & Hs & Hne). apply elem_of_cons in Hin as [Heq|Hin].
      * injection Heq as -> ->. apply is_not_None_spec in Hne.
        rewrite Hs in Hst. congruence.
      * by exists r'.
Qed.

Lemma parent_node_map_lookup h self k r u :
  (∀ k r, translation_nodes self !! k = Some r →
          ∃ u, get_uid (h !!! r) = Some u ∧ k = IdUid u) →
  translation_nodes self !! k = Some r →
  get_uid (h !!! r) = Some u →
  parent_node_map h self !! u
  = if is_not_None (get_start_uid (h !!! r))
    then Some (get_start_uid (h !!! r)) else None.
Proof.
  intros Hkeys Hkr Hu.
  destruct (parent_node_map_items h (map_to_list (translation_nodes self)))
    as [Hnd Hin].
  { intros k' r' Hin. apply Hkeys. by apply elem_of_map_to_list. }
  { apply NoDup_fst_map_to_list. }
  destruct (Hkeys k r Hkr) as (u' & Hu' & ->).
  assert (u' = u) as -> by congruence.
  unfold parent_node_map, dict_of_items, started_nodes.
  rewrite dict_of_items_lookup by exact Hnd. rewrite lookup_empty.
  destruct (is_not_None (get_start_uid (h !!! r))) eqn:Hst.
  - erewrite (elem_of_list_to_map_1 (M := gmap string)); [done|exact Hnd|].
    apply Hin. exists r. split; [by apply elem_of_map_to_list|].
    split; [done|]. by apply is_not_None_spec.
  - rewrite (not_elem_of_list_to_map_1 (M := gmap string)); [done|].
    intros Hmem. apply list_elem_of_fmap in Hmem as ([u1 s] & Heq & Hmem).
    cbn in Heq. subst u1. apply Hin in Hmem as (r' & Hmem & Hs & Hne).
    apply elem_of_map_to_list in Hmem.
    assert (r' = r) as -> by congruence.
    apply is_not_None_spec in Hne. rewrite Hs in Hst. congruence.
Qed.
End provenance.

(** C5. The start document that [emit_start] emits carries, under
    [parent_uids], the current [start_uid] of exactly the boundary nodes
    whose [start_uid] is set at that time, once for each of them, and under
    [parent_node_map] a dictionary that sends the [uid] of each of those
    nodes to its [start_uid] and has no entry for the others. The boundary
    nodes are keyed by their identity, as the constructor leaves them. *)
Theorem C5_start_provenance {G : Type} `{!CreateDocs G}
    (h : heap G) (self : ToES.t G) (x : value) :
  (∀ k r, ToES.translation_nodes self !! k = Some r →
          ∃ u, get_uid (h !!! r) = Some u ∧ k = IdUid u) →
  ∃ self' before body after uids pnm,
    run (SimpleToEventStream.emit_start h x) self
    = (self', before ++ Emit (document "start" body) :: after, Ok tt)
    ∧ ("start" ∉ emitted_names before)
    ∧ emitted_names after = []
    ∧ body !! "parent_uids" = Some (VList uids)
    ∧ body !! "parent_node_map" = Some (VDict pnm)
    ∧ (∀ u, u ∈ uids
            ↔ ∃ k r, ToES.translation_nodes self !! k = Some r
                     ∧ get_start_uid (h !!! r) = u ∧ u ≠ VNone)
    ∧ length uids
      = length (List.filter (λ kr : ident * ref,
                               is_not_None (get_start_uid (h !!! kr.2)))
                            (map_to_list (ToES.translation_nodes self)))
    ∧ (∀ k r u,
         ToES.translation_nodes self !! k = Some r →
         get_uid (h !!! r) = Some u →
         pnm !! u = if is_not_None (get_start_uid (h !!! r))
                    then Some (get_start_uid (h !!! r)) else None).
Proof.
  intros Hkeys.
  assert (∀ self0 : ToES.t G,
            ToES.translation_nodes self0 = ToES.translation_nodes self →
            let body := SimpleToEventStream.start_body h self0 x in
            ∃ uids pnm,
              body !! "parent_uids" = Some (VList uids)
              ∧ body !! "parent_node_map" = Some (VDict pnm)
              ∧ (∀ u, u ∈ uids
                      ↔ ∃ k r, ToES.translation_nodes self !! k = Some r
                               ∧ get_start_uid (h !!! r) = u ∧ u ≠ VNone)
              ∧ length uids
                = length (List.filter (λ kr : ident * ref,
                                         is_not_None (get_start_uid (h !!! kr.2)))
                                      (map_to_list (ToES.translation_nodes self)))
              ∧ (∀ k r u,
                   ToES.translation_nodes self !! k = Some r →
                   get_uid (h !!! r) = Some u →
                   pnm !! u = if is_not_None (get_start_uid (h !!! r))
                              then Some (get_start_uid (h !!! r)) else None))
    as Hbody.
  { intros self0 Htn body. unfold body, SimpleToEventStream.start_body.
    set (self1 := ToES.set_docs _ self0).
    assert (ToES.translation_nodes self1 = ToES.translation_nodes self) as Htn1
      by exact Htn.
    exists (SimpleToEventStream.parent_uids h self1),
           (SimpleToEventStream.parent_node_map h self1).
    split; [by rewrite lookup_insert_ne, lookup_insert_eq|].
    split; [by rewrite lookup_insert_eq|].
    split; [|split].
    - intros u. rewrite elem_of_parent_uids. by rewrite Htn1.
    - rewrite length_parent_uids. by rewrite Htn1.
    - intros k r u Hkr Hu. apply (parent_node_map_lookup h self1 k r u).
      + rewrite Htn1. exact Hkeys.
      + by rewrite Htn1.
      + exact Hu. }
  destruct (decide (ToES.state self = "stopped")) as [Hst|Hst].
  - destruct (Hbody self eq_refl) as (uids & pnm & Hb).
    eexists _, [], _, _, uids, pnm.
    split; [unfold run; by rewrite emit_start_stopped|].
    split; [by intros ?%elem_of_nil|].
    split; [apply emitted_names_start_calls|exact Hb].
  - destruct (Hbody (SimpleToEventStream.after_stop self x) eq_refl)
      as (uids & pnm & Hb).
    eexists _, (_ :: _), _, _, uids, pnm.
    split; [unfold run; rewrite emit_start_repairs by done; cbn [app]; done|].
    split.
    { rewrite emitted_names_emit, emitted_names_stop_calls.
      intros Hin. apply list_elem_of_singleton in Hin. discriminate. }
    split; [apply emitted_names_start_calls|exact Hb].
Qed.

Lemma C5_start_provenance_witness :
  ∃ self' before body after uids pnm,
    run (SimpleToEventStream.emit_start Samples.boundary_objects (VInt 0))
        Samples.two_parents
    = (self', before ++ Emit (document "start" body) :: after, Ok tt)
    ∧ ("start" ∉ emitted_names before)
    ∧ emitted_names after = []
    ∧ body !! "parent_uids" = Some (VList uids)
    ∧ body !! "parent_node_map" = Some (VDict pnm)
    ∧ (∀ u, u ∈ uids
            ↔ ∃ k r, ToES.translation_nodes Samples.two_parents !! k = Some r
                     ∧ get_start_uid (Samples.boundary_objects !!! r) = u
                     ∧ u ≠ VNone)
    ∧ length uids
      = length (List.filter
                  (λ kr : ident * ref,
                     is_not_None (get_start_uid (Samples.boundary_objects !!! kr.2)))
                  (map_to_list (ToES.translation_nodes Samples.two_parents)))
    ∧ (∀ k r u,
         ToES.translation_nodes Samples.two_parents !! k = Some r →
         get_uid (Samples.boundary_objects !!! r) = Some u →
         pnm !! u
         = if is_not_None (get_start_uid (Samples.boundary_objects !!! r))
           then Some (get_start_uid (Samples.boundary_objects !!! r)) else None).
Proof.
  apply (C5_start_provenance Samples.boundary_objects Samples.two_parents (VInt 0)).
  intros k r Hkr. cbn [Samples.two_parents ToES.translation_nodes] in Hkr.
  apply lookup_insert_Some in Hkr as [[<- <-]|[_ Hkr]].
  - exists "a". split; [vm_compute|]; reflexivity.
  - apply lookup_singleton_Some in Hkr as [<- <-].
    exists "b". split; [vm_compute|]; reflexivity.
Defined.

(** The sample of two boundary nodes: only the started one is a parent. *)
Example two_parents_start_document :
  (run (SimpleToEventStream.emit_start Samples.boundary_objects (VInt 0))
       Samples.two_parents).1.2
  = [Emit (document "start"
             {[ "uid" := VInt 1;
                "parent_uids" := VList [VStr "s1"];
                "parent_node_map" := VDict {[ "a" := VStr "s1" ]} ]})].
Proof. vm_compute. reflexivity. Qed.

(** ** The alignment node *)

Lemma merge_value_dict da db :
  merge_value (VDict da) (VDict db) = VDict (deep_merge da db).
Proof. done. Qed.

(** The override law of the merge, key by key. *)
Lemma deep_merge_lookup da db k :
  deep_merge da db !! k
  = match da !! k, db !! k with
    | Some (VDict x), Some (VDict y) => Some (VDict (deep_merge x y))
    | _, Some v => Some v
    | Some v, None => Some v
    | None, None => None
    end.
Proof.
  unfold deep_merge at 1. rewrite lookup_merge.
  destruct (da !! k) as [a|], (db !! k) as [b|]; cbn; try done.
  - destruct a, b; done.
  - by destruct a.
Qed.

Lemma ChainDB_dicts (docs : list dict) (acc : dict) :
  fold_left merge_value (map VDict docs) (VDict acc)
  = VDict (fold_left deep_merge docs acc).
Proof.
  revert acc. induction docs as [|d docs IH]; intros acc; [done|].
  cbn [map fold_left]. rewrite merge_value_dict. apply IH.
Qed.

Lemma every_other_pairs {A B} (f g : A → B) (l : list A) :
  every_other (concat (map (λ a, [f a; g a]) l)) = map f l.
Proof. induction l as [|a l IH]; [done|]. cbn. by rewrite IH. Qed.

Lemma every_other_shifted {A B} (f g : A → B) (l : list A) b :
  every_other (b :: concat (map (λ a, [f a; g a]) l)) = b :: map g l.
Proof.
  revert b. induction l as [|a l IH]; intros b; [done|].
  cbn [map concat app].
  change (b :: every_other (g a :: concat (map (λ a, [f a; g a]) l))
          = b :: g a :: map g l).
  by rewrite IH.
Qed.

(** C6. The alignment node emits one document for the elements
    [(name_i, doc_i)] it has popped, in the order of the upstreams: its type
    is the name of the first element, and its body is the left-to-right deep
    merge of all the bodies, in which a later body overrides an earlier one
    on a key collision. For the bodies [{x:1, y:2}] and [{y:3, z:4}] the
    combined body is [{x:1, y:3, z:4}]. *)
Theorem C6_emit_merges_left_to_right {S : Type} (s : S)
    (name : string) (doc : dict) (popped : list (string * dict)) :
  run (AlignEventStreams._emit
         (map (λ nd : string * dict, [VStr nd.1; VDict nd.2])
              ((name, doc) :: popped))) s
  = (s, [Emit (document name (merge_all (doc :: popped.*2)))], Ok tt)
  ∧ (∀ da db k,
       deep_merge da db !! k
       = match da !! k, db !! k with
         | Some (VDict x), Some (VDict y) => Some (VDict (deep_merge x y))
         | _, Some v => Some v
         | Some v, None => Some v
         | None, None => None
         end)
  ∧ merge_all [Samples.body_a; Samples.body_b]
    = {[ "x" := VInt 1; "y" := VInt 3; "z" := VInt 4 ]}.
Proof.
  split; [|split; [exact deep_merge_lookup|by vm_compute]].
  unfold run, AlignEventStreams._emit.
  rewrite (every_other_pairs (λ nd : string * dict, VStr nd.1)
             (λ nd : string * dict, VDict nd.2)).
  cbn [map concat app tail fst snd].
  rewrite (every_other_shifted (λ nd : string * dict, VStr nd.1)
             (λ nd : string * dict, VDict nd.2)).
  unfold tell, ChainDB, document, merge_all. cbn [app map snd].
  replace (VDict doc :: map (λ nd : string * dict, VDict nd.2) popped)
    with (map VDict (doc :: popped.*2)).
  2:{ cbn [map]. f_equal. induction popped as [|? ? IH]; [done|].
      cbn. by rewrite IH. }
  by rewrite ChainDB_dicts.
Qed.

(** The override law on the sample of two upstreams. *)
Example align_two_sources :
  run (AlignEventStreams._emit
         [[VStr "event"; VDict Samples.body_a];
          [VStr "event"; VDict Samples.body_b]]) tt
  = (tt,
     [Emit (document "event" {[ "x" := VInt 1; "y" := VInt 3; "z" := VInt 4 ]})],
     Ok tt).
Proof. by vm_compute. Qed.

(** ** The graph walk *)

Lemma fold_option_impl {A B} (f1 f2 : B → A → option B) (l : list A) b b' :
  (∀ b a b', a ∈ l → f1 b a = Some b' → f2 b a = Some b') →
  fold_option f1 l b = Some b' → fold_option f2 l b = Some b'.
Proof.
  revert b. induction l as [|a l IH]; intros b Himpl; [done|].
  cbn [fold_option]. destruct (f1 b a) as [b1|] eqn:Hf1; [|done].
  rewrite (Himpl b a b1) by (done || by left).
  apply IH. intros b0 a0 b0' Hin. apply Himpl. by right.
Qed.

(** A loop whose steps all succeed and keep an invariant succeeds. *)
Lemma fold_option_invariant {A B} (I : B → Prop) (f : B → A → option B)
    (l : list A) b :
  (∀ b a, a ∈ l → I b → ∃ b', f b a = Some b' ∧ I b') →
  I b → ∃ b', fold_option f l b = Some b' ∧ I b'.
Proof.
  revert b. induction l as [|a l IH]; intros b Hstep Hb; [by exists b|].
  cbn [fold_option]. destruct (Hstep b a) as (b1 & -> & Hb1); [by left|done|].
  apply IH; [|done]. intros b0 a0 Hin. apply Hstep. by right.
Qed.

Section walk_facts.
Context {G : Type} (h : heap G).
Implicit Types (prior : ref) (graph : DiGraph).

Lemma walk_unfold fuel node graph prior_node :
  walk h (S fuel) (Some node) graph prior_node
  = let n := h !!! node in
    let t := _hash_or_uid n in
    let graph := nx.add_node t node graph in
    let ascend graph :=
      fold_option
        (λ graph node2,
           match node2 with
           | None => Some graph
           | Some _ => walk h fuel node2 graph (Some node)
           end)
        (upstreams n) graph in
    match prior_node with
    | Some prior_node =>
        let tt := _hash_or_uid (h !!! prior_node) in
        if nx.has_edge t tt graph then Some graph
        else
          let graph := nx.add_edge t tt graph in
          if is_from n then Some graph
          else
            match find_downstream h graph (downstreams n) with
            | Some downstream =>
                let ttt := _hash_or_uid (h !!! downstream) in
                Some (nx.add_edge t ttt (nx.add_node ttt downstream graph))
            | None => ascend graph
            end
    | None => ascend graph
    end.
Proof. reflexivity. Qed.

Lemma identity_known (r : ref) : _hash_or_uid (h !!! r) ∈ identities h.
Proof.
  unfold identities. rewrite lookup_total_alt.
  destruct (h !! r) as [n|] eqn:Hr; cbn.
  - apply elem_of_union_r, elem_of_map_to_set. by exists r, n.
  - apply elem_of_union_l. set_solver.
Qed.

Lemma missing_edges_mono graph graph' :
  edges graph ⊆ edges graph' →
  size (missing_edges h graph') ≤ size (missing_edges h graph).
Proof. intros Hsub. apply subseteq_size. unfold missing_edges. set_solver. Qed.

Lemma missing_edges_add_edge u v graph :
  u ∈ identities h → v ∈ identities h → (u, v) ∉ edges graph →
  size (missing_edges h (nx.add_edge u v graph)) < size (missing_edges h graph).
Proof.
  intros Hu Hv Hnew. apply subset_size. unfold missing_edges. cbn.
  assert ((u, v) ∈ cprod (identities h) (identities h)) as Huv
    by (by apply elem_of_gset_cprod).
  apply strict_spec_alt. split; [set_solver|].
  intros Heq. assert ((u, v) ∈ cprod (identities h) (identities h) ∖ edges graph)
    as Hin by set_solver.
  rewrite <- Heq in Hin. set_solver.
Qed.

(** The walk only adds edges, and with a depth above the number of missing
    edges it returns. *)
Lemma walk_returns fuel node_opt graph prior :
  size (missing_edges h graph) < fuel →
  ∃ graph', walk h fuel node_opt graph (Some prior) = Some graph'
            ∧ edges graph ⊆ edges graph'.
Proof.
  revert node_opt graph prior.
  induction fuel as [|fuel IH]; intros node_opt graph prior Hfuel; [lia|].
  destruct node_opt as [node|]; [|by exists graph].
  rewrite walk_unfold. cbn zeta.
  set (t := _hash_or_uid (h !!! node)).
  set (tt := _hash_or_uid (h !!! prior)).
  set (g1 := nx.add_node t node graph).
  assert (edges g1 = edges graph) as Hg1 by done.
  destruct (nx.has_edge t tt g1) eqn:Hedge.
  { exists g1. by rewrite Hg1. }
  set (g2 := nx.add_edge t tt g1).
  assert (edges graph ⊆ edges g2) as Hg2 by (cbn; set_solver).
  assert (size (missing_edges h g2) < fuel) as Hless.
  { apply bool_decide_eq_false in Hedge.
    pose proof (missing_edges_add_edge t tt g1 (identity_known node)
                  (identity_known prior) Hedge) as Hlt.
    assert (size (missing_edges h g1) = size (missing_edges h graph)) as Heq
      by (unfold missing_edges; by rewrite Hg1).
    fold g2 in Hlt. lia. }
  destruct (is_from (h !!! node)); [by exists g2|].
  destruct (find_downstream h g2 _) as [d|].
  { eexists. split; [done|]. cbn. set_solver. }
  destruct (fold_option_invariant
              (λ g, edges g2 ⊆ edges g)
              (λ g node2, match node2 with
                          | None => Some g
                          | Some _ => walk h fuel node2 g (Some node)
                          end)
              (upstreams (h !!! node)) g2) as (g' & Hrun & Hsub); [|done|].
  - intros g node2 _ Hg. destruct node2 as [node2|]; [|by exists g].
    destruct (IH (Some node2) g node) as (g' & Hwalk & Hsub).
    { pose proof (missing_edges_mono g2 g Hg). lia. }
    exists g'. split; [done|]. set_solver.
  - exists g'. split; [done|]. set_solver.
Qed.

(** The first call, without a prior node, draws no edge of its own. *)
Lemma walk_root_returns fuel node_opt graph :
  S (size (missing_edges h graph)) < fuel →
  ∃ graph', walk h fuel node_opt graph None = Some graph'
            ∧ edges graph ⊆ edges graph'.
Proof.
  intros Hfuel. destruct fuel as [|fuel]; [lia|].
  destruct node_opt as [node|]; [|by exists graph].
  rewrite walk_unfold. cbn zeta.
  set (g1 := nx.add_node _ node graph).
  destruct (fold_option_invariant
              (λ g, edges graph ⊆ edges g)
              (λ g node2, match node2 with
                          | None => Some g
                          | Some _ => walk h fuel node2 g (Some node)
                          end)
              (upstreams (h !!! node)) g1) as (g' & Hrun & Hsub); [|done|].
  - intros g node2 _ Hg. destruct node2 as [node2|]; [|by exists g].
    destruct (walk_returns fuel (Some node2) g node) as (g' & Hwalk & Hsub).
    { pose proof (missing_edges_mono graph g Hg). lia. }
    exists g'. split; [done|]. set_solver.
  - by exists g'.
Qed.

(** A deeper bound does not change the result. *)
Lemma walk_fuel_mono fuel fuel' node_opt graph prior_node graph' :
  fuel ≤ fuel' →
  walk h fuel node_opt graph prior_node = Some graph' →
  walk h fuel' node_opt graph prior_node = Some graph'.
Proof.
  revert fuel' node_opt graph prior_node graph'.
  induction fuel as [|fuel IH];
    intros fuel' node_opt graph prior_node graph' Hle Hwalk; [done|].
  destruct fuel' as [|fuel']; [lia|].
  destruct node_opt as [node|]; [|done].
  rewrite walk_unfold in *. cbn zeta in *.
  assert (∀ g g',
    fold_option (λ g node2, match node2 with
                            | None => Some g
                            | Some _ => walk h fuel node2 g (Some node)
                            end) (upstreams (h !!! node)) g = Some g' →
    fold_option (λ g node2, match node2 with
                            | None => Some g
                            | Some _ => walk h fuel' node2 g (Some node)
                            end) (upstreams (h !!! node)) g = Some g')
    as Hascend.
  { intros g g'. apply fold_option_impl.
    intros g0 [node2|] g0' _; [|done]. apply IH. lia. }
  destruct prior_node as [prior|]; [|by apply Hascend].
  destruct (nx.has_edge _ _ _); [done|].
  destruct (is_from _); [done|].
  destruct (find_downstream _ _ _); [done|]. by apply Hascend.
Qed.

(** [walk_to_translation] returns a graph, whatever the object graph. *)
Lemma walk_to_translation_returns node_opt graph prior_node :
  ∃ graph',
    walk_to_translation h node_opt graph prior_node = Some graph'
    ∧ edges graph ⊆ edges graph'
    ∧ ∀ fuel, walk_depth h graph ≤ fuel →
              walk h fuel node_opt graph prior_node = Some graph'.
Proof.
  unfold walk_to_translation, walk_depth.
  assert (∃ graph',
    walk h (S (S (size (missing_edges h graph)))) node_opt graph prior_node
    = Some graph' ∧ edges graph ⊆ edges graph') as (graph' & Hwalk & Hsub).
  { destruct prior_node as [prior|].
    - apply walk_returns. lia.
    - apply walk_root_returns. lia. }
  exists graph'. split; [done|]. split; [done|].
  intros fuel Hfuel. by apply (walk_fuel_mono _ fuel) in Hwalk.
Qed.
End walk_facts.

(** The walk on a graph with a cycle. *)
Example walk_through_cycle :
  walk_to_translation Samples.cyclic_objects (Some 3) nx.empty None
  = Some {| nodes := {[ IdUid "to-3" := Some 3; IdHash 12 := Some 2;
                        IdHash 11 := Some 1; IdUid "from-0" := Some 0 ]};
            edges := {[ (IdHash 12, IdUid "to-3"); (IdHash 11, IdHash 12);
                        (IdUid "from-0", IdHash 11); (IdHash 12, IdHash 11) ]} |}.
Proof. vm_compute. reflexivity. Qed.

(** C8. [walk_to_translation] returns on every object graph, cyclic or not:
    a recursion depth above the number of edges that can still be drawn
    between the identities of the objects is never reached, and any larger
    bound gives the same graph. A call on an edge that is already in the
    dependency graph returns without recursing, and so does a call on an
    extraction node: both return with a depth bound of one, which no
    recursive call could meet. *)
Theorem C8_walk_terminates {G : Type} (h : heap G)
    (node : ref) (graph : DiGraph) (prior_node : option ref) :
  let t := _hash_or_uid (h !!! node) in
  (∃ graph',
     walk_to_translation h (Some node) graph prior_node = Some graph'
     ∧ ∀ fuel, walk_depth h graph ≤ fuel →
               walk h fuel (Some node) graph prior_node = Some graph')
  ∧ (∀ prior, prior_node = Some prior →
       nx.has_edge t (_hash_or_uid (h !!! prior)) graph = true →
       walk h 1 (Some node) graph prior_node = Some (nx.add_node t node graph))
  ∧ (∀ prior, prior_node = Some prior →
       nx.has_edge t (_hash_or_uid (h !!! prior)) graph = false →
       is_from (h !!! node) = true →
       walk h 1 (Some node) graph prior_node
       = Some (nx.add_edge t (_hash_or_uid (h !!! prior))
                 (nx.add_node t node graph))).
Proof.
  intros t. split; [|split].
  - destruct (walk_to_translation_returns h (Some node) graph prior_node)
      as (graph' & Hwalk & _ & Hfuel).
    by exists graph'.
  - intros prior -> Hedge. rewrite walk_unfold. cbn zeta. fold t.
    assert (nx.has_edge t (_hash_or_uid (h !!! prior)) (nx.add_node t node graph)
            = true) as -> by exact Hedge.
    done.
  - intros prior -> Hedge Hfrom. rewrite walk_unfold. cbn zeta. fold t.
    assert (nx.has_edge t (_hash_or_uid (h !!! prior)) (nx.add_node t node graph)
            = false) as -> by exact Hedge.
    by rewrite Hfrom.
Qed.

(** ** Construction of a reconstruction node *)

Lemma fold_option_preserves {A B} (I : B → Prop) (f : B → A → option B)
    (l : list A) b b' :
  (∀ b a b', a ∈ l → I b → f b a = Some b' → I b') →
  I b → fold_option f l b = Some b' → I b'.
Proof.
  revert b. induction l as [|a l IH]; intros b Hstep Hb Hrun.
  { cbn in Hrun. by injection Hrun as <-. }
  cbn [fold_option] in Hrun. destruct (f b a) as [b1|] eqn:Hf; [|done].
  apply (IH b1); [|by eapply (Hstep b a); [left|..]|done].
  intros b0 a0 b0' Hin. apply Hstep. by right.
Qed.

Lemma all_streams_add_node t r graph :
  all_streams graph → all_streams (nx.add_node t r graph).
Proof. intros Hall. apply map_Forall_insert_2; [by eexists|done]. Qed.

Lemma all_streams_add_edge u v graph :
  is_Some (nodes graph !! u) → is_Some (nodes graph !! v) →
  all_streams graph → all_streams (nx.add_edge u v graph).
Proof.
  intros [a Hu] [b Hv] Hall. unfold all_streams, nx.add_edge. cbn.
  by rewrite Hu, Hv.
Qed.

Lemma nodes_add_node t r graph k :
  is_Some (nodes graph !! k) → is_Some (nodes (nx.add_node t r graph) !! k).
Proof.
  intros Hk. cbn. destruct (decide (t = k)) as [->|Hne].
  - rewrite lookup_insert_eq. by eexists.
  - by rewrite lookup_insert_ne.
Qed.

Lemma nodes_add_edge u v graph k :
  is_Some (nodes graph !! k) → is_Some (nodes (nx.add_edge u v graph) !! k).
Proof.
  intros Hk. cbn.
  assert (∀ n (m : gmap ident (option ref)),
            is_Some (m !! k) →
            is_Some (match m !! n with Some _ => m | None => <[n:=None]> m end !! k))
    as Htouch.
  { intros n m Hm. destruct (m !! n) eqn:Hn; [done|].
    destruct (decide (n = k)) as [->|Hne].
    - rewrite lookup_insert_eq. by eexists.
    - by rewrite lookup_insert_ne. }
  by do 2 apply Htouch.
Qed.

Section walk_streams.
Context {G : Type} (h : heap G).

(** The walk keeps the attributes: when every node of the graph has its
    stream and the prior node is in the graph, the same holds afterwards. *)
Lemma walk_keeps_streams fuel node_opt graph prior_node graph' :
  all_streams graph →
  (∀ prior, prior_node = Some prior →
            is_Some (nodes graph !! _hash_or_uid (h !!! prior))) →
  walk h fuel node_opt graph prior_node = Some graph' →
  all_streams graph'
  ∧ ∀ k, is_Some (nodes graph !! k) → is_Some (nodes graph' !! k).
Proof.
  revert node_opt graph prior_node graph'.
  induction fuel as [|fuel IH];
    intros node_opt graph prior_node graph' Hall Hprior Hwalk; [done|].
  destruct node_opt as [node|]; [|by injection Hwalk as <-].
  rewrite walk_unfold in Hwalk. cbn zeta in Hwalk.
  set (t := _hash_or_uid (h !!! node)) in *.
  set (g1 := nx.add_node t node graph) in *.
  assert (all_streams g1) as Hall1 by by apply all_streams_add_node.
  assert (∀ k, is_Some (nodes graph !! k) → is_Some (nodes g1 !! k)) as Hin1
    by (intros k; apply nodes_add_node).
  assert (is_Some (nodes g1 !! t)) as Ht1
    by (unfold g1; cbn; rewrite lookup_insert_eq; by eexists).
  assert (∀ g g',
    all_streams g → (∀ k, is_Some (nodes g1 !! k) → is_Some (nodes g !! k)) →
    fold_option (λ g node2, match node2 with
                            | None => Some g
                            | Some _ => walk h fuel node2 g (Some node)
                            end) (upstreams (h !!! node)) g = Some g' →
    all_streams g' ∧ ∀ k, is_Some (nodes graph !! k) → is_Some (nodes g' !! k))
    as Hascend.
  { intros g g' Hg Hsub Hrun.
    apply (fold_option_preserves
             (λ g, all_streams g
                   ∧ ∀ k, is_Some (nodes g1 !! k) → is_Some (nodes g !! k)))
      in Hrun as [Hg' Hsub']; [by auto| |done].
    intros g0 node2 g0' _ [Hg0 Hsub0] Hstep.
    destruct node2 as [node2|]; [|by injection Hstep as <-].
    apply IH in Hstep as [Hg0' Hsub0']; [by auto|done|].
    intros prior [= <-]. by apply Hsub0. }
  destruct prior_node as [prior|]; [|by apply (Hascend g1)].
  set (tt := _hash_or_uid (h !!! prior)) in *.
  destruct (nx.has_edge t tt g1); [by injection Hwalk as <-|].
  set (g2 := nx.add_edge t tt g1) in *.
  assert (all_streams g2) as Hall2.
  { apply all_streams_add_edge; [done| |done]. by apply Hin1, Hprior. }
  assert (∀ k, is_Some (nodes g1 !! k) → is_Some (nodes g2 !! k)) as Hin2
    by (intros k; apply nodes_add_edge).
  destruct (is_from (h !!! node)); [injection Hwalk as <-; by auto|].
  destruct (find_downstream h g2 _) as [d|]; [|by apply (Hascend g2)].
  injection Hwalk as <-. split.
  - apply all_streams_add_edge.
    + apply nodes_add_node. by apply Hin2.
    + cbn. rewrite lookup_insert_eq. by eexists.
    + by apply all_streams_add_node.
  - intros k Hk. by apply nodes_add_edge, nodes_add_node, Hin2, Hin1.
Qed.
End walk_streams.

Section walk_keys.
Context {G : Type} (h : heap G).

(** What [add_node] on the identity of a stream and [add_edge] keep, the
    walk keeps. *)
Lemma walk_preserves (I : DiGraph → Prop) fuel node_opt graph prior_node graph' :
  (∀ r g, I g → I (nx.add_node (_hash_or_uid (h !!! r)) r g)) →
  (∀ u v g, I g → I (nx.add_edge u v g)) →
  I graph → walk h fuel node_opt graph prior_node = Some graph' → I graph'.
Proof.
  intros Hnode Hedge. revert node_opt graph prior_node graph'.
  induction fuel as [|fuel IH];
    intros node_opt graph prior_node graph' Hgraph Hwalk; [done|].
  destruct node_opt as [node|]; [|by injection Hwalk as <-].
  rewrite walk_unfold in Hwalk. cbn zeta in Hwalk.
  assert (∀ g g', I g →
    fold_option (λ g node2, match node2 with
                            | None => Some g
                            | Some _ => walk h fuel node2 g (Some node)
                            end) (upstreams (h !!! node)) g = Some g' → I g')
    as Hascend.
  { intros g g' Hg Hrun. apply (fold_option_preserves I) in Hrun; [done| |done].
    intros g0 [node2|] g0' _ Hg0 Hstep; [|by injection Hstep as <-].
    by eapply IH. }
  destruct prior_node as [prior|]; [|by eapply Hascend; [apply Hnode|]].
  destruct (nx.has_edge _ _ _); [injection Hwalk as <-; by apply Hnode|].
  destruct (is_from _); [injection Hwalk as <-; by apply Hedge, Hnode|].
  destruct (find_downstream _ _ _) as [d|].
  - injection Hwalk as <-. by apply Hedge, Hnode, Hedge, Hnode.
  - eapply Hascend; [|done]. by apply Hedge, Hnode.
Qed.

Lemma walk_keys_identities fuel node_opt graph prior_node graph' :
  keyed_by_identity h graph →
  walk h fuel node_opt graph prior_node = Some graph' →
  keyed_by_identity h graph'.
Proof.
  apply walk_preserves.
  - intros r g Hg k r' Hk. cbn in Hk.
    destruct (decide (_hash_or_uid (h !!! r) = k)) as [<-|Hne].
    + rewrite lookup_insert_eq in Hk. by injection Hk as <-.
    + rewrite lookup_insert_ne in Hk by done. by apply Hg.
  - intros u v g Hg k r Hk. apply Hg. cbn in Hk.
    assert (∀ n (m : gmap ident (option ref)),
              match m !! n with Some _ => m | None => <[n:=None]> m end !! k
              = Some (Some r) → m !! k = Some (Some r)) as Htouch.
    { intros n m. destruct (m !! n) eqn:Hn; [done|].
      destruct (decide (n = k)) as [->|Hne].
      - by rewrite lookup_insert_eq.
      - by rewrite lookup_insert_ne. }
    by do 2 apply Htouch in Hk.
Qed.
End walk_keys.

Section construction_facts.
Import SimpleToEventStream.
Context {G : Type}.
Implicit Types (h : heap G) (graph : DiGraph) (self : ref).

Lemma translation_in_heap h r :
  is_translation (h !!! r) = true → h !! r = Some (h !!! r).
Proof.
  rewrite lookup_total_alt. by destruct (h !! r).
Qed.

Lemma select_translation_nodes_ok self h graph :
  all_streams graph →
  ∃ tn, select_translation_nodes self h graph = Ok tn
        ∧ ∀ k r, tn !! k = Some r
                 ↔ nodes graph !! k = Some (Some r)
                   ∧ is_translation (h !!! r) = true ∧ r ≠ self.
Proof.
  intros Hall. unfold select_translation_nodes.
  rewrite bool_decide_eq_true_2 by exact Hall.
  eexists. split; [done|]. intros k r. rewrite lookup_omap_Some. split.
  - intros ([r'|] & Hsel & Hk); [|done].
    destruct (is_translation (h !!! r')) eqn:Htr; [|done].
    case_bool_decide as Hself; [done|]. cbn in Hsel. by injection Hsel as ->.
  - intros (Hk & Htr & Hself). exists (Some r). split; [|done].
    rewrite Htr. by rewrite bool_decide_eq_false_2.
Qed.

Lemma elem_of_select_principle_nodes h (tn : gmap ident ref) r :
  r ∈ select_principle_nodes h tn
  ↔ (∃ k, tn !! k = Some r)
    ∧ (get_principle (h !!! r) || is_to (h !!! r)) = true.
Proof.
  unfold select_principle_nodes.
  rewrite elem_of_List_filter, list_elem_of_fmap. split.
  - intros [([k r'] & -> & Hin) Hp]. split; [|done].
    exists k. by apply elem_of_map_to_list.
  - intros [[k Hk] Hp]. split; [|done].
    exists (k, r). split; [done|]. by apply elem_of_map_to_list.
Qed.

Lemma append_sub_registers s r h :
  is_translation (h !!! r) = true → registered s r (alter (append_sub s) r h).
Proof.
  intros Htr. pose proof (translation_in_heap h r Htr) as Hr.
  exists (append_sub s (h !!! r)). rewrite lookup_alter_eq, Hr.
  split; [done|]. unfold is_translation, is_from, is_to, get_subs, append_sub in *.
  cbn. destruct (inst (h !!! r)); [done|..]; (split; [done|]); cbn;
    apply elem_of_app; right; by left.
Qed.

Lemma append_sub_keeps_registered s r p h :
  registered s r h → registered s r (alter (append_sub s) p h).
Proof.
  intros (n & Hr & Htr & Hs). destruct (decide (p = r)) as [->|Hne].
  - exists (append_sub s n). rewrite lookup_alter_eq, Hr. split; [done|].
    unfold is_translation, is_from, is_to, get_subs, append_sub in *. cbn.
    destruct (inst n); [done|..]; (split; [done|]); cbn;
      apply elem_of_app; by left.
  - exists n. by rewrite lookup_alter_ne.
Qed.

Lemma append_sub_keeps_translation s r p h :
  is_translation (h !!! r) = true →
  is_translation (alter (append_sub s) p h !!! r) = true.
Proof.
  intros Htr. pose proof (translation_in_heap h r Htr) as Hr.
  rewrite lookup_total_alter. case_decide as Hp; [|done]. subst p.
  rewrite Hr. cbn. unfold is_translation, is_from, is_to, append_sub in *.
  cbn. by destruct (inst (h !!! r)).
Qed.

Lemma register_all s (pn : list ref) h r :
  r ∈ pn → is_translation (h !!! r) = true →
  registered s r (fold_left (λ h p, alter (append_sub s) p h) pn h).
Proof.
  assert (∀ pn h, registered s r h →
            registered s r (fold_left (λ h p, alter (append_sub s) p h) pn h))
    as Hkeep.
  { clear. intros pn. induction pn as [|p pn IH]; intros h Hreg; [done|].
    cbn [fold_left]. by apply IH, append_sub_keeps_registered. }
  revert h. induction pn as [|p pn IH]; intros h Hin Htr.
  { by apply elem_of_nil in Hin. }
  cbn [fold_left]. apply elem_of_cons in Hin as [->|Hin].
  - by apply Hkeep, append_sub_registers.
  - apply IH; [done|]. by apply append_sub_keeps_translation.
Qed.
End construction_facts.

Lemma fold_alter_lookup {A} (f : A → A) (l : list ref) (m : gmap ref A) r :
  NoDup l →
  fold_left (λ m p, alter f p m) l m !! r
  = if decide (r ∈ l) then f <$> m !! r else m !! r.
Proof.
  revert m. induction l as [|p l IH]; intros m Hnd; [done|].
  apply NoDup_cons in Hnd as [Hp Hnd]. cbn [fold_left]. rewrite IH by done.
  destruct (decide (r = p)) as [->|Hne].
  - rewrite decide_False by done. rewrite decide_True by (by left).
    apply lookup_alter_eq.
  - rewrite lookup_alter_ne by done.
    destruct (decide (r ∈ l)) as [Hin|Hin].
    + by rewrite decide_True by (by right).
    + rewrite decide_False; [done|]. by intros [?|?]%elem_of_cons.
Qed.

Section construction_exact.
Import SimpleToEventStream.
Context {G : Type}.
Implicit Types (h : heap G) (graph : DiGraph) (self : ref).

(** The boundary nodes are keyed by their [uid], so that no two of them
    share it. *)
Lemma boundary_nodes_keyed self h graph tn :
  walk_to_translation h (Some self) nx.empty None = Some graph →
  select_translation_nodes self h graph = Ok tn →
  ∀ k r, tn !! k = Some r → ∃ u, get_uid (h !!! r) = Some u ∧ k = IdUid u.
Proof.
  intros Hwalk Hsel k r Hk.
  assert (keyed_by_identity h graph) as Hkeyed.
  { eapply walk_keys_identities; [|exact Hwalk]. intros k' r' Hk'. done. }
  assert (all_streams graph) as Hall.
  { eapply walk_keeps_streams; [| |exact Hwalk]; [|done].
    unfold all_streams. cbn. apply map_Forall_empty. }
  destruct (select_translation_nodes_ok self h graph Hall) as (tn' & Hsel' & Htn).
  assert (tn' = tn) as -> by congruence.
  apply Htn in Hk as (Hk & Htr & _). apply Hkeyed in Hk. subst k.
  unfold is_translation, is_from, is_to, get_uid, _hash_or_uid in *.
  destruct (inst (h !!! r)); [done|by eexists..].
Qed.

Lemma principle_nodes_NoDup self h graph tn :
  walk_to_translation h (Some self) nx.empty None = Some graph →
  select_translation_nodes self h graph = Ok tn →
  NoDup (select_principle_nodes h tn).
Proof.
  intros Hwalk Hsel. unfold select_principle_nodes.
  apply NoDup_ListNoDup, List.NoDup_filter, NoDup_ListNoDup.
  apply NoDup_fmap_2_strong; [|apply NoDup_map_to_list].
  intros [k1 r1] [k2 r2] Hin1 Hin2 Heq. cbn in Heq. subst r2.
  apply elem_of_map_to_list in Hin1, Hin2.
  destruct (boundary_nodes_keyed self h graph tn Hwalk Hsel k1 r1 Hin1)
    as (u1 & Hu1 & ->).
  destruct (boundary_nodes_keyed self h graph tn Hwalk Hsel k2 r1 Hin2)
    as (u2 & Hu2 & ->).
  congruence.
Qed.

(** What the constructor leaves in the object graph: the new node has its
    graph attributes, each principal node has the new node appended once to
    its dependents, and every other object is as it was. *)
Lemma construction_result self h h' graph tn :
  walk_to_translation h (Some self) nx.empty None = Some graph →
  select_translation_nodes self h graph = Ok tn →
  init self h = Some (Ok h') →
  let pn := select_principle_nodes h tn in
  h' !! self = set_attributes graph tn pn <$> h !! self
  ∧ ∀ r, r ≠ self →
         h' !! r = if decide (r ∈ pn) then append_sub self <$> h !! r
                   else h !! r.
Proof.
  intros Hwalk Hsel Hinit pn.
  pose proof (principle_nodes_NoDup self h graph tn Hwalk Hsel) as Hnd.
  assert (self ∉ pn) as Hself.
  { intros Hin. apply elem_of_select_principle_nodes in Hin as [[k Hk] _].
    assert (all_streams graph) as Hall.
    { eapply walk_keeps_streams; [| |exact Hwalk]; [|done].
      unfold all_streams. cbn. apply map_Forall_empty. }
    destruct (select_translation_nodes_ok self h graph Hall) as (tn' & Hsel' & Htn).
    assert (tn' = tn) as -> by congruence.
    by apply Htn in Hk as (_ & _ & Hne). }
  unfold init in Hinit. rewrite Hwalk, Hsel in Hinit. fold pn in Hinit.
  destruct pn as [|p pn'] eqn:Hpn; [done|]. rewrite <- Hpn in *.
  injection Hinit as <-. split.
  - rewrite fold_alter_lookup by done. rewrite decide_False by done.
    apply lookup_alter_eq.
  - intros r Hr. rewrite fold_alter_lookup by done.
    by rewrite lookup_alter_ne.
Qed.
End construction_exact.

(** The other methods raise no configuration error. *)
Lemma resolve_no_configuration_error address inner msg :
  SimpleFromEventStream.resolve address inner ≠ Failed (RuntimeError msg).
Proof.
  revert inner. induction address as [|[k|ks] address IH]; intros inner; [done|..].
  - cbn. destruct inner as [| | | | |d]; cbn; try done.
    + destruct (str_contains k s); done.
    + destruct (py_in (VStr k) items); done.
    + destruct (py_in (VStr k) items); done.
    + case_bool_decide as Hk; [|done]. destruct Hk as [v ->]. apply IH.
  - cbn. assert (SimpleFromEventStream.getitems inner ks
                 ≠ Raise (RuntimeError msg)) as Hget.
    { induction ks as [|k ks IHks]; [done|]. cbn.
      destruct inner as [| | | | |d]; cbn; try done.
      destruct (d !! k); [|done].
      by destruct (SimpleFromEventStream.getitems (VDict d) ks). }
    destruct (SimpleFromEventStream.getitems inner ks) as [vs|e].
    + apply IH.
    + congruence.
Qed.

Lemma update_no_configuration_error
    (self : SimpleFromEventStream.t) (x : string * dict) msg :
  (run (SimpleFromEventStream.update x) self).2 ≠ Raise (RuntimeError msg).
Proof.
  destruct x as [name doc]. rewrite update_run.
  destruct (_ && _); [done|]. cbn zeta.
  destruct (SimpleFromEventStream.selects self name doc) as [[]|e] eqn:Hsel;
    [|done|].
  - pose proof (resolve_no_configuration_error
                  (SimpleFromEventStream.data_address self) (VDict doc) msg).
    destruct (SimpleFromEventStream.resolve _ _); [done|done|]. cbn. congruence.
  - cbn. unfold SimpleFromEventStream.selects, dict_getitem, py_getitem in Hsel.
    destruct (bool_decide (name = SimpleFromEventStream.doc_type self)); [|done].
    destruct (bool_decide (name = "descriptor") && py_eq _ _); [done|].
    destruct (bool_decide (name = "event")); [|done].
    destruct (doc !! "descriptor"); [done|]. by injection Hsel as <-.
Qed.

(** C7. The constructor of a reconstruction node walks the object graph,
    which gives a dependency graph, and takes as boundary nodes the nodes of
    that graph that are of a translation class and are not the new node.
    It raises the configuration error exactly when no boundary node is
    marked [principle] and none is a reconstruction node. Otherwise it
    returns, and the new node is among the dependents of every principal
    boundary node. No other method raises the configuration error. *)
Theorem C7_construction_needs_a_principal {G : Type} `{!CreateDocs G}
    (self : ref) (h : heap G) :
  ∃ graph tn,
    walk_to_translation h (Some self) nx.empty None = Some graph
    ∧ SimpleToEventStream.select_translation_nodes self h graph = Ok tn
    ∧ (∀ k r, tn !! k = Some r
              ↔ nodes graph !! k = Some (Some r)
                ∧ SimpleToEventStream.is_translation (h !!! r) = true
                ∧ r ≠ self)
    ∧ (SimpleToEventStream.init self h
       = Some (Raise (RuntimeError "No Principle Nodes Detected"))
       ↔ ∀ k r, tn !! k = Some r →
                get_principle (h !!! r) = false ∧ is_to (h !!! r) = false)
    ∧ ((∃ k r, tn !! k = Some r
               ∧ (get_principle (h !!! r) = true ∨ is_to (h !!! r) = true)) →
       ∃ h', SimpleToEventStream.init self h = Some (Ok h')
             ∧ ∀ k r, tn !! k = Some r →
                      get_principle (h !!! r) = true ∨ is_to (h !!! r) = true →
                      self ∈ get_subs (h' !!! r))
    ∧ (∀ (t : ToES.t G) cs,
         ∃ t' tr, run (SimpleToEventStream.do_calls cs) t = (t', tr, Ok tt))
    ∧ (∀ (f : SimpleFromEventStream.t) x msg,
         (run (SimpleFromEventStream.update x) f).2 ≠ Raise (RuntimeError msg)).
Proof.
  destruct (walk_to_translation_returns h (Some self) nx.empty None)
    as (graph & Hwalk & _ & _).
  assert (all_streams graph) as Hall.
  { unfold walk_to_translation in Hwalk.
    apply walk_keeps_streams in Hwalk as [Hall _]; [done| |done].
    unfold all_streams. cbn. apply map_Forall_empty. }
  destruct (select_translation_nodes_ok self h graph Hall) as (tn & Hsel & Htn).
  exists graph, tn. split; [done|]. split; [done|]. split; [done|].
  set (pn := SimpleToEventStream.select_principle_nodes h tn).
  assert (∀ r, r ∈ pn ↔ (∃ k, tn !! k = Some r)
                         ∧ (get_principle (h !!! r) || is_to (h !!! r)) = true)
    as Hpn by apply elem_of_select_principle_nodes.
  split; [|split; [|split]].
  - unfold SimpleToEventStream.init. rewrite Hwalk, Hsel. fold pn.
    destruct pn as [|p pn'] eqn:Hnil.
    + split; [|done]. intros _ k r Hk.
      destruct (get_principle (h !!! r) || is_to (h !!! r)) eqn:Hp.
      * exfalso. eapply elem_of_nil, Hpn. eauto.
      * by apply orb_false_elim in Hp.
    + split; [done|]. intros Hnone. exfalso.
      destruct (proj1 (Hpn p)) as [[k Hk] Hp]; [by left|].
      destruct (Hnone k p Hk) as [Hp1 Hp2]. by rewrite Hp1, Hp2 in Hp.
  - intros (k0 & r0 & Hk0 & Hp0).
    assert (r0 ∈ pn) as Hin0.
    { apply Hpn. split; [by exists k0|]. apply orb_true_iff.
      destruct Hp0 as [->| ->]; auto. }
    unfold SimpleToEventStream.init. rewrite Hwalk, Hsel. fold pn.
    destruct pn as [|p pn'] eqn:Hcons; [by apply elem_of_nil in Hin0|].
    rewrite <- Hcons in *. eexists. split; [done|].
    intros k r Hk Hp.
    assert (r ∈ pn) as Hin.
    { apply Hpn. split; [by exists k|]. apply orb_true_iff.
      destruct Hp as [->| ->]; auto. }
    apply Htn in Hk as (_ & Htr & Hself).
    destruct (register_all self pn
                (alter (SimpleToEventStream.set_attributes graph tn pn) self h)
                r Hin) as (n & Hn & _ & Hsub).
    { by rewrite lookup_total_alter_ne. }
    by rewrite (lookup_total_correct _ _ _ Hn).
  - intros t cs. destruct (advances_do_calls cs t) as (t' & out & Hrun & _).
    exists t', out. apply (Hrun []).
  - intros f x msg. apply update_no_configuration_error.
Qed.

(** The constructor on the graph with a cycle, with and without a principal
    node. *)
Example construction_registers :
  ∃ h', SimpleToEventStream.init 3 Samples.cyclic_objects = Some (Ok h')
        ∧ get_subs (h' !!! 0) = [3].
Proof. eexists. split; vm_compute; reflexivity. Qed.

Example construction_fails :
  SimpleToEventStream.init 3 Samples.unprincipled_objects
  = Some (Raise (RuntimeError "No Principle Nodes Detected")).
Proof. vm_compute. reflexivity. Qed.

(** * Further properties of the code *)

(** ** Equality of values *)

Lemma value_size_item (v : value) (l : list value) :
  v ∈ l → value_size v ≤ list_sum (map value_size l).
Proof.
  induction 1 as [v l|v w l _ IH]; simpl; lia.
Qed.

Lemma value_size_entry (d : dict) k v :
  d !! k = Some v →
  value_size v ≤ map_fold (λ _ w acc, value_size w + acc) 0 d.
Proof.
  revert k v.
  apply (map_fold_weak_ind
           (λ r (m : dict), ∀ k v, m !! k = Some v → value_size v ≤ r)).
  - intros k v Hk. by rewrite lookup_empty in Hk.
  - intros i x m r _ IH k v Hk.
    destruct (decide (i = k)) as [->|Hne].
    + rewrite lookup_insert_eq in Hk. injection Hk as ->. lia.
    + rewrite lookup_insert_ne in Hk by done. specialize (IH k v Hk). lia.
Qed.

(** [v == v] holds for every value. *)
Lemma py_eq_refl (v : value) : py_eq v v = true.
Proof.
  assert (∀ n v, value_size v < n → py_eq v v = true) as H;
    [|apply (H (S (value_size v))); lia].
  clear v. induction n as [|n IH]; intros v Hn; [lia|].
  assert (∀ l : list value,
            (∀ w, w ∈ l → py_eq w w = true) →
            (fix all2 (la lb : list value) : bool :=
               match la, lb with
               | [], [] => true
               | x :: la', y :: lb' => py_eq x y && all2 la' lb'
               | _, _ => false
               end) l l = true) as Hlist.
  { induction l as [|w l IHl]; intros Hl; [done|].
    rewrite (Hl w) by by left. cbn. apply IHl. intros w' Hw'. apply Hl. by right. }
  destruct v as [| | |l|l|d]; cbn;
    [done|by apply bool_decide_eq_true_2|by apply bool_decide_eq_true_2|..].
  - apply Hlist. intros w Hw. apply IH.
    pose proof (value_size_item w l Hw). cbn in Hn. lia.
  - apply Hlist. intros w Hw. apply IH.
    pose proof (value_size_item w l Hw). cbn in Hn. lia.
  - rewrite bool_decide_eq_true_2 by done. cbn.
    assert (∀ m : dict,
              m ⊆ d →
              map_fold (λ k v acc,
                          acc && match d !! k with
                                 | Some w => py_eq v w
                                 | None => false
                                 end) true m = true) as Hfold;
      [|by apply Hfold].
    apply (map_fold_weak_ind (λ r (m : dict), m ⊆ d → r = true)); [done|].
    intros i x m r Hi IHm Hsub.
    assert (d !! i = Some x) as Hdi.
    { eapply lookup_weaken; [|exact Hsub]. apply lookup_insert_eq. }
    rewrite Hdi, IHm.
    + cbn. apply IH. pose proof (value_size_entry d i x Hdi). cbn in Hn. lia.
    + etrans; [|exact Hsub]. by apply insert_subseteq.
Qed.

Lemma py_in_app_r v l : py_in v (l ++ [v]) = true.
Proof.
  unfold py_in. rewrite existsb_app. cbn. rewrite py_eq_refl.
  by rewrite orb_true_r.
Qed.

(** ** The extraction node: what [update] forwards *)

(** Decide the comparisons of two literal names in the goal. *)
Ltac compare_names :=
  repeat match goal with
    | |- context [bool_decide (?a = ?b)] =>
        first [ rewrite (bool_decide_eq_true_2 (a = b)) by reflexivity
              | rewrite (bool_decide_eq_false_2 (a = b)) by discriminate ]
    end.

Section extraction_more.
Import SimpleFromEventStream.

Lemma emit_not_notification (tr : list effect) v :
  Forall (λ e, is_notification e = true) tr → Emit v ∉ tr.
Proof.
  intros Hall Hin. eapply Forall_forall in Hall; [|exact Hin]. done.
Qed.

Lemma selects_other_type self name doc :
  name ≠ doc_type self → selects self name doc = Ok false.
Proof. intros Hne. unfold selects. by rewrite bool_decide_eq_false_2. Qed.

Lemma selects_event self doc d :
  doc_type self = "event" → doc !! "descriptor" = Some d →
  selects self "event" doc = Ok (py_in d (descriptor_uids self)).
Proof.
  intros Hty Hd. unfold selects, dict_getitem, py_getitem. rewrite Hty, Hd.
  cbn. by rewrite !orb_false_r.
Qed.

Lemma resolve_keys_is_lookup_path ks inner v :
  resolve (map AKey ks) inner = Resolved v ↔ lookup_path ks inner = Some v.
Proof.
  revert inner. induction ks as [|k ks IH]; intros inner; cbn [map].
  { cbn. split; congruence. }
  destruct inner as [| | |l|l|d]; cbn; try done.
  - by destruct (str_contains k s).
  - by destruct (py_in (VStr k) l).
  - by destruct (py_in (VStr k) l).
  - destruct (d !! k) as [w|] eqn:Hk.
    + rewrite bool_decide_eq_true_2 by by eexists. apply IH.
    + rewrite bool_decide_eq_false_2 by by intros [? ?]. done.
Qed.

End extraction_more.

(** A document of another type than [doc_type] is never forwarded. *)
Theorem update_ignores_other_types
    (self : SimpleFromEventStream.t) (name : string) (doc : dict) (v : value) :
  name ≠ SimpleFromEventStream.doc_type self →
  Emit v ∉ (run (SimpleFromEventStream.update (name, doc)) self).1.2.
Proof.
  intros Hne. rewrite update_run, selects_other_type by done.
  destruct (_ && _); cbn; [by apply not_elem_of_nil|].
  apply emit_not_notification, notifications_are_calls.
Qed.

Lemma update_ignores_other_types_witness :
  "stop" ≠ SimpleFromEventStream.doc_type Samples.start_node
  ∧ Emit (VStr "v")
    ∉ (run (SimpleFromEventStream.update ("stop", Samples.doc_v))
           Samples.start_node).1.2.
Proof.
  assert ("stop" ≠ SimpleFromEventStream.doc_type Samples.start_node) as Hne
    by (vm_compute; discriminate).
  split; [exact Hne|].
  exact (update_ignores_other_types Samples.start_node "stop" Samples.doc_v
           (VStr "v") Hne).
Defined.

(** [update] never changes how the node is configured nor who depends on
    it; the session identifier changes on a start only, and the active
    descriptors on a descriptor or a stop only, so that an event leaves the
    node as it was. *)
Theorem update_keeps_configuration
    (self : SimpleFromEventStream.t) (name : string) (doc : dict) :
  let self' := (run (SimpleFromEventStream.update (name, doc)) self).1.1 in
  SimpleFromEventStream.principle self' = SimpleFromEventStream.principle self
  ∧ SimpleFromEventStream.doc_type self' = SimpleFromEventStream.doc_type self
  ∧ SimpleFromEventStream.data_address self'
    = SimpleFromEventStream.data_address self
  ∧ SimpleFromEventStream.event_stream_name self'
    = SimpleFromEventStream.event_stream_name self
  ∧ SimpleFromEventStream.uid self' = SimpleFromEventStream.uid self
  ∧ SimpleFromEventStream.subs self' = SimpleFromEventStream.subs self
  ∧ (name ≠ "start" →
     SimpleFromEventStream.start_uid self' = SimpleFromEventStream.start_uid self)
  ∧ (name ≠ "descriptor" → name ≠ "stop" →
     SimpleFromEventStream.descriptor_uids self'
     = SimpleFromEventStream.descriptor_uids self).
Proof.
  cbn zeta.
  assert ((run (SimpleFromEventStream.update (name, doc)) self).1.1 = self
          ∨ (run (SimpleFromEventStream.update (name, doc)) self).1.1
            = SimpleFromEventStream.tracked self name doc) as Hcases.
  { rewrite update_run. destruct (_ && _); [by left|]. right. cbn zeta.
    destruct (SimpleFromEventStream.selects self name doc) as [[]|e];
      [destruct (SimpleFromEventStream.resolve _ _)|..]; done. }
  destruct Hcases as [-> | ->]; [by repeat split|].
  unfold SimpleFromEventStream.tracked.
  repeat split; repeat case_bool_decide; cbn; try done;
    destruct (SimpleFromEventStream.tracks self doc); cbn; done.
Qed.

(** A start, or a descriptor that passes the filter, without a [uid] makes
    [update] raise [KeyError] before any dependent is notified, and leaves
    the node as it was. *)
Theorem update_needs_uid
    (self : SimpleFromEventStream.t) (name : string) (doc : dict) :
  name = "start"
  ∨ (name = "descriptor" ∧ SimpleFromEventStream.tracks self doc = true) →
  doc !! "uid" = None →
  run (SimpleFromEventStream.update (name, doc)) self
  = (self, [], Raise (KeyError "uid")).
Proof.
  intros Hname Hnone. rewrite update_run.
  assert (SimpleFromEventStream.needs_uid self name doc = true) as ->.
  { unfold SimpleFromEventStream.needs_uid.
    destruct Hname as [->|[-> ->]]; [done|]. by rewrite orb_true_r. }
  by rewrite bool_decide_eq_true_2.
Qed.

Lemma update_needs_uid_witness :
  run (SimpleFromEventStream.update ("start", ∅)) Samples.start_node
  = (Samples.start_node, [], Raise (KeyError "uid")).
Proof.
  apply (update_needs_uid Samples.start_node "start" ∅); [by left|done].
Defined.

(** A node for events raises [KeyError] on an event that does not name its
    descriptor. *)
Theorem event_needs_descriptor (self : SimpleFromEventStream.t) (doc : dict) :
  SimpleFromEventStream.doc_type self = "event" →
  doc !! "descriptor" = None →
  run (SimpleFromEventStream.update ("event", doc)) self
  = (self, [], Raise (KeyError "descriptor")).
Proof.
  intros Hty Hnone. rewrite update_run.
  unfold SimpleFromEventStream.needs_uid, SimpleFromEventStream.tracked,
    SimpleFromEventStream.notifications, SimpleFromEventStream.selects,
    dict_getitem, py_getitem.
  rewrite Hty, Hnone. compare_names. done.
Qed.

Lemma event_needs_descriptor_witness :
  run (SimpleFromEventStream.update ("event", Samples.doc_u)) Samples.image_node
  = (Samples.image_node, [], Raise (KeyError "descriptor")).
Proof.
  apply (event_needs_descriptor Samples.image_node Samples.doc_u);
    reflexivity.
Defined.

Lemma update_event_inactive
    (self : SimpleFromEventStream.t) (doc : dict) (d : value) :
  doc !! "descriptor" = Some d →
  py_in d (SimpleFromEventStream.descriptor_uids self) = false →
  run (SimpleFromEventStream.update ("event", doc)) self = (self, [], Ok tt).
Proof.
  intros Hd Hin. rewrite update_run.
  unfold SimpleFromEventStream.needs_uid, SimpleFromEventStream.tracked,
    SimpleFromEventStream.notifications, SimpleFromEventStream.selects,
    dict_getitem, py_getitem.
  compare_names. rewrite Hd, Hin. cbn. by destruct (bool_decide _).
Qed.

(** An event of a descriptor that is not active is dropped without an
    error. *)
Theorem event_of_inactive_descriptor_is_dropped
    (self : SimpleFromEventStream.t) (doc : dict) (d : value) :
  doc !! "descriptor" = Some d →
  py_in d (SimpleFromEventStream.descriptor_uids self) = false →
  run (SimpleFromEventStream.update ("event", doc)) self = (self, [], Ok tt).
Proof. apply update_event_inactive. Qed.

Lemma event_of_inactive_descriptor_is_dropped_witness :
  run (SimpleFromEventStream.update ("event", Samples.image_event))
      Samples.fresh_image_node
  = (Samples.fresh_image_node, [], Ok tt).
Proof.
  apply (event_of_inactive_descriptor_is_dropped
           Samples.fresh_image_node Samples.image_event (VStr "d1"));
    reflexivity.
Defined.

Section extraction_sessions.
Import SimpleFromEventStream.

(** [update] on a descriptor, for a node that forwards another type. *)
Lemma update_descriptor self doc :
  doc_type self ≠ "descriptor" →
  (tracks self doc = true → is_Some (doc !! "uid")) →
  run (update ("descriptor", doc)) self
  = (if tracks self doc
     then set_descriptor_uids
            (descriptor_uids self ++ [dict_get doc "uid" VNone]) self
     else self, [], Ok tt).
Proof.
  intros Hty Huid. rewrite update_run, selects_other_type by done.
  unfold needs_uid, tracked, notifications. compare_names. cbn.
  destruct (tracks self doc); [|done].
  destruct Huid as [u Hu]; [done|]. rewrite Hu. done.
Qed.

(** [update] on a stop, for a node that forwards another type. *)
Lemma update_stop self doc :
  doc_type self ≠ "stop" →
  run (update ("stop", doc)) self
  = (set_descriptor_uids [] self,
     map (λ s, CallEmitStop s (document "stop" doc)) (subs self), Ok tt).
Proof.
  intros Hty. rewrite update_run, selects_other_type by done.
  unfold needs_uid, tracked, notifications. compare_names. done.
Qed.

(** [update] on an event of an active descriptor. *)
Lemma update_event self doc d :
  doc_type self = "event" →
  doc !! "descriptor" = Some d → py_in d (descriptor_uids self) = true →
  run (update ("event", doc)) self
  = match resolve (data_address self) (VDict doc) with
    | Resolved inner => (self, [Emit inner], Ok tt)
    | Dropped => (self, [], Ok tt)
    | Failed e => (self, [], Raise e)
    end.
Proof.
  intros Hty Hd Hin. rewrite update_run, (selects_event self doc d), Hin by done.
  unfold needs_uid, tracked, notifications. compare_names. cbn.
  by destruct (resolve _ _).
Qed.
End extraction_sessions.

(** Once a descriptor has passed the filter, the events that name it are
    forwarded: the node emits the value at the address of each of them. *)
Theorem tracked_descriptor_opens_events
    (self : SimpleFromEventStream.t) (descriptor event : dict) (u v : value) :
  SimpleFromEventStream.doc_type self = "event" →
  SimpleFromEventStream.tracks self descriptor = true →
  descriptor !! "uid" = Some u →
  event !! "descriptor" = Some u →
  SimpleFromEventStream.resolve (SimpleFromEventStream.data_address self)
    (VDict event) = Resolved v →
  let self1 :=
    SimpleFromEventStream.set_descriptor_uids
      (SimpleFromEventStream.descriptor_uids self ++ [u]) self in
  run (SimpleFromEventStream.update ("descriptor", descriptor)) self
  = (self1, [], Ok tt)
  ∧ run (SimpleFromEventStream.update ("event", event)) self1
    = (self1, [Emit v], Ok tt).
Proof.
  intros Hty Htr Hu Hd Hres self1. split.
  - rewrite update_descriptor; [|by rewrite Hty|by eexists].
    rewrite Htr. unfold dict_get. by rewrite Hu.
  - rewrite (update_event self1 event u); [| |done|]; [|done|].
    + assert (SimpleFromEventStream.data_address self1
              = SimpleFromEventStream.data_address self) as -> by done.
      by rewrite Hres.
    + apply py_in_app_r.
Qed.

Lemma tracked_descriptor_opens_events_witness :
  let self1 :=
    SimpleFromEventStream.set_descriptor_uids [VStr "d1"]
      Samples.fresh_image_node in
  run (SimpleFromEventStream.update ("descriptor", Samples.descriptor_d1))
      Samples.fresh_image_node
  = (self1, [], Ok tt)
  ∧ run (SimpleFromEventStream.update ("event", Samples.image_event)) self1
    = (self1, [Emit (VInt 7)], Ok tt).
Proof.
  apply (tracked_descriptor_opens_events Samples.fresh_image_node
           Samples.descriptor_d1 Samples.image_event (VStr "d1") (VInt 7));
    reflexivity.
Defined.

(** A stop closes every descriptor: whatever was active before, an event
    that arrives after the stop is dropped. *)
Theorem stop_closes_descriptors
    (self : SimpleFromEventStream.t) (stop event : dict) (d : value) :
  event !! "descriptor" = Some d →
  let self1 := (run (SimpleFromEventStream.update ("stop", stop)) self).1.1 in
  SimpleFromEventStream.descriptor_uids self1 = []
  ∧ run (SimpleFromEventStream.update ("event", event)) self1
    = (self1, [], Ok tt).
Proof.
  intros Hd self1.
  assert (self1 = SimpleFromEventStream.set_descriptor_uids [] self) as ->.
  { unfold self1. rewrite update_run.
    unfold SimpleFromEventStream.needs_uid, SimpleFromEventStream.tracked.
    compare_names. cbn.
    destruct (SimpleFromEventStream.selects self "stop" stop) as [[]|e];
      [destruct (SimpleFromEventStream.resolve _ _)|..]; done. }
  split; [done|]. by apply (update_event_inactive _ event d).
Qed.

Lemma stop_closes_descriptors_witness :
  let self1 :=
    (run (SimpleFromEventStream.update ("stop", Samples.doc_v))
         Samples.image_node).1.1 in
  SimpleFromEventStream.descriptor_uids self1 = []
  ∧ run (SimpleFromEventStream.update ("event", Samples.image_event)) self1
    = (self1, [], Ok tt).
Proof.
  apply (stop_closes_descriptors Samples.image_node Samples.doc_v
           Samples.image_event (VStr "d1")).
  reflexivity.
Defined.

(** A node that follows one named stream does not track the descriptor of
    another stream, and drops the events of that descriptor. *)
Theorem foreign_stream_is_not_tracked
    (self : SimpleFromEventStream.t) (descriptor event : dict)
    (n : string) (u : value) :
  SimpleFromEventStream.event_stream_name self ≠ ALL →
  descriptor !! "name" = Some (VStr n) →
  n ≠ SimpleFromEventStream.event_stream_name self →
  event !! "descriptor" = Some u →
  py_in u (SimpleFromEventStream.descriptor_uids self) = false →
  run (SimpleFromEventStream.update ("descriptor", descriptor)) self
  = (self, [], Ok tt)
  ∧ run (SimpleFromEventStream.update ("event", event)) self
    = (self, [], Ok tt).
Proof.
  intros Hall Hname Hn Hd Hin. split; [|by apply (update_event_inactive _ _ u)].
  rewrite update_run.
  assert (SimpleFromEventStream.tracks self descriptor = false) as Htr.
  { unfold SimpleFromEventStream.tracks, dict_get. rewrite Hname. cbn.
    by rewrite !bool_decide_eq_false_2. }
  unfold SimpleFromEventStream.needs_uid, SimpleFromEventStream.tracked,
    SimpleFromEventStream.notifications, SimpleFromEventStream.selects, dict_get.
  rewrite Htr, Hname. compare_names. cbn.
  rewrite (bool_decide_eq_false_2
             (SimpleFromEventStream.event_stream_name self = n)) by done.
  by destruct (bool_decide _).
Qed.

Lemma foreign_stream_is_not_tracked_witness :
  run (SimpleFromEventStream.update ("descriptor", Samples.baseline_descriptor))
      Samples.primary_node
  = (Samples.primary_node, [], Ok tt)
  ∧ run (SimpleFromEventStream.update ("event", Samples.image_event))
        Samples.primary_node
    = (Samples.primary_node, [], Ok tt).
Proof.
  apply (foreign_stream_is_not_tracked Samples.primary_node
           Samples.baseline_descriptor Samples.image_event "baseline"
           (VStr "d1")); try reflexivity.
  - vm_compute. discriminate.
  - vm_compute. discriminate.
Defined.



(** An address that runs below a number or [None] is no silent drop: the
    membership test itself raises [TypeError] out of [update]. *)
Theorem update_raises_below_a_leaf
    (self : SimpleFromEventStream.t) (name : string) (doc : dict)
    (before : list string) (k : string) (rest : list address_item)
    (leaf : value) :
  SimpleFromEventStream.data_address self = map AKey before ++ AKey k :: rest →
  SimpleFromEventStream.selects self name doc = Ok true →
  (SimpleFromEventStream.needs_uid self name doc = true → is_Some (doc !! "uid")) →
  lookup_path before (VDict doc) = Some leaf →
  leaf = VNone ∨ (∃ z, leaf = VInt z) →
  run (SimpleFromEventStream.update (name, doc)) self
  = (SimpleFromEventStream.tracked self name doc,
     SimpleFromEventStream.notifications self name doc, Raise TypeError).
Proof.
  intros Haddr Hsel Huid Hpath Hleaf.
  apply resolve_keys_is_lookup_path in Hpath.
  rewrite update_run, Hsel, Haddr, resolve_app, Hpath.
  assert (SimpleFromEventStream.needs_uid self name doc
          && bool_decide (doc !! "uid" = None) = false) as ->.
  { destruct (SimpleFromEventStream.needs_uid self name doc); [|done].
    destruct Huid as [u Hu]; [done|]. by rewrite Hu. }
  by destruct Hleaf as [->|[z ->]].
Qed.

Lemma update_raises_below_a_leaf_witness :
  run (SimpleFromEventStream.update ("event", Samples.image_event))
      Samples.deep_node
  = (SimpleFromEventStream.tracked Samples.deep_node "event" Samples.image_event,
     SimpleFromEventStream.notifications Samples.deep_node "event"
       Samples.image_event, Raise TypeError).
Proof.
  apply (update_raises_below_a_leaf Samples.deep_node "event"
           Samples.image_event ["data"; "img"] "x" [] (VInt 7)).
  - reflexivity.
  - vm_compute. reflexivity.
  - intros H. vm_compute in H. discriminate.
  - reflexivity.
  - right. by exists 7%Z.
Defined.


(** ** The reconstruction node: the machine behind the methods *)

Ltac count_names :=
  repeat match goal with
    | |- context [count_name ?n (?a :: ?l)] =>
        let v := eval vm_compute in (count_name n (a :: l)) in
        change (count_name n (a :: l)) with v
    end.

Lemma count_name_app name l1 l2 :
  count_name name (l1 ++ l2) = count_name name l1 + count_name name l2.
Proof. unfold count_name. by rewrite filter_app, length_app. Qed.

Section machine.
Import ToES SimpleToEventStream.
Context {G : Type} `{!CreateDocs G}.
Implicit Types (self : t G) (cs : list (call G)).

Lemma do_call_run (c : call G) self :
  ∃ self' out,
    (∀ tr, do_call c self tr = (self', tr ++ out, Ok tt))
    ∧ emitted_names out = call_names (state self) c
    ∧ state self' = next_state (state self) c
    ∧ same_wiring self self'
    ∧ (start_document self = None → start_document self' = None).
Proof.
  destruct c as [h x|h x|h x]; cbn [do_call call_names next_state].
  - case_bool_decide as Hst.
    + eexists _, _. split; [intros tr; by apply emit_start_stopped|].
      split; [|by repeat split].
      cbn [app]. by rewrite emitted_names_emit, emitted_names_start_calls.
    + eexists _, _. split; [intros tr; by apply emit_start_repairs|].
      split; [|by repeat split].
      cbn [app]. rewrite emitted_names_emit, emitted_names_app,
        emitted_names_stop_calls, emitted_names_emit.
      by rewrite emitted_names_start_calls.
  - eexists _, _. split; [intros tr; by apply emit_stop_run|].
    split; [|by repeat split].
    by rewrite emitted_names_emit, emitted_names_stop_calls.
  - case_bool_decide as Hst.
    + eexists _, _. split; [intros tr; by apply update_started|].
      by repeat split.
    + eexists _, _. split; [intros tr; by apply update_not_started|].
      by repeat split.
Qed.

Lemma do_calls_run cs self :
  ∃ self' out,
    (∀ tr, do_calls cs self tr = (self', tr ++ out, Ok tt))
    ∧ emitted_names out = machine_names (state self) cs
    ∧ state self' = machine_state (state self) cs
    ∧ same_wiring self self'
    ∧ (start_document self = None → start_document self' = None).
Proof.
  revert self. induction cs as [|c cs IH]; intros self.
  { exists self, []. split; [intros tr; by rewrite app_nil_r|]. by repeat split. }
  destruct (do_call_run c self) as (self1 & out1 & Hrun1 & Hn1 & Hs1 & Hw1 & Hd1).
  destruct (IH self1) as (self2 & out2 & Hrun2 & Hn2 & Hs2 & Hw2 & Hd2).
  exists self2, (out1 ++ out2). split; [|split; [|split; [|split]]].
  - intros tr. unfold do_calls. cbn [for_each]. unfold bind.
    rewrite Hrun1. fold (do_calls cs). rewrite Hrun2. by rewrite app_assoc.
  - rewrite emitted_names_app, Hn1, Hn2, Hs1. done.
  - rewrite Hs2, Hs1. done.
  - destruct Hw1 as (? & ? & ? & ? & ?), Hw2 as (? & ? & ? & ? & ?).
    repeat split; congruence.
  - auto.
Qed.

Lemma machine_counts (st : string) cs :
  let names := machine_names st cs in
  count_name "event" names = length (List.filter is_update cs)
  ∧ count_name "start" names = length (List.filter is_emit_start cs)
  ∧ length (List.filter is_emit_stop cs) ≤ count_name "stop" names
  ∧ count_name "stop" names
    ≤ length (List.filter is_emit_stop cs) + length (List.filter is_emit_start cs)
  ∧ count_name "descriptor" names
    + (if bool_decide (machine_state st cs = "started") then 1 else 0)
    ≤ count_name "start" names
      + (if bool_decide (st = "started") then 1 else 0).
Proof.
  revert st. induction cs as [|c cs IH]; intros st; cbn zeta.
  { cbn [machine_names machine_state List.filter length].
    change (count_name _ []) with 0. repeat split; lia. }
  specialize (IH (next_state st c)). cbn zeta in IH.
  destruct IH as (IHe & IHs & IHp1 & IHp2 & IHd).
  cbn [machine_names machine_state]. rewrite !count_name_app.
  rewrite IHe, IHs in *.
  destruct c as [h x|h x|h x]; cbn [call_names next_state List.filter
    is_update is_emit_start is_emit_stop length] in *.
  - rewrite (bool_decide_eq_true_2 ("started" = "started")) in IHd by done.
    destruct (decide (st = "stopped")) as [Hst|Hst].
    + rewrite (bool_decide_eq_true_2 (st = "stopped")) by done.
      rewrite (bool_decide_eq_false_2 (st = "started"))
        by (rewrite Hst; discriminate).
      count_names. repeat split; lia.
    + rewrite (bool_decide_eq_false_2 (st = "stopped")) by done.
      count_names. repeat split; lia.
  - rewrite (bool_decide_eq_false_2 ("stopped" = "started")) in IHd by done.
    count_names. repeat split; lia.
  - destruct (decide (st = "started")) as [Hst|Hst].
    + rewrite !(bool_decide_eq_true_2 (st = "started")) in * by done.
      rewrite (bool_decide_eq_false_2 ("described" = "started")) in IHd by done.
      count_names. repeat split; lia.
    + rewrite !(bool_decide_eq_false_2 (st = "started")) in * by done.
      count_names. repeat split; lia.
Qed.
End machine.

(** The names a reconstruction node emits under any sequence of calls are
    those of the state machine of the class documentation, run from the
    state the node is in; no call raises, and the node ends in the state of
    the machine. *)
Theorem node_runs_the_documented_machine {G : Type} `{!CreateDocs G}
    (self : ToES.t G) (cs : list (SimpleToEventStream.call G)) :
  ∃ self' tr,
    run (SimpleToEventStream.do_calls cs) self = (self', tr, Ok tt)
    ∧ emitted_names tr = machine_names (ToES.state self) cs
    ∧ ToES.state self' = machine_state (ToES.state self) cs.
Proof.
  destruct (do_calls_run cs self) as (self' & out & Hrun & Hn & Hs & _).
  exists self', out. split; [apply (Hrun [])|done].
Qed.

(** Every payload gives exactly one event and every [emit_start] exactly
    one start; every [emit_stop] gives a stop, and the only other stops
    are those that repair a start; and a descriptor is emitted at most once
    per start (once more when the node was found in ['started']). *)
Theorem one_event_per_payload {G : Type} `{!CreateDocs G}
    (self : ToES.t G) (cs : list (SimpleToEventStream.call G)) :
  let names := emitted_names (run (SimpleToEventStream.do_calls cs) self).1.2 in
  count_name "event" names = length (List.filter is_update cs)
  ∧ count_name "start" names = length (List.filter is_emit_start cs)
  ∧ length (List.filter is_emit_stop cs) ≤ count_name "stop" names
  ∧ count_name "stop" names
    ≤ length (List.filter is_emit_stop cs) + length (List.filter is_emit_start cs)
  ∧ count_name "descriptor" names
    ≤ count_name "start" names
      + (if bool_decide (ToES.state self = "started") then 1 else 0).
Proof.
  destruct (do_calls_run cs self) as (self' & out & Hrun & Hn & _).
  unfold run. rewrite (Hrun []). cbn [fst snd app]. rewrite Hn.
  destruct (machine_counts (ToES.state self) cs) as (He & Hs & Hp1 & Hp2 & Hd).
  repeat split; [done..|]. lia.
Qed.

(** No sequence of calls changes the identity of the node, its dependents,
    its dependency graph or its boundary nodes; and the cached start
    document, empty at construction, is empty again after every call. *)
Theorem calls_keep_the_wiring {G : Type} `{!CreateDocs G}
    (self : ToES.t G) (cs : list (SimpleToEventStream.call G)) :
  let self' := (run (SimpleToEventStream.do_calls cs) self).1.1 in
  ToES.uid self' = ToES.uid self
  ∧ ToES.subs self' = ToES.subs self
  ∧ ToES.graph self' = ToES.graph self
  ∧ ToES.translation_nodes self' = ToES.translation_nodes self
  ∧ ToES.principle_nodes self' = ToES.principle_nodes self
  ∧ (ToES.start_document self = None → ToES.start_document self' = None).
Proof.
  destruct (do_calls_run cs self) as (self' & out & Hrun & _ & _ & Hw & Hd).
  unfold run. rewrite (Hrun []). cbn [fst].
  destruct Hw as (? & ? & ? & ? & ?). by repeat split.
Qed.

(** [start_doc] returns the start document of the generator with the two
    provenance fields written over it: whatever the generator put under
    [parent_uids] and [parent_node_map] is replaced, every other field is
    kept. The method emits nothing, leaves the state as it is and only
    stores the document in [start_document]. *)
Theorem start_doc_overrides_generator {G : Type} `{!CreateDocs G}
    (h : heap G) (self : ToES.t G) (x : value) :
  ∃ self' body,
    run (SimpleToEventStream.start_doc h x) self = (self', [], Ok body)
    ∧ ToES.start_document self' = Some ("start", body)
    ∧ ToES.state self' = ToES.state self
    ∧ ToES.docs self' = (cd_start_doc (ToES.docs self) x).2
    ∧ body !! "parent_uids"
      = Some (VList (SimpleToEventStream.parent_uids h self))
    ∧ body !! "parent_node_map"
      = Some (VDict (SimpleToEventStream.parent_node_map h self))
    ∧ ∀ k, k ≠ "parent_uids" → k ≠ "parent_node_map" →
           body !! k = (cd_start_doc (ToES.docs self) x).1 !! k.
Proof.
  eexists _, _. split.
  { unfold run, SimpleToEventStream.start_doc, bind.
    rewrite generate_run. reflexivity. }
  repeat split.
  - by rewrite lookup_insert_ne, lookup_insert_eq.
  - by rewrite lookup_insert_eq.
  - intros k Hk1 Hk2. by rewrite !lookup_insert_ne.
Qed.

(** ** The pipeline of the documentation: one whole run *)

Section round_trip.
Import Pipeline SimpleToEventStream.
Context {G : Type} `{!CreateDocs G}.
Implicit Types (p : Pipeline.t G).

Lemma feed_all_app xs ys p :
  feed_all (xs ++ ys) p
  = match feed_all xs p with
    | (p', out, Ok _) =>
        let '(p'', out', r) := feed_all ys p' in (p'', out ++ out', r)
    | (p', out, Raise e) => (p', out, Raise e)
    end.
Proof.
  revert p. induction xs as [|x xs IH]; intros p; cbn [app feed_all].
  { by destruct (feed_all ys p) as [[? ?] ?]. }
  destruct (feed x p) as [[p1 out1] [[]|e]]; [|done].
  rewrite IH. destruct (feed_all xs p1) as [[p2 out2] [[]|e]]; [|done].
  destruct (feed_all ys p2) as [[p3 out3] r]. by rewrite app_assoc.
Qed.

(** One side-channel call or payload delivered to the reconstruction
    node. *)
Lemma deliver_one (h : heap G) (c : call G) (e : effect) (self : ToES.t G) :
  deliver h e = do_call c →
  ∃ self' out,
    run (for_each [e] (deliver h)) self = (self', out, Ok tt)
    ∧ emitted_names out = call_names (ToES.state self) c
    ∧ ToES.state self' = next_state (ToES.state self) c.
Proof.
  intros He.
  destruct (do_call_run c self) as (self' & out & Hrun & Hn & Hs & _).
  exists self', out. split; [|done].
  unfold run. cbn [for_each]. unfold bind. by rewrite He, Hrun.
Qed.

Lemma feed_start_document p sd u :
  SimpleFromEventStream.doc_type (extraction p) ≠ "start" →
  SimpleFromEventStream.subs (extraction p) = [2] →
  sd !! "uid" = Some u →
  ∃ t' out,
    feed ("start", sd) p
    = ({| extraction := SimpleFromEventStream.set_start_uid u (extraction p);
          reconstruction := t' |}, out, Ok tt)
    ∧ emitted_names out
      = call_names (ToES.state (reconstruction p)) (DoEmitStart (∅ : heap G) VNone)
    ∧ ToES.state t' = "started".
Proof.
  intros Hty Hsubs Hu. unfold feed.
  rewrite update_run, selects_other_type by done.
  unfold SimpleFromEventStream.needs_uid, SimpleFromEventStream.tracked,
    SimpleFromEventStream.notifications, dict_get.
  compare_names. rewrite (bool_decide_eq_false_2 (sd !! "uid" = None))
    by (by rewrite Hu).
  cbn [orb andb]. cbv zeta. rewrite Hsubs, Hu. cbn [map].
  set (h := objects _).
  destruct (deliver_one h (DoEmitStart h (document "start" sd))
              (CallEmitStart 2 (document "start" sd)) (reconstruction p))
    as (t' & out & Hrun & Hn & Hs).
  { cbn [deliver do_call]. by rewrite bool_decide_eq_true_2. }
  rewrite Hrun. by exists t', out.
Qed.

Lemma feed_descriptor_document p dd u :
  SimpleFromEventStream.doc_type (extraction p) ≠ "descriptor" →
  SimpleFromEventStream.tracks (extraction p) dd = true →
  dd !! "uid" = Some u →
  feed ("descriptor", dd) p
  = ({| extraction :=
          SimpleFromEventStream.set_descriptor_uids
            (SimpleFromEventStream.descriptor_uids (extraction p) ++ [u])
            (extraction p);
        reconstruction := reconstruction p |}, [], Ok tt).
Proof.
  intros Hty Htr Hu. unfold feed.
  rewrite update_descriptor by (done || by eexists).
  rewrite Htr. unfold dict_get. by rewrite Hu.
Qed.

Lemma feed_event_document p ev d v :
  SimpleFromEventStream.doc_type (extraction p) = "event" →
  ev !! "descriptor" = Some d →
  py_in d (SimpleFromEventStream.descriptor_uids (extraction p)) = true →
  SimpleFromEventStream.resolve
    (SimpleFromEventStream.data_address (extraction p)) (VDict ev)
  = Resolved v →
  ∃ t' out,
    feed ("event", ev) p
    = ({| extraction := extraction p; reconstruction := t' |}, out, Ok tt)
    ∧ emitted_names out
      = call_names (ToES.state (reconstruction p)) (DoUpdate (∅ : heap G) v)
    ∧ ToES.state t' = next_state (ToES.state (reconstruction p)) (DoUpdate (∅ : heap G) v).
Proof.
  intros Hty Hd Hin Hres. unfold feed.
  rewrite (update_event _ _ d), Hres by done.
  set (h := objects _).
  destruct (deliver_one h (DoUpdate h v) (Emit v) (reconstruction p))
    as (t' & out & Hrun & Hn & Hs); [done|].
  rewrite Hrun. by exists t', out.
Qed.

Lemma feed_stop_document p st :
  SimpleFromEventStream.doc_type (extraction p) ≠ "stop" →
  SimpleFromEventStream.subs (extraction p) = [2] →
  ∃ t' out,
    feed ("stop", st) p
    = ({| extraction :=
            SimpleFromEventStream.set_descriptor_uids [] (extraction p);
          reconstruction := t' |}, out, Ok tt)
    ∧ emitted_names out = ["stop"]
    ∧ ToES.state t' = "stopped".
Proof.
  intros Hty Hsubs. unfold feed. rewrite update_stop by done.
  rewrite Hsubs. cbn [map]. set (h := objects _).
  destruct (deliver_one h (DoEmitStop h (document "stop" st))
              (CallEmitStop 2 (document "stop" st)) (reconstruction p))
    as (t' & out & Hrun & Hn & Hs).
  { cbn [deliver do_call]. by rewrite bool_decide_eq_true_2. }
  rewrite Hrun. by exists t', out.
Qed.

(** The events of an active descriptor, one after the other. *)
Lemma feed_event_documents (d : value) (evs : list dict) (vs : list value) p :
  SimpleFromEventStream.doc_type (extraction p) = "event" →
  py_in d (SimpleFromEventStream.descriptor_uids (extraction p)) = true →
  Forall2 (λ ev v,
             ev !! "descriptor" = Some d
             ∧ SimpleFromEventStream.resolve
                 (SimpleFromEventStream.data_address (extraction p)) (VDict ev)
               = Resolved v) evs vs →
  ∃ t' out,
    feed_all (map (pair "event") evs) p
    = ({| extraction := extraction p; reconstruction := t' |}, out, Ok tt)
    ∧ emitted_names out
      = machine_names (ToES.state (reconstruction p)) (map (DoUpdate (∅ : heap G)) vs)
    ∧ ToES.state t'
      = machine_state (ToES.state (reconstruction p)) (map (DoUpdate (∅ : heap G)) vs).
Proof.
  intros Hty Hin Hall. revert p Hty Hin Hall.
  induction evs as [|ev evs IH] in vs |- *; intros p Hty Hin Hall.
  { apply Forall2_nil_inv_l in Hall as ->. exists (reconstruction p), [].
    by destruct p. }
  apply Forall2_cons_inv_l in Hall as (v & vs' & [Hd Hres] & Hall & ->).
  destruct (feed_event_document p ev d v Hty Hd Hin Hres)
    as (t1 & out1 & Hfeed & Hn1 & Hs1).
  destruct (IH vs' {| extraction := extraction p; reconstruction := t1 |}
              Hty Hin Hall) as (t2 & out2 & Hrest & Hn2 & Hs2).
  cbn [map feed_all]. rewrite Hfeed, Hrest. exists t2, (out1 ++ out2).
  split; [done|]. cbn [machine_names machine_state extraction reconstruction] in *.
  rewrite emitted_names_app, Hn1, Hn2, Hs2, Hs1. done.
Qed.

Lemma machine_names_payloads (st : string) (vs : list value) :
  st ≠ "started" →
  machine_names st (map (DoUpdate (∅ : heap G)) vs) = replicate (length vs) "event"
  ∧ machine_state st (map (DoUpdate (∅ : heap G)) vs) = st.
Proof.
  intros Hst. induction vs as [|v vs [IH1 IH2]]; [done|].
  cbn [map machine_names machine_state call_names next_state length replicate].
  rewrite bool_decide_eq_false_2 by done. by rewrite IH1, IH2.
Qed.
End round_trip.

(** A whole run through the pipeline of the documentation: a start, a
    descriptor that passes the filter, events of that descriptor whose
    payload is at the address, and a stop. Nothing raises; the
    reconstruction node emits a start, then a descriptor of its own when the
    first payload arrives, one event per event fed, and a stop; and both
    nodes end where a new run can begin. *)
Theorem whole_run_is_translated {G : Type} `{!CreateDocs G}
    (p : Pipeline.t G) (sd dd st : dict) (su du : value)
    (evs : list dict) (vs : list value) :
  SimpleFromEventStream.doc_type (Pipeline.extraction p) = "event" →
  SimpleFromEventStream.subs (Pipeline.extraction p) = [2] →
  ToES.state (Pipeline.reconstruction p) = "stopped" →
  sd !! "uid" = Some su →
  SimpleFromEventStream.tracks (Pipeline.extraction p) dd = true →
  dd !! "uid" = Some du →
  Forall2 (λ ev v,
             ev !! "descriptor" = Some du
             ∧ SimpleFromEventStream.resolve
                 (SimpleFromEventStream.data_address (Pipeline.extraction p))
                 (VDict ev) = Resolved v) evs vs →
  ∃ p' out,
    Pipeline.feed_all
      (("start", sd) :: ("descriptor", dd) :: map (pair "event") evs
       ++ [("stop", st)]) p
    = (p', out, Ok tt)
    ∧ emitted_names out
      = "start" :: (if vs is [] then [] else ["descriptor"])
        ++ replicate (length vs) "event" ++ ["stop"]
    ∧ ToES.state (Pipeline.reconstruction p') = "stopped"
    ∧ SimpleFromEventStream.descriptor_uids (Pipeline.extraction p') = []
    ∧ SimpleFromEventStream.start_uid (Pipeline.extraction p') = su.
Proof.
  intros Hty Hsubs Hstate Hsu Htr Hdu Hall.
  destruct (feed_start_document p sd su) as (t1 & out1 & Hfeed1 & Hn1 & Hs1);
    [by rewrite Hty|done..|].
  set (p1 := {| Pipeline.extraction := _; Pipeline.reconstruction := t1 |})
    in Hfeed1.
  pose proof (feed_descriptor_document p1 dd du) as Hfeed2.
  set (p2 := {| Pipeline.extraction := _;
                Pipeline.reconstruction := Pipeline.reconstruction p1 |})
    in Hfeed2.
  destruct (feed_event_documents du evs vs p2) as (t3 & out3 & Hfeed3 & Hn3 & Hs3);
    [done|apply py_in_app_r|done|].
  set (p3 := {| Pipeline.extraction := Pipeline.extraction p2;
                Pipeline.reconstruction := t3 |}) in Hfeed3.
  destruct (feed_stop_document p3 st) as (t4 & out4 & Hfeed4 & Hn4 & Hs4);
    [by cbn; rewrite Hty|done|].
  eexists _, _. split.
  { cbn [Pipeline.feed_all]. rewrite Hfeed1, Hfeed2 by (done || by cbn; rewrite Hty).
    rewrite feed_all_app, Hfeed3. cbn [Pipeline.feed_all]. rewrite Hfeed4.
    reflexivity. }
  split; [|done].
  cbn [app]. rewrite !emitted_names_app, Hn1, Hn3, Hn4. cbn [emitted_names omap app].
  cbn [call_names]. rewrite Hstate, bool_decide_eq_true_2 by done.
  cbn [app Pipeline.reconstruction p2 p1]. rewrite Hs1. f_equal.
  destruct vs as [|v vs]; [done|].
  cbn [map machine_names call_names next_state length replicate].
  rewrite (bool_decide_eq_true_2 ("started" = "started")) by done.
  destruct (machine_names_payloads (G:=G) "described" vs) as [-> _]; done.
Qed.

Lemma whole_run_is_translated_witness :
  ∃ p' out,
    Pipeline.feed_all Samples.image_run Samples.image_pipeline = (p', out, Ok tt)
    ∧ emitted_names out = ["start"; "descriptor"; "event"; "event"; "stop"]
    ∧ ToES.state (Pipeline.reconstruction p') = "stopped"
    ∧ SimpleFromEventStream.descriptor_uids (Pipeline.extraction p') = []
    ∧ SimpleFromEventStream.start_uid (Pipeline.extraction p') = VStr "u".
Proof.
  apply (whole_run_is_translated Samples.image_pipeline
           Samples.doc_u Samples.descriptor_d1 Samples.doc_v
           (VStr "u") (VStr "d1")
           [ {[ "descriptor" := VStr "d1";
                "data" := VDict {[ "img" := VInt 1 ]} ]};
             {[ "descriptor" := VStr "d1";
                "data" := VDict {[ "img" := VInt 2 ]} ]} ]
           [VInt 1; VInt 2]);
    try reflexivity.
  repeat constructor.
Defined.

(** ** The graph walk: the shape of the graph *)

Lemma fold_option_reaches {A B} (P : B → Prop) (f : B → A → option B)
    (l : list A) (a : A) b b' :
  a ∈ l →
  (∀ b b1, f b a = Some b1 → P b1) →
  (∀ b a' b1, P b → f b a' = Some b1 → P b1) →
  fold_option f l b = Some b' → P b'.
Proof.
  intros Hin Hat Hkeep. revert b.
  induction l as [|a0 l IH]; intros b Hrun; [by apply elem_of_nil in Hin|].
  cbn [fold_option] in Hrun. destruct (f b a0) as [b1|] eqn:Hf; [|done].
  apply elem_of_cons in Hin as [->|Hin]; [|by eapply IH].
  apply Hat in Hf. clear IH Hat. revert b1 Hf Hrun.
  induction l as [|a1 l IH]; intros b1 Hb1 Hrun.
  { cbn in Hrun. by injection Hrun as <-. }
  cbn [fold_option] in Hrun. destruct (f b1 a1) as [b2|] eqn:Hf2; [|done].
  eapply IH; [|done]. by eapply Hkeep.
Qed.

Lemma fold_option_skips {A B} (f : B → option A → option B)
    (l : list (option A)) b :
  (∀ b, f b None = Some b) →
  Forall (λ a, a = None) l → fold_option f l b = Some b.
Proof.
  intros Hf. induction 1 as [|a l -> _ IH]; [done|].
  cbn [fold_option]. by rewrite Hf.
Qed.

Lemma extends_refl graph : extends graph graph.
Proof. by split. Qed.

Lemma extends_trans g1 g2 g3 : extends g1 g2 → extends g2 g3 → extends g1 g3.
Proof. intros [? ?] [? ?]. split; [set_solver|auto]. Qed.

Lemma touch_lookup (m : gmap ident (option ref)) n :
  is_Some (match m !! n with Some _ => m | None => <[n := None]> m end !! n).
Proof.
  destruct (m !! n) eqn:Hn; [by rewrite Hn|].
  rewrite lookup_insert_eq. by eexists.
Qed.

Lemma touch_keeps (m : gmap ident (option ref)) n k :
  is_Some (m !! k) →
  is_Some (match m !! n with Some _ => m | None => <[n := None]> m end !! k).
Proof.
  intros Hk. destruct (m !! n) eqn:Hn; [done|].
  destruct (decide (n = k)) as [->|Hne].
  - rewrite lookup_insert_eq. by eexists.
  - by rewrite lookup_insert_ne.
Qed.

Section walk_shape.
Context {G : Type} (h : heap G).
Implicit Types (graph : DiGraph).

Lemma walk_extends fuel node_opt graph prior_node graph' :
  walk h fuel node_opt graph prior_node = Some graph' → extends graph graph'.
Proof.
  apply (walk_preserves h (extends graph)); [| |apply extends_refl].
  - intros r g [Hedges Hnodes]. split; [done|].
    intros k Hk. by apply nodes_add_node, Hnodes.
  - intros u v g [Hedges Hnodes]. split; [cbn; set_solver|].
    intros k Hk. by apply nodes_add_edge, Hnodes.
Qed.

(** A call with a prior node leaves the edge to it in the graph. *)
Lemma walk_draws_edge fuel node graph prior graph' :
  walk h fuel (Some node) graph (Some prior) = Some graph' →
  (_hash_or_uid (h !!! node), _hash_or_uid (h !!! prior)) ∈ edges graph'
  ∧ is_Some (nodes graph' !! _hash_or_uid (h !!! node)).
Proof.
  destruct fuel as [|fuel]; [done|]. intros Hwalk.
  pose proof Hwalk as Hext. rewrite walk_unfold in Hwalk. cbn zeta in Hwalk.
  set (t := _hash_or_uid (h !!! node)) in *.
  set (tt := _hash_or_uid (h !!! prior)) in *.
  assert (is_Some (nodes (nx.add_node t node graph) !! t)) as Hnode.
  { cbn. rewrite lookup_insert_eq. by eexists. }
  destruct (nx.has_edge t tt (nx.add_node t node graph)) eqn:Hedge.
  { injection Hwalk as <-. split; [|done].
    by apply bool_decide_eq_true in Hedge. }
  set (g1 := nx.add_edge t tt (nx.add_node t node graph)) in *.
  assert ((t, tt) ∈ edges g1) as Hin by (cbn; set_solver).
  assert (is_Some (nodes g1 !! t)) as Hnode1 by by apply nodes_add_edge.
  assert (∀ g, extends g1 g → (t, tt) ∈ edges g ∧ is_Some (nodes g !! t))
    as Hdone.
  { intros g [Hedges Hnodes]. split; [set_solver|auto]. }
  destruct (is_from (h !!! node)).
  { injection Hwalk as <-. apply Hdone, extends_refl. }
  destruct (find_downstream h g1 (downstreams (h !!! node))) as [d|].
  - injection Hwalk as <-. apply Hdone. split; [cbn; set_solver|].
    intros k Hk. by apply nodes_add_edge, nodes_add_node.
  - apply Hdone.
    apply (fold_option_preserves (extends g1)) in Hwalk;
      [done| |apply extends_refl].
    intros g [node2|] g' _ Hg Hstep; [|by injection Hstep as <-].
    eapply extends_trans; [done|]. by eapply walk_extends.
Qed.

(** Every edge the walk draws joins two objects along a dataflow link. *)
Lemma walk_links fuel node_opt graph prior_node graph' :
  (∀ node prior, node_opt = Some node → prior_node = Some prior →
                 Some node ∈ upstreams (h !!! prior)) →
  (∀ u v, (u, v) ∈ edges graph → linked h u v) →
  walk h fuel node_opt graph prior_node = Some graph' →
  ∀ u v, (u, v) ∈ edges graph' → linked h u v.
Proof.
  revert node_opt graph prior_node graph'.
  induction fuel as [|fuel IH];
    intros node_opt graph prior_node graph' Hprior Hgraph Hwalk; [done|].
  destruct node_opt as [node|]; [|by injection Hwalk as <-].
  rewrite walk_unfold in Hwalk. cbn zeta in Hwalk.
  set (I := λ g : DiGraph, ∀ u v, (u, v) ∈ edges g → linked h u v).
  assert (∀ g g', I g →
    fold_option (λ g node2, match node2 with
                            | None => Some g
                            | Some _ => walk h fuel node2 g (Some node)
                            end) (upstreams (h !!! node)) g = Some g' → I g')
    as Hascend.
  { intros g g' Hg Hrun. apply (fold_option_preserves I) in Hrun; [done| |done].
    intros g0 [node2|] g0' Hin Hg0 Hstep; [|by injection Hstep as <-].
    refine (IH (Some node2) g0 (Some node) g0' _ Hg0 Hstep).
    intros ? ? [= <-] [= <-]. done. }
  assert (I (nx.add_node (_hash_or_uid (h !!! node)) node graph)) as Hnode
    by exact Hgraph.
  destruct prior_node as [prior|]; [|by eapply Hascend].
  destruct (nx.has_edge _ _ _); [by injection Hwalk as <-|].
  set (g1 := nx.add_edge _ _ _) in *.
  assert (I g1) as Hg1.
  { intros u v Huv. cbn in Huv. apply elem_of_union in Huv as [Huv|Huv].
    - apply elem_of_singleton in Huv as [= -> ->].
      exists node, prior. split; [done|]. split; [done|]. left. by apply Hprior.
    - by apply Hgraph. }
  destruct (is_from _); [by injection Hwalk as <-|].
  destruct (find_downstream h g1 (downstreams (h !!! node))) as [d|] eqn:Hd.
  - injection Hwalk as <-. intros u v Huv. cbn in Huv.
    apply elem_of_union in Huv as [Huv|Huv]; [|by apply Hg1].
    apply elem_of_singleton in Huv as [= -> ->].
    exists node, d. split; [done|]. split; [done|]. right.
    unfold find_downstream in Hd. apply find_some in Hd as [Hd _].
    by apply list_elem_of_In.
  - by eapply Hascend.
Qed.

(** The end points of every edge are nodes of the graph. *)
Lemma walk_edges_between_nodes fuel node_opt graph prior_node graph' :
  (∀ u v, (u, v) ∈ edges graph →
          is_Some (nodes graph !! u) ∧ is_Some (nodes graph !! v)) →
  walk h fuel node_opt graph prior_node = Some graph' →
  ∀ u v, (u, v) ∈ edges graph' →
         is_Some (nodes graph' !! u) ∧ is_Some (nodes graph' !! v).
Proof.
  apply (walk_preserves h
           (λ g, ∀ u v, (u, v) ∈ edges g →
                        is_Some (nodes g !! u) ∧ is_Some (nodes g !! v))).
  - intros r g Hg u v Huv. destruct (Hg u v Huv).
    split; by apply nodes_add_node.
  - intros u0 v0 g Hg u v Huv. cbn [nx.add_edge edges] in Huv.
    apply elem_of_union in Huv as [Huv|Huv].
    + apply elem_of_singleton in Huv as [= -> ->]. cbn [nx.add_edge nodes].
      split; [apply touch_keeps|]; apply touch_lookup.
    + destruct (Hg u v Huv). split; by apply nodes_add_edge.
Qed.

(** The walk from a new node over an empty graph. *)
Lemma walk_root_unfold (self : ref) :
  walk_to_translation h (Some self) nx.empty None
  = fold_option
      (λ g node2, match node2 with
                  | None => Some g
                  | Some _ =>
                      walk h (S (size (missing_edges h nx.empty))) node2 g
                           (Some self)
                  end)
      (upstreams (h !!! self))
      (nx.add_node (_hash_or_uid (h !!! self)) self nx.empty).
Proof. unfold walk_to_translation, walk_depth. by rewrite walk_unfold. Qed.

Lemma walk_root_discovers (self r : ref) graph :
  Some r ∈ upstreams (h !!! self) →
  walk_to_translation h (Some self) nx.empty None = Some graph →
  (_hash_or_uid (h !!! r), _hash_or_uid (h !!! self)) ∈ edges graph
  ∧ is_Some (nodes graph !! _hash_or_uid (h !!! r)).
Proof.
  intros Hup Hwalk. rewrite walk_root_unfold in Hwalk.
  apply (fold_option_reaches
           (λ g, (_hash_or_uid (h !!! r), _hash_or_uid (h !!! self)) ∈ edges g
                 ∧ is_Some (nodes g !! _hash_or_uid (h !!! r))) _ _ (Some r))
    in Hwalk; [done|done| |].
  - intros g g1 Hstep. by eapply walk_draws_edge.
  - intros g [node2|] g1 [Hedge Hnode] Hstep; [|by injection Hstep as <-].
    apply walk_extends in Hstep as [Hedges Hnodes]. split; [set_solver|auto].
Qed.
End walk_shape.

(** The walk only adds to the graph it is given: it returns a graph that
    has every node and every edge of the graph it started from, and that
    graph itself when there is no node to walk from. *)
Theorem walk_only_adds {G : Type} (h : heap G)
    (node : option ref) (graph : DiGraph) (prior_node : option ref) :
  ∃ graph',
    walk_to_translation h node graph prior_node = Some graph'
    ∧ extends graph graph'
    ∧ (node = None → graph' = graph).
Proof.
  destruct (walk_to_translation_returns h node graph prior_node)
    as (graph' & Hwalk & _ & _).
  exists graph'. split; [done|]. split.
  - by eapply walk_extends.
  - intros ->. unfold walk_to_translation, walk_depth in Hwalk.
    cbn in Hwalk. by injection Hwalk as <-.
Qed.

(** The graph of a new node, as the docstring of the walk describes it:
    the node itself is in it, every node carries its stream and is keyed by
    the identity of that stream, and every edge joins two nodes of the graph
    along a dataflow link, from the upstream object to the downstream one. *)
Theorem walked_graph_follows_the_dataflow {G : Type} (h : heap G) (self : ref) :
  ∃ graph,
    walk_to_translation h (Some self) nx.empty None = Some graph
    ∧ is_Some (nodes graph !! _hash_or_uid (h !!! self))
    ∧ all_streams graph
    ∧ keyed_by_identity h graph
    ∧ ∀ u v, (u, v) ∈ edges graph →
             linked h u v
             ∧ is_Some (nodes graph !! u) ∧ is_Some (nodes graph !! v).
Proof.
  destruct (walk_to_translation_returns h (Some self) nx.empty None)
    as (graph & Hwalk & _ & _).
  exists graph. split; [done|]. unfold walk_to_translation in Hwalk.
  split; [|split; [|split]].
  - pose proof Hwalk as Hroot. fold (walk_to_translation h (Some self) nx.empty None)
      in Hroot. rewrite walk_root_unfold in Hroot.
    apply (fold_option_preserves
             (extends (nx.add_node (_hash_or_uid (h !!! self)) self nx.empty)))
      in Hroot; [| |apply extends_refl].
    + apply Hroot. cbn. rewrite lookup_insert_eq. by eexists.
    + intros g [node2|] g' _ Hg Hstep; [|by injection Hstep as <-].
      eapply extends_trans; [done|]. by eapply walk_extends.
  - apply walk_keeps_streams in Hwalk as [Hall _]; [done| |done].
    unfold all_streams. cbn. apply map_Forall_empty.
  - eapply walk_keys_identities; [|done]. intros k r Hk. by cbn in Hk.
  - intros u v Huv. split.
    + eapply walk_links; [| |done|done]; [done|]. intros ? ? Hin. by cbn in Hin.
    + eapply walk_edges_between_nodes; [|done|done].
      intros ? ? Hin. by cbn in Hin.
Qed.

(** Every direct upstream of the new node is discovered: it is a node of
    the graph, with an edge to the new node. *)
Theorem direct_upstreams_are_discovered {G : Type} (h : heap G)
    (self r : ref) :
  Some r ∈ upstreams (h !!! self) →
  ∃ graph,
    walk_to_translation h (Some self) nx.empty None = Some graph
    ∧ (_hash_or_uid (h !!! r), _hash_or_uid (h !!! self)) ∈ edges graph
    ∧ is_Some (nodes graph !! _hash_or_uid (h !!! r)).
Proof.
  intros Hup.
  destruct (walk_to_translation_returns h (Some self) nx.empty None)
    as (graph & Hwalk & _ & _).
  exists graph. split; [done|]. by apply walk_root_discovers.
Qed.

Lemma direct_upstreams_are_discovered_witness :
  ∃ graph,
    walk_to_translation Samples.cyclic_objects (Some 3) nx.empty None
    = Some graph
    ∧ (IdHash 12, IdUid "to-3") ∈ edges graph
    ∧ is_Some (nodes graph !! IdHash 12).
Proof.
  apply (direct_upstreams_are_discovered Samples.cyclic_objects 3 2).
  vm_compute. constructor.
Defined.

(** ** Construction: what the walk makes of the dataflow graph *)

Section construction_more.
Import SimpleToEventStream.
Context {G : Type}.
Implicit Types (h : heap G) (graph : DiGraph) (self : ref).

Lemma walked_graph_streams h self graph :
  walk_to_translation h (Some self) nx.empty None = Some graph →
  all_streams graph ∧ keyed_by_identity h graph.
Proof.
  intros Hwalk. unfold walk_to_translation in Hwalk. split.
  - apply walk_keeps_streams in Hwalk as [Hall _]; [done| |done].
    unfold all_streams. cbn. apply map_Forall_empty.
  - eapply walk_keys_identities; [|done]. intros k r Hk. by cbn in Hk.
Qed.

(** The new node is not one of its own principal nodes. *)
Lemma self_not_principal h self graph tn :
  walk_to_translation h (Some self) nx.empty None = Some graph →
  select_translation_nodes self h graph = Ok tn →
  self ∉ select_principle_nodes h tn.
Proof.
  intros Hwalk Hsel Hin.
  apply elem_of_select_principle_nodes in Hin as [[k Hk] _].
  destruct (walked_graph_streams h self graph Hwalk) as [Hall _].
  destruct (select_translation_nodes_ok self h graph Hall) as (tn' & Hsel' & Htn).
  assert (tn' = tn) as -> by congruence.
  by apply Htn in Hk as (_ & _ & Hne).
Qed.

Lemma append_sub_links (s : ref) (n : stream_node G) :
  upstreams (append_sub s n) = upstreams n
  ∧ downstreams (append_sub s n) = downstreams n
  ∧ _hash_or_uid (append_sub s n) = _hash_or_uid n.
Proof. unfold _hash_or_uid. destruct n as [? ? ? []]; done. Qed.

Lemma set_attributes_links graph tn pn (n : stream_node G) :
  upstreams (set_attributes graph tn pn n) = upstreams n
  ∧ downstreams (set_attributes graph tn pn n) = downstreams n
  ∧ _hash_or_uid (set_attributes graph tn pn n) = _hash_or_uid n.
Proof. unfold _hash_or_uid. destruct n as [? ? ? []]; done. Qed.
End construction_more.

(** A reconstruction node without an upstream cannot be constructed: the
    walk finds the node alone, and the constructor raises. *)
Theorem construction_without_upstream_fails {G : Type}
    (self : ref) (h : heap G) :
  Forall (λ u, u = None) (upstreams (h !!! self)) →
  SimpleToEventStream.init self h
  = Some (Raise (RuntimeError "No Principle Nodes Detected")).
Proof.
  intros Hup. unfold SimpleToEventStream.init.
  rewrite walk_root_unfold, fold_option_skips by done.
  unfold SimpleToEventStream.select_translation_nodes.
  cbn [nx.add_node nx.empty nodes]. rewrite insert_empty.
  rewrite bool_decide_eq_true_2 by (apply map_Forall_singleton; by eexists).
  rewrite omap_singleton_None.
  - unfold SimpleToEventStream.select_principle_nodes.
    by rewrite map_to_list_empty.
  - rewrite (bool_decide_eq_true_2 (self = self)) by done.
    cbn. by rewrite andb_false_r.
Qed.

Lemma construction_without_upstream_fails_witness :
  SimpleToEventStream.init 0 Samples.lonely_objects
  = Some (Raise (RuntimeError "No Principle Nodes Detected")).
Proof.
  apply (construction_without_upstream_fails 0 Samples.lonely_objects).
  vm_compute. repeat constructor.
Defined.

(** A principal extraction node directly upstream of the new node, whose
    identity no other object has, makes the construction succeed; the new
    node is appended to the dependents of that node. *)
Theorem principal_upstream_is_registered {G : Type}
    (self r : ref) (h : heap G) :
  Some r ∈ upstreams (h !!! self) →
  r ≠ self →
  is_from (h !!! r) = true →
  get_principle (h !!! r) = true →
  unique_identity h r →
  ∃ h', SimpleToEventStream.init self h = Some (Ok h')
        ∧ get_subs (h' !!! r) = get_subs (h !!! r) ++ [self].
Proof.
  intros Hup Hne Hfrom Hprinciple Hunique.
  destruct (walk_to_translation_returns h (Some self) nx.empty None)
    as (graph & Hwalk & _ & _).
  destruct (walked_graph_streams h self graph Hwalk) as [Hall Hkeyed].
  destruct (select_translation_nodes_ok self h graph Hall) as (tn & Hsel & Htn).
  assert (SimpleToEventStream.is_translation (h !!! r) = true) as Htr
    by (unfold SimpleToEventStream.is_translation; by rewrite Hfrom).
  assert (tn !! _hash_or_uid (h !!! r) = Some r) as Hr.
  { apply Htn. split; [|done].
    destruct (walk_root_discovers h self r graph Hup Hwalk) as [_ [a Ha]].
    destruct (Hall _ _ Ha) as [r' ->].
    pose proof (Hkeyed _ _ Ha) as Hid.
    assert (r' = r) as ->; [|done].
    destruct (h !! r') as [n'|] eqn:Hr'.
    - apply (Hunique r' n' Hr').
      by rewrite Hid, (lookup_total_correct _ _ _ Hr').
    - exfalso. rewrite (lookup_total_alt h r'), Hr' in Hid.
      unfold is_from in Hfrom. unfold _hash_or_uid in Hid.
      by destruct (inst (h !!! r)). }
  set (pn := SimpleToEventStream.select_principle_nodes h tn).
  assert (r ∈ pn) as Hin.
  { apply elem_of_select_principle_nodes. split; [by eexists|].
    by rewrite Hprinciple. }
  assert (∃ h', SimpleToEventStream.init self h = Some (Ok h'))
    as [h' Hinit].
  { unfold SimpleToEventStream.init. rewrite Hwalk, Hsel. fold pn.
    destruct pn; [by apply elem_of_nil in Hin|by eexists]. }
  exists h'. split; [done|].
  destruct (construction_result self h h' graph tn Hwalk Hsel Hinit)
    as [_ Hother].
  specialize (Hother r Hne). fold pn in Hother.
  rewrite decide_True, (translation_in_heap h r Htr) in Hother by done.
  rewrite (lookup_total_correct _ _ _ Hother).
  unfold get_subs, append_sub, is_from in *. by destruct (inst (h !!! r)).
Qed.

Lemma principal_upstream_is_registered_witness :
  ∃ h', SimpleToEventStream.init 2
          (Pipeline.fresh_objects "event" [AKey "data"; AKey "img"] 0)
        = Some (Ok h')
        ∧ get_subs (h' !!! 1) = [] ++ [2].
Proof.
  apply (principal_upstream_is_registered 2 1
           (Pipeline.fresh_objects "event" [AKey "data"; AKey "img"] 0)).
  - vm_compute. constructor.
  - discriminate.
  - reflexivity.
  - reflexivity.
  - unfold unique_identity, Pipeline.fresh_objects, Pipeline.objects.
    apply map_Forall_insert_2; [by vm_compute|].
    apply map_Forall_insert_2; [done|].
    apply map_Forall_singleton. by vm_compute.
Defined.

(** Construction changes nothing but the three walk attributes of the new
    node and the dependents of its principal nodes: each of these gets the
    new node appended once, every other object is left as it was, and no
    dataflow link or identity changes. *)
Theorem construction_touches_only_dependents {G : Type}
    (self : ref) (h h' : heap G) :
  SimpleToEventStream.init self h = Some (Ok h') →
  ∃ graph tn pn,
    walk_to_translation h (Some self) nx.empty None = Some graph
    ∧ SimpleToEventStream.select_translation_nodes self h graph = Ok tn
    ∧ pn = SimpleToEventStream.select_principle_nodes h tn
    ∧ NoDup pn ∧ (self ∉ pn)
    ∧ h' !! self = SimpleToEventStream.set_attributes graph tn pn <$> h !! self
    ∧ (∀ r, r ≠ self →
            h' !! r = if decide (r ∈ pn) then append_sub self <$> h !! r
                      else h !! r)
    ∧ (∀ r, upstreams (h' !!! r) = upstreams (h !!! r)
            ∧ downstreams (h' !!! r) = downstreams (h !!! r)
            ∧ _hash_or_uid (h' !!! r) = _hash_or_uid (h !!! r)).
Proof.
  intros Hinit.
  destruct (walk_to_translation_returns h (Some self) nx.empty None)
    as (graph & Hwalk & _ & _).
  destruct (walked_graph_streams h self graph Hwalk) as [Hall _].
  destruct (SimpleToEventStream.select_translation_nodes self h graph)
    as [tn|e] eqn:Hsel.
  2:{ destruct (select_translation_nodes_ok self h graph Hall) as (? & ? & _).
      congruence. }
  destruct (construction_result self h h' graph tn Hwalk Hsel Hinit)
    as [Hself Hother].
  eexists graph, tn, _. split; [done|]. split; [done|]. split; [done|].
  split; [by eapply principle_nodes_NoDup|].
  split; [by eapply self_not_principal|].
  split; [done|]. split; [done|].
  intros r. rewrite !(lookup_total_alt _ r).
  destruct (decide (r = self)) as [->|Hne].
  - rewrite Hself. destruct (h !! self); [|done].
    apply set_attributes_links.
  - rewrite (Hother r Hne). case_decide; [|done].
    destruct (h !! r); [|done]. apply append_sub_links.
Qed.

Lemma construction_touches_only_dependents_witness :
  let h := Pipeline.fresh_objects "event" [AKey "data"; AKey "img"] 0 in
  let h' := Pipeline.objects Samples.image_pipeline in
  ∃ graph tn pn,
    walk_to_translation h (Some 2) nx.empty None = Some graph
    ∧ SimpleToEventStream.select_translation_nodes 2 h graph = Ok tn
    ∧ pn = SimpleToEventStream.select_principle_nodes h tn
    ∧ NoDup pn ∧ (2 ∉ pn)
    ∧ h' !! 2 = SimpleToEventStream.set_attributes graph tn pn <$> h !! 2
    ∧ (∀ r, r ≠ 2 →
            h' !! r = if decide (r ∈ pn) then append_sub 2 <$> h !! r
                      else h !! r)
    ∧ (∀ r, upstreams (h' !!! r) = upstreams (h !!! r)
            ∧ downstreams (h' !!! r) = downstreams (h !!! r)
            ∧ _hash_or_uid (h' !!! r) = _hash_or_uid (h !!! r)).
Proof.
  intros h h'.
  apply (construction_touches_only_dependents 2 h h').
  by vm_compute.
Defined.

(** ** The alignment node: buffers per document type *)

Section alignment_more.
Import AlignEventStreams.

Lemma fresh_buffers_lookup (upstreams : list upstream) (r : ref)
    (q : list value) :
  fresh_buffers upstreams !! r = Some q ↔ q = [] ∧ UStream r ∈ upstreams.
Proof.
  unfold fresh_buffers.
  induction upstreams as [|u upstreams IH] using rev_ind.
  { cbn. rewrite lookup_empty. split; [done|]. intros [_ Hin].
    by apply elem_of_nil in Hin. }
  rewrite fold_left_app. cbn [fold_left]. rewrite elem_of_app, list_elem_of_singleton.
  destruct u as [r'|v].
  - destruct (decide (r' = r)) as [->|Hne].
    + rewrite lookup_insert_eq. split; [intros [= <-]|intros [-> _]]; auto.
    + rewrite lookup_insert_ne, IH by done. split; [intros [? ?]; auto|].
      intros [? [?|[= ?]]]; done.
  - rewrite IH. split; [intros [? ?]; auto|]. intros [? [?|?]]; done.
Qed.

Lemma elem_of_fresh_literals (upstreams : list upstream) (i : nat) (v : value) :
  (i, v) ∈ fresh_literals upstreams ↔ upstreams !! i = Some (ULiteral v).
Proof.
  unfold fresh_literals. rewrite list_elem_of_omap. split.
  - intros ([j u] & Hin & Hsome). apply elem_of_lookup_imap in Hin
      as (j' & u' & [= -> ->] & Hlook).
    cbn in Hsome. destruct u' as [|v']; [done|]. by injection Hsome as -> ->.
  - intros Hlook. exists (i, ULiteral v). split; [|done].
    apply elem_of_lookup_imap. by exists i, (ULiteral v).
Qed.

Lemma fold_insert_names {A} (a : A) (names : list string) (m : gmap string A)
    (name : string) :
  fold_left (λ m k, <[k := a]> m) names m !! name
  = if bool_decide (name ∈ names) then Some a else m !! name.
Proof.
  revert m. induction names as [|k names IH]; intros m; cbn [fold_left].
  { rewrite bool_decide_eq_false_2; [done|]. apply not_elem_of_nil. }
  rewrite IH. destruct (decide (name ∈ names)) as [Hin|Hin].
  - rewrite !bool_decide_eq_true_2; [done| |done]. by right.
  - rewrite (bool_decide_eq_false_2 _ Hin).
    destruct (decide (k = name)) as [->|Hne].
    + rewrite lookup_insert_eq, bool_decide_eq_true_2; [done|by left].
    + rewrite lookup_insert_ne by done.
      rewrite bool_decide_eq_false_2; [done|].
      intros [?|?]%elem_of_cons; done.
Qed.
End alignment_more.


(** The constructor gives each of the four document types buffers of its
    own: one empty queue for every stream among the upstreams, however often
    it is listed, and the literal upstreams with their positions. [update]
    puts the buffers of the type of the document in place; a document of
    any other type makes it raise [KeyError] before the zip node sees it,
    with nothing changed. *)
Theorem buffers_per_document_type
    (upstreams : list AlignEventStreams.upstream) (name : string) (doc : dict) :
  let self := AlignEventStreams.init upstreams in
  (∀ r q, AlignEventStreams.fresh_buffers upstreams !! r = Some q
          ↔ q = [] ∧ AlignEventStreams.UStream r ∈ upstreams)
  ∧ (∀ i v, (i, v) ∈ AlignEventStreams.fresh_literals upstreams
            ↔ upstreams !! i = Some (AlignEventStreams.ULiteral v))
  ∧ if bool_decide (name ∈ AlignEventStreams.doc_names) then
      AlignEventStreams.true_buffers self !! name
      = Some (AlignEventStreams.fresh_buffers upstreams)
      ∧ AlignEventStreams.true_literals self !! name
        = Some (AlignEventStreams.fresh_literals upstreams)
      ∧ run (AlignEventStreams.select (name, doc)) self
        = ({| AlignEventStreams.true_buffers :=
                AlignEventStreams.true_buffers self;
              AlignEventStreams.true_literals :=
                AlignEventStreams.true_literals self;
              AlignEventStreams.buffers := Some name;
              AlignEventStreams.literals := Some name |}, [], Ok tt)
    else
      run (AlignEventStreams.select (name, doc)) self
      = (self, [], Raise (KeyError name)).
Proof.
  intros self. split; [apply fresh_buffers_lookup|].
  split; [apply elem_of_fresh_literals|].
  assert (AlignEventStreams.true_buffers self !! name
          = if bool_decide (name ∈ AlignEventStreams.doc_names)
            then Some (AlignEventStreams.fresh_buffers upstreams) else None)
    as Hb by (unfold self; cbn [AlignEventStreams.init
                AlignEventStreams.true_buffers];
              by rewrite fold_insert_names, lookup_empty).
  assert (AlignEventStreams.true_literals self !! name
          = if bool_decide (name ∈ AlignEventStreams.doc_names)
            then Some (AlignEventStreams.fresh_literals upstreams) else None)
    as Hl by (unfold self; cbn [AlignEventStreams.init
                AlignEventStreams.true_literals];
              by rewrite fold_insert_names, lookup_empty).
  unfold run, AlignEventStreams.select, bind, get, modify, raise.
  cbn [AlignEventStreams.true_literals AlignEventStreams.true_buffers] in *.
  destruct (bool_decide (name ∈ AlignEventStreams.doc_names)).
  - split; [done|]. split; [done|]. by rewrite Hb, Hl.
  - by rewrite Hb.
Qed.
